(** * PostPanel: the timeline assembly of [src/components/structures/PostPanel.js]

    A shallow embedding of the stateful core of the [PostPanel] React
    component: the visibility filter, the continuation detector, the read
    receipt aggregator, the read-marker lifecycle and the assembly of the
    render list, followed by the properties the specification states about
    them. *)

From Stdlib Require Import List String Ascii ZArith NArith Bool Lia Arith.
From Stdlib Require Import Sorting.Permutation Sorting.Sorted.
Import ListNotations.
Local Open Scope string_scope.
Local Open Scope list_scope.
Local Open Scope Z_scope.

(** ** JavaScript values used by the component *)

(** [x === y] on two optional strings ([None] stands for an absent value). *)
Definition opt_str_eqb (a b : option string) : bool :=
  match a, b with
  | Some x, Some y => String.eqb x y
  | None, None => true
  | _, _ => false
  end.

(** Truthiness of a string: the empty string is falsy. *)
Definition truthy (s : string) : bool := negb (String.eqb s "").

(** Truthiness of a possibly absent string. *)
Definition truthy_opt (s : option string) : bool :=
  match s with
  | Some x => truthy x
  | None => false
  end.

Definition opt_str_dec (a b : option string) : {a = b} + {a <> b}.
Proof. decide equality; apply string_dec. Defined.

(** [arr.includes(x)] on an array of strings. *)
Definition includes (arr : list string) (x : string) : bool :=
  existsb (String.eqb x) arr.

(** Outcome of a method call: a normal return or a thrown exception.
    [OutOfFuel]: the recursion went deeper than the fuel given.
    [Unsupported]: the call assigns to the key [__proto__] of an object,
    which replaces the prototype of the object; objects with another
    prototype than [Object.prototype] are not described here, and nothing is
    said of what the component does from there on. *)
Inductive exn : Type := TypeError.

Inductive outcome (A : Type) : Type :=
| Returns (a : A)
| Throws (e : exn)
| OutOfFuel
| Unsupported.

Arguments Returns {A} a.
Arguments Throws {A} e.
Arguments OutOfFuel {A}.
Arguments Unsupported {A}.

Definition bind {A B : Type} (m : outcome A) (k : A -> outcome B) : outcome B :=
  match m with
  | Returns a => k a
  | Throws e => Throws e
  | OutOfFuel => OutOfFuel
  | Unsupported => Unsupported
  end.

Notation "'do' x <- m ; k" := (bind m (fun x => k))
  (at level 10, x pattern, m at level 100, k at level 200).

(** ** Stable insertion sort, the model of [Array.prototype.sort] *)

Section Isort.
Variable A : Type.
(** [le x y]: the comparator does not put [y] before [x]. *)
Variable le : A -> A -> bool.

Fixpoint insert (x : A) (l : list A) : list A :=
  match l with
  | [] => [x]
  | y :: l' => if le x y then x :: y :: l' else y :: insert x l'
  end.

Fixpoint isort (l : list A) : list A :=
  match l with
  | [] => []
  | x :: l' => insert x (isort l')
  end.

Definition sorted (l : list A) : Prop :=
  StronglySorted (fun x y => le x y = true) l.

End Isort.

Arguments insert {A} le x l.
Arguments isort {A} le l.
Arguments sorted {A} le l.

(** ** Plain JavaScript objects used as maps

    An object is the list of its own properties in insertion order; its
    prototype is [Object.prototype].  Assigning to an existing key keeps the
    key's position; assigning to a new key appends it.  [for (k in o)]
    visits the array-index keys (canonical numeric strings up to
    [2^32 - 2]) first, in ascending numeric order, then the other keys in
    insertion order; the properties of [Object.prototype] are not
    enumerable.  A lookup [o[k]] that finds no own property finds the
    property of [Object.prototype] with that name, if there is one. *)

(** The names of the properties of [Object.prototype]. *)
Definition object_prototype : list string :=
  ["constructor"; "__defineGetter__"; "__defineSetter__"; "hasOwnProperty";
   "__lookupGetter__"; "__lookupSetter__"; "isPrototypeOf";
   "propertyIsEnumerable"; "toString"; "valueOf"; "__proto__";
   "toLocaleString"].

Definition inherited (k : string) : bool := includes object_prototype k.

Definition digit_of (c : ascii) : option N :=
  let n := N_of_ascii c in
  if (N.leb 48 n && N.leb n 57)%bool then Some (n - 48)%N else None.

Fixpoint parse_digits (s : string) (acc : N) : option N :=
  match s with
  | EmptyString => Some acc
  | String c s' =>
      match digit_of c with
      | Some d => parse_digits s' (10 * acc + d)%N
      | None => None
      end
  end.

(** The array index a key denotes, if it is a canonical numeric string
    below [2^32 - 1]. *)
Definition array_index (k : string) : option N :=
  match k with
  | EmptyString => None
  | String c rest =>
      if (Ascii.eqb c "0" && negb (String.eqb rest ""))%bool then None
      else match parse_digits k 0 with
           | Some n => if N.ltb n 4294967295 then Some n else None
           | None => None
           end
  end.

Definition is_index (k : string) : bool :=
  match array_index k with Some _ => true | None => false end.

Definition index_of (k : string) : N :=
  match array_index k with Some n => n | None => 0%N end.

Section JsObject.
Variable V : Type.

Definition obj : Type := list (string * V).

Definition obj_empty : obj := [].

(** The own property [k] of [o], if it has one. *)
Fixpoint obj_get (o : obj) (k : string) : option V :=
  match o with
  | [] => None
  | (k', v) :: o' => if String.eqb k k' then Some v else obj_get o' k
  end.

(** The object with its own property [k] set to [v]. *)
Fixpoint obj_set (o : obj) (k : string) (v : V) : obj :=
  match o with
  | [] => [(k, v)]
  | (k', v') :: o' =>
      if String.eqb k k' then (k', v) :: o' else (k', v') :: obj_set o' k v
  end.

Definition obj_keys (o : obj) : list string := map fst o.

(** [o.hasOwnProperty(k)] *)
Definition obj_has (o : obj) (k : string) : bool :=
  match obj_get o k with Some _ => true | None => false end.

(** What a lookup [o[k]] finds: an own property, the property [k] of
    [Object.prototype] (a function, or for [__proto__] the prototype itself:
    truthy, and not an array), or [undefined]. *)
Inductive property : Type :=
| Own (v : V)
| Inherited (k : string)
| Undefined.

(** [o[k]] *)
Definition js_get (o : obj) (k : string) : property :=
  match obj_get o k with
  | Some v => Own v
  | None => if inherited k then Inherited k else Undefined
  end.

(** The truthiness of [o[k]] in an object whose own properties hold
    objects or arrays. *)
Definition js_has (o : obj) (k : string) : bool :=
  match js_get o k with
  | Undefined => false
  | _ => true
  end.

(** [o[k] = v]: sets the own property, except for the key [__proto__],
    where the assignment goes to the setter of [Object.prototype] and
    replaces the prototype of [o]. *)
Definition js_set (o : obj) (k : string) (v : V) : outcome obj :=
  if String.eqb k "__proto__" then Unsupported else Returns (obj_set o k v).

Definition entry_is_index (e : string * V) : bool := is_index (fst e).

Definition entry_le (e1 e2 : string * V) : bool :=
  N.leb (index_of (fst e1)) (index_of (fst e2)).

(** The properties in the order [for (k in o)] visits them. *)
Definition obj_entries (o : obj) : list (string * V) :=
  isort entry_le (filter entry_is_index o)
    ++ filter (fun e => negb (entry_is_index e)) o.

(** Representation invariant: a key occurs once. *)
Definition obj_wf (o : obj) : Prop := NoDup (obj_keys o).

End JsObject.

Arguments obj_empty {V}.
Arguments obj_get {V} o k.
Arguments obj_set {V} o k v.
Arguments obj_keys {V} o.
Arguments obj_has {V} o k.
Arguments Own {V} v.
Arguments Inherited {V} k.
Arguments Undefined {V}.
Arguments js_get {V} o k.
Arguments js_has {V} o k.
Arguments js_set {V} o k v.
Arguments obj_entries {V} o.
Arguments obj_wf {V} o.
Arguments entry_is_index {V} e.
Arguments entry_le {V} e1 e2.

(** ** Data model *)

(** A room member, as found in [event.sender] and returned by
    [room.getMember]. *)
Record RoomMember : Type := {
  userId : string;
  name : string;
  getMxcAvatarUrl : option string;
}.

(** [content['m.relates_to']['m.in_reply_to']] *)
Record InReplyTo : Type := {
  event_id : option string;
}.

(** [content['m.relates_to']] *)
Record RelatesTo : Type := {
  m_in_reply_to : option InReplyTo;
}.

(** A [MatrixEvent], by the accessors the component reads.  [status] and
    [getAssociatedStatus] are absent ([None]) or a status name.
    [identity] stands for the object itself: two events are the same object
    exactly when their identities are equal, whatever their fields. *)
Record MatrixEvent : Type := {
  identity : nat;
  getId : string;
  getTxnId : option string;
  sender : option RoomMember;
  getSender : string;
  getType : string;
  getTs : Z;
  isRedacted : bool;
  status : option string;
  getAssociatedStatus : option string;
  m_relates_to : option RelatesTo;
}.

(** A raw receipt of the room: [{userId, type, data: {ts}}]. *)
Record ReceiptData : Type := {
  data_ts : Z;
}.

Record RawReceipt : Type := {
  raw_userId : option string;
  raw_type : string;
  raw_data : option ReceiptData;
}.

(** A receipt to display: [{userId, roomMember, ts}]. *)
Record Receipt : Type := {
  receipt_userId : string;
  roomMember : option RoomMember;
  ts : Z;
}.

(** An entry of the per-user cache: [{lastShownEventId, receipt}]. *)
Record UserReceipt : Type := {
  lastShownEventId : string;
  receipt : Receipt;
}.

Record Room : Type := {
  getReceiptsForEvent : MatrixEvent -> list RawReceipt;
  getMember : string -> option RoomMember;
}.

(** [MatrixClientPeg.get()] *)
Record MatrixClient : Type := {
  isUserIgnored : string -> bool;
  getUserId : option string;
  credentials_userId : option string;
}.

Record Props : Type := {
  events : list MatrixEvent;
  highlightedEventId : option string;
  room : option Room;
  readMarkerEventId : option string;
  readMarkerVisible : bool;
  showReadReceipts : bool;
}.

(** The component instance: its props, its React state
    ([ghostReadMarkers]) and the instance fields the receipt aggregation
    and the visibility filter use. *)
Record PostPanel : Type := {
  props : Props;
  ghostReadMarkers : list (option string);
  _readReceiptsByEvent : obj (list Receipt);
  _readReceiptsByUserId : obj UserReceipt;
  _showHiddenEventsInTimeline : bool;
}.

(** [x === y] on two values that may be absent. *)
Definition opt_eqb {A : Type} (eqb : A -> A -> bool) (a b : option A) : bool :=
  match a, b with
  | Some x, Some y => eqb x y
  | None, None => true
  | _, _ => false
  end.

(** [a === b] on two event objects: they are the same object. *)
Definition event_eqb (a b : MatrixEvent) : bool :=
  Nat.eqb (identity a) (identity b).

(** One object has one state: the events of a list that are the same object
    have the same fields. *)
Definition objects_wf (evs : list MatrixEvent) : Prop :=
  forall a b, In a evs -> In b evs -> identity a = identity b -> a = b.

(** ** Module constants *)

Definition CONTINUATION_MAX_INTERVAL : Z := 5 * 60 * 1000.
Definition continuedTypes : list string := ["m.sticker"; "m.room.message"].
Definition messageTypes : list string := ["m.sticker"; "m.room.message"].

(** [s => !s || s === 'sent'] *)
Definition isSentState (s : option string) : bool :=
  negb (truthy_opt s) || opt_str_eqb s (Some "sent").

(** [content['m.relates_to'] && content['m.relates_to']['m.in_reply_to']] *)
Definition in_reply_to (e : MatrixEvent) : option InReplyTo :=
  match m_relates_to e with
  | Some rel => m_in_reply_to rel
  | None => None
  end.

Definition is_reply (e : MatrixEvent) : bool :=
  match in_reply_to e with Some _ => true | None => false end.

(** ** Render nodes *)

(** The props handed to a [PostEventTile], and the key and scroll token of
    the [<li>] that wraps it. *)
Record TileProps : Type := {
  key : string;
  scrollToken : option string;
  level : nat;
  mxEvent : MatrixEvent;
  continuation : bool;
  last : option bool;
  lastSuccessful : bool;
  isSelectedEvent : bool;
  readReceipts : property (list Receipt);
  eventSendStatus : option string;
}.

(** An element of the render list: an event tile with the arrays of tiles
    of its direct sub-events as children, the read-marker [<li>] (with its
    [<hr>] or without), or a ghost read-marker [<li>]. *)
#[local] Set Warnings "-register-all".
Inductive Node : Type :=
| EventTile (p : TileProps) (children : list (list Node))
| ReadMarker (eventId : string) (hr : bool)
| GhostReadMarker (eventId : string).

(** [xs.map(f)] where [f] may throw. *)
Fixpoint mapM {A B : Type} (f : A -> outcome B) (xs : list A) : outcome (list B) :=
  match xs with
  | [] => Returns []
  | x :: xs' =>
      do y <- f x;
      do ys <- mapM f xs';
      Returns (y :: ys)
  end.

(** A loop [for (x of xs)] whose body updates a state and may throw. *)
Fixpoint foldM {A B : Type} (f : B -> A -> outcome B) (xs : list A) (b : B)
    : outcome B :=
  match xs with
  | [] => Returns b
  | x :: xs' =>
      do b' <- f b x;
      foldM f xs' b'
  end.

(** The array held by the own property [k] of [o], or the empty array when
    [o] has no such property. *)
Definition bucket {A : Type} (o : obj (list A)) (k : string) : list A :=
  match obj_get o k with
  | Some l => l
  | None => []
  end.

(** [(o[k] || []).concat(more)].  What the lookup finds in
    [Object.prototype] is truthy and has no [concat] method: the call
    throws. *)
Definition concat_at {A : Type} (o : obj (list A)) (k : string) (more : list A)
    : outcome (list A) :=
  match js_get o k with
  | Own l => Returns (l ++ more)
  | Inherited _ => Throws TypeError
  | Undefined => Returns more
  end.

(** The comparator [(r1, r2) => r2.ts - r1.ts] keeps [r1] before [r2] when
    [r2.ts <= r1.ts]. *)
Definition receipt_le (r1 r2 : Receipt) : bool := ts r2 <=? ts r1.

(** State of the forward pass of the receipt aggregation. *)
Record AggState : Type := {
  receiptsByEvent : obj (list Receipt);
  receiptsByUserId : obj UserReceipt;
  lastShown : option string;
}.

(** The render list in document order: each tile (with its nesting level)
    followed by the tiles nested in it, and the marker nodes. *)
Inductive Item : Type :=
| TileOf (eventId : string) (level : nat)
| MarkerAt (eventId : string)
| GhostAt (eventId : string).

Fixpoint flatten (n : Node) : list Item :=
  match n with
  | EventTile p children =>
      TileOf (getId (mxEvent p)) (level p) :: flat_map (flat_map flatten) children
  | ReadMarker eventId _ => [MarkerAt eventId]
  | GhostReadMarker eventId => [GhostAt eventId]
  end.

Definition render_order (ret : list Node) : list Item := flat_map flatten ret.

(** The props of the tiles at the top level of a render list, in order. *)
Definition top_tiles (ret : list Node) : list TileProps :=
  flat_map (fun n => match n with
                     | EventTile p _ => [p]
                     | _ => []
                     end) ret.

(** The props of the tiles of the arrays nested in a tile. *)
Definition child_tiles (children : list (list Node)) : list TileProps :=
  flat_map top_tiles children.

(** The props of a tile and of every tile nested in it, at any depth. *)
Fixpoint tiles_of (n : Node) : list TileProps :=
  match n with
  | EventTile p children => p :: flat_map (flat_map tiles_of) children
  | ReadMarker _ _ => []
  | GhostReadMarker _ => []
  end.

(** The props of the tiles nested, at any depth, in the tiles of a render
    list. *)
Definition nested_tiles (ret : list Node) : list TileProps :=
  flat_map (fun n => match n with
                     | EventTile _ children =>
                         flat_map (flat_map tiles_of) children
                     | _ => []
                     end) ret.

Section Component.
(** The collaborators: the Matrix client, the tile-existence predicate of
    [PostEventTile] and the default-hide policy [shouldHideEvent]. *)
Variable peg : MatrixClient.
Variable haveTileForEvent : MatrixEvent -> bool.
Variable shouldHideEvent : MatrixEvent -> bool.

(** *** Continuation detector *)

Definition shouldFormContinuation (prevEvent : option MatrixEvent)
    (mxEvent : MatrixEvent) : bool :=
  match prevEvent with
  | None => false
  | Some prevEvent =>
      match sender prevEvent, sender mxEvent with
      | Some prevSender, Some mxSender =>
          if getTs mxEvent - getTs prevEvent >? CONTINUATION_MAX_INTERVAL
          then false
          else if negb (Bool.eqb (isRedacted mxEvent) (isRedacted prevEvent))
          then false
          else if negb (String.eqb (getType mxEvent) (getType prevEvent))
                  && (negb (includes continuedTypes (getType mxEvent))
                      || negb (includes continuedTypes (getType prevEvent)))
          then false
          else if negb (String.eqb (userId mxSender) (userId prevSender))
                  || negb (String.eqb (name mxSender) (name prevSender))
                  || negb (opt_str_eqb (getMxcAvatarUrl mxSender)
                                       (getMxcAvatarUrl prevSender))
          then false
          else if negb (haveTileForEvent prevEvent)
          then false
          else true
      | _, _ => false
      end
  end.

(** *** Visibility filter *)

Definition _shouldShowEvent (this : PostPanel) (mxEv : MatrixEvent) : bool :=
  if match sender mxEv with
     | Some s => isUserIgnored peg (userId s)
     | None => false
     end
  then false
  else if negb (includes messageTypes (getType mxEv)) then false
  else if is_reply mxEv then false
  else if isRedacted mxEv then false
  else if _showHiddenEventsInTimeline this then true
  else if negb (haveTileForEvent mxEv) then false
  else if opt_str_eqb (highlightedEventId (props this)) (Some (getId mxEv))
  then true
  else negb (shouldHideEvent mxEv).

(** *** Read-marker lifecycle *)

Definition componentDidUpdate (this : PostPanel) (prevProps : Props) : PostPanel :=
  if readMarkerVisible prevProps
     && negb (opt_str_eqb (readMarkerEventId (props this))
                          (readMarkerEventId prevProps))
  then {| props := props this;
          ghostReadMarkers :=
            ghostReadMarkers this ++ [readMarkerEventId prevProps];
          _readReceiptsByEvent := _readReceiptsByEvent this;
          _readReceiptsByUserId := _readReceiptsByUserId this;
          _showHiddenEventsInTimeline := _showHiddenEventsInTimeline this |}
  else this.

Definition _readMarkerForEvent (this : PostPanel) (eventId : string)
    (isLastEvent : bool) : option Node :=
  let visible := negb isLastEvent && readMarkerVisible (props this) in
  if opt_str_eqb (readMarkerEventId (props this)) (Some eventId)
  then Some (ReadMarker eventId visible)
  else if existsb (opt_str_eqb (Some eventId)) (ghostReadMarkers this)
  then Some (GhostReadMarker eventId)
  else None.

(** [finishedEventId] is [ev.target.dataset.eventid]. *)
Definition _onGhostTransitionEnd (this : PostPanel) (finishedEventId : string)
    : PostPanel :=
  {| props := props this;
     ghostReadMarkers :=
       filter (fun eid => negb (opt_str_eqb eid (Some finishedEventId)))
              (ghostReadMarkers this);
     _readReceiptsByEvent := _readReceiptsByEvent this;
     _readReceiptsByUserId := _readReceiptsByUserId this;
     _showHiddenEventsInTimeline := _showHiddenEventsInTimeline this |}.

(** *** Look-ahead *)

Definition _getNextEventInfo (this : PostPanel) (arr : list MatrixEvent)
    (i : nat) : option MatrixEvent * option MatrixEvent :=
  let nextEvent :=
    if Z.of_nat i <? Z.of_nat (List.length arr) - 1
    then nth_error arr (i + 1)
    else None in
  let nextTile := find (_shouldShowEvent this) (skipn (i + 1) arr) in
  (nextEvent, nextTile).

(** *** Receipt aggregation *)

Definition push_receipt (room : Room) (receipts : list Receipt)
    (r : RawReceipt) : list Receipt :=
  if negb (truthy_opt (raw_userId r))
     || negb (String.eqb (raw_type r) "m.read")
     || opt_str_eqb (raw_userId r) (credentials_userId peg)
  then receipts
  else match raw_userId r with
       | None => receipts
       | Some uid =>
           if isUserIgnored peg uid then receipts
           else receipts ++
                  [{| receipt_userId := uid;
                      roomMember := getMember room uid;
                      ts := match raw_data r with
                            | Some d => data_ts d
                            | None => 0
                            end |}]
       end.

(** The [forEach] loop of [_getReadReceiptsForEvent]. *)
Definition receipts_for (room : Room) (event : MatrixEvent) : list Receipt :=
  fold_left (push_receipt room) (getReceiptsForEvent room event) [].

(** [None] is the [null] returned when there is no room. *)
Definition _getReadReceiptsForEvent (this : PostPanel) (event : MatrixEvent)
    : option (list Receipt) :=
  match room (props this) with
  | None => None
  | Some room => Some (receipts_for room event)
  end.

(** One receipt of the inner loop: record it for its user. *)
Definition record_receipt (lastShownEventId : string)
    (receiptsByUserId : obj UserReceipt) (receipt : Receipt)
    : outcome (obj UserReceipt) :=
  js_set receiptsByUserId (receipt_userId receipt)
    {| lastShownEventId := lastShownEventId; receipt := receipt |}.

(** What the inner loop leaves when no receipt of it is from the user
    [__proto__]: every receipt recorded for its user, in order. *)
Definition record_all (lastShownEventId : string) (receipts : list Receipt)
    (receiptsByUserId : obj UserReceipt) : obj UserReceipt :=
  fold_left (fun byUser receipt =>
               obj_set byUser (receipt_userId receipt)
                 {| lastShownEventId := lastShownEventId; receipt := receipt |})
            receipts receiptsByUserId.

(** One iteration of the forward loop over [this.props.events].  Without a
    room the new receipts are [null]: [concat] throws on an inherited
    property, and otherwise the loop over [null] throws; either is a
    [TypeError].  The assignment to [receiptsByEvent] sets an own property:
    its key has one already, or names no property of [Object.prototype]. *)
Definition forward_step (this : PostPanel) (st : AggState) (event : MatrixEvent)
    : outcome AggState :=
  let lastShownEventId :=
    if _shouldShowEvent this event then Some (getId event) else lastShown st in
  match lastShownEventId with
  | None =>
      Returns {| receiptsByEvent := receiptsByEvent st;
                 receiptsByUserId := receiptsByUserId st;
                 lastShown := lastShownEventId |}
  | Some id =>
      if negb (truthy id)
      then Returns {| receiptsByEvent := receiptsByEvent st;
                      receiptsByUserId := receiptsByUserId st;
                      lastShown := lastShownEventId |}
      else
        match _getReadReceiptsForEvent this event with
        | None => Throws TypeError
        | Some newReceipts =>
            do merged <- concat_at (receiptsByEvent st) id newReceipts;
            do byUser <- foldM (record_receipt id) newReceipts
                               (receiptsByUserId st);
            Returns {| receiptsByEvent :=
                         obj_set (receiptsByEvent st) id merged;
                       receiptsByUserId := byUser;
                       lastShown := lastShownEventId |}
        end
  end.

Fixpoint forward_pass (this : PostPanel) (evs : list MatrixEvent) (st : AggState)
    : outcome AggState :=
  match evs with
  | [] => Returns st
  | event :: evs' =>
      do st' <- forward_step this st event;
      forward_pass this evs' st'
  end.

(** One iteration of the loop over the previous per-user cache.  The test
    [receiptsByUserId[userId]] also holds of a user id that names a property
    of [Object.prototype]. *)
Definition fallback_step
    (st : obj (list Receipt) * obj UserReceipt)
    (entry : string * UserReceipt)
    : outcome (obj (list Receipt) * obj UserReceipt) :=
  let (receiptsByEvent, receiptsByUserId) := st in
  let (userId, cached) := entry in
  if js_has receiptsByUserId userId then Returns st
  else
    let lastShownEventId := lastShownEventId cached in
    let receipt := receipt cached in
    do merged <- concat_at receiptsByEvent lastShownEventId [receipt];
    do byUser <- js_set receiptsByUserId userId
                   {| lastShownEventId := lastShownEventId;
                      receipt := receipt |};
    Returns (obj_set receiptsByEvent lastShownEventId merged, byUser).

Definition fallback_pass (previous : obj UserReceipt)
    (st : obj (list Receipt) * obj UserReceipt)
    : outcome (obj (list Receipt) * obj UserReceipt) :=
  foldM fallback_step (obj_entries previous) st.

(** The last loop: sort every bucket, most recent first. *)
Definition sort_buckets (receiptsByEvent : obj (list Receipt))
    : obj (list Receipt) :=
  map (fun kv => (fst kv, isort receipt_le (snd kv))) receiptsByEvent.

Definition initial_agg : AggState :=
  {| receiptsByEvent := obj_empty;
     receiptsByUserId := obj_empty;
     lastShown := None |}.

(** Returns the map to display and the component with its per-user cache
    replaced. *)
Definition _getReadReceiptsByShownEvent (this : PostPanel)
    : outcome (obj (list Receipt) * PostPanel) :=
  do st <- forward_pass this (events (props this)) initial_agg;
  do r <- fallback_pass (_readReceiptsByUserId this)
                        (receiptsByEvent st, receiptsByUserId st);
  Returns (sort_buckets (fst r),
           {| props := props this;
              ghostReadMarkers := ghostReadMarkers this;
              _readReceiptsByEvent := _readReceiptsByEvent this;
              _readReceiptsByUserId := snd r;
              _showHiddenEventsInTimeline := _showHiddenEventsInTimeline this |}).

(** *** Tiles *)

(** The [isLastSuccessful] flag computed by [_getTilesForEvent]. *)
Definition isLastSuccessful (this : PostPanel) (mxEv : MatrixEvent)
    (nextEvent nextEventWithTile : option MatrixEvent) : bool :=
  let isSent := isSentState (getAssociatedStatus mxEv) in
  let hasNextEvent :=
    match nextEvent with
    | Some e => _shouldShowEvent this e
    | None => false
    end in
  let nextSent :=
    match nextEvent with
    | Some e => isSentState (getAssociatedStatus e)
    | None => false
    end in
  let flag :=
    if negb hasNextEvent && isSent then true
    else if hasNextEvent && isSent && negb nextSent then true
    else false in
  let flag :=
    match nextEventWithTile with
    | Some t =>
        if negb (opt_eqb event_eqb (Some t) nextEvent)
           && isSentState (getAssociatedStatus t)
        then false
        else flag
    | None => flag
    end in
  flag && opt_str_eqb (Some (getSender mxEv)) (getUserId peg).

(** The events of the log that reply directly to [mxEv]. *)
Definition directSubevents (this : PostPanel) (mxEv : MatrixEvent)
    : list MatrixEvent :=
  filter (fun e => match in_reply_to e with
                   | Some r => opt_str_eqb (event_id r) (Some (getId mxEv))
                   | None => false
                   end)
         (filter is_reply (events (props this))).

(** [_getTilesForEvent]; the recursion over the sub-events is bounded by
    [fuel], since a log with a cycle of replies makes the method recurse
    for ever. *)
Fixpoint _getTilesForEvent (fuel : nat) (this : PostPanel)
    (prevEvent : option MatrixEvent) (mxEv : MatrixEvent) (last : option bool)
    (nextEvent nextEventWithTile : option MatrixEvent) (level : nat)
    : outcome (list Node) :=
  match fuel with
  | O => OutOfFuel
  | S fuel' =>
      let continuation := shouldFormContinuation prevEvent mxEv in
      let eventId := getId mxEv in
      let highlight := opt_str_eqb (Some eventId) (highlightedEventId (props this)) in
      let scrollToken :=
        if truthy_opt (status mxEv) then None else Some eventId in
      let readReceipts := js_get (_readReceiptsByEvent this) eventId in
      let isLastSuccessful :=
        isLastSuccessful this mxEv nextEvent nextEventWithTile in
      do children <-
        mapM (fun e => _getTilesForEvent fuel' this None e None None None
                                         (level + 1))
             (directSubevents this mxEv);
      Returns
        [EventTile
           {| key := match getTxnId mxEv with
                     | Some txn => if truthy txn then txn else eventId
                     | None => eventId
                     end;
              scrollToken := scrollToken;
              level := level;
              mxEvent := mxEv;
              continuation := continuation;
              last := last;
              lastSuccessful := isLastSuccessful;
              isSelectedEvent := highlight;
              readReceipts := readReceipts;
              eventSendStatus := getAssociatedStatus mxEv |}
           children]
  end.

(** *** Timeline assembly *)

(** The backward loop of [_getEventTiles], entered with the indices below
    [n] still to visit: the last shown event, and the index of the last
    shown event that is not a local echo ([-1] when there is none). *)
Fixpoint reverse_scan (this : PostPanel) (n : nat)
    (lastShownEvent : option MatrixEvent) : option MatrixEvent * Z :=
  match n with
  | O => (lastShownEvent, -1)
  | S i =>
      match nth_error (events (props this)) i with
      | None => reverse_scan this i lastShownEvent
      | Some mxEv =>
          if negb (_shouldShowEvent this mxEv)
          then reverse_scan this i lastShownEvent
          else
            let lastShownEvent :=
              match lastShownEvent with
              | None => Some mxEv
              | Some _ => lastShownEvent
              end in
            if truthy_opt (status mxEv)
            then reverse_scan this i lastShownEvent
            else (lastShownEvent, Z.of_nat i)
      end
  end.

(** One iteration of the forward loop of [_getEventTiles], at index [i]. *)
Definition tiles_step (fuel : nat) (this : PostPanel)
    (lastShownEvent : option MatrixEvent) (lastShownNonLocalEchoIndex : Z)
    (st : list Node * option MatrixEvent) (i : nat) (mxEv : MatrixEvent)
    : outcome (list Node * option MatrixEvent) :=
  let (ret, prevEvent) := st in
  let eventId := getId mxEv in
  let last := opt_eqb event_eqb (Some mxEv) lastShownEvent in
  let (nextEvent, nextTile) := _getNextEventInfo this (events (props this)) i in
  let wantTile := _shouldShowEvent this mxEv in
  do st' <-
    (if wantTile
     then do tiles <- _getTilesForEvent fuel this prevEvent mxEv (Some last)
                                        nextEvent nextTile 0;
          Returns (ret ++ tiles, Some mxEv)
     else Returns (ret, prevEvent));
  let (ret, prevEvent) := st' in
  match _readMarkerForEvent this eventId
                            (Z.of_nat i >=? lastShownNonLocalEchoIndex) with
  | Some readMarker => Returns (ret ++ [readMarker], prevEvent)
  | None => Returns (ret, prevEvent)
  end.

Fixpoint tiles_loop (fuel : nat) (this : PostPanel)
    (lastShownEvent : option MatrixEvent) (lastShownNonLocalEchoIndex : Z)
    (evs : list MatrixEvent) (i : nat) (st : list Node * option MatrixEvent)
    : outcome (list Node * option MatrixEvent) :=
  match evs with
  | [] => Returns st
  | mxEv :: evs' =>
      do st' <- tiles_step fuel this lastShownEvent lastShownNonLocalEchoIndex
                           st i mxEv;
      tiles_loop fuel this lastShownEvent lastShownNonLocalEchoIndex
                 evs' (S i) st'
  end.

Definition set_readReceiptsByEvent (this : PostPanel)
    (m : obj (list Receipt)) : PostPanel :=
  {| props := props this;
     ghostReadMarkers := ghostReadMarkers this;
     _readReceiptsByEvent := m;
     _readReceiptsByUserId := _readReceiptsByUserId this;
     _showHiddenEventsInTimeline := _showHiddenEventsInTimeline this |}.

(** [_getEventTiles]: the render list and the component after the call.
    The dispatch of a pending edit at the end of the method touches neither
    and is left out. *)
Definition _getEventTiles (fuel : nat) (this : PostPanel)
    : outcome (list Node * PostPanel) :=
  let (lastShownEvent, lastShownNonLocalEchoIndex) :=
    reverse_scan this (List.length (events (props this))) None in
  let this := set_readReceiptsByEvent this obj_empty in
  do this <-
    (if showReadReceipts (props this)
     then do r <- _getReadReceiptsByShownEvent this;
          Returns (set_readReceiptsByEvent (snd r) (fst r))
     else Returns this);
  do st <- tiles_loop fuel this lastShownEvent lastShownNonLocalEchoIndex
                      (events (props this)) 0 ([], None);
  Returns (fst st, this).

(** The flag the forward loop of [_getEventTiles] computes at index [i] of
    the log, from the look-ahead at [i]: the flag of the tile of the event
    there when that event is shown.  (The tile of a reply is made by the
    recursion of [_getTilesForEvent], without look-ahead.) *)
Definition lastSuccessfulAt (this : PostPanel) (i : nat) : option bool :=
  match nth_error (events (props this)) i with
  | Some mxEv =>
      let (nextEvent, nextTile) :=
        _getNextEventInfo this (events (props this)) i in
      Some (isLastSuccessful this mxEv nextEvent nextTile)
  | None => None
  end.

(** *** The folding of receipts, as the specification words it

    The nearest preceding shown event of the event at index [i] is the last
    shown event among the events of the log up to and including [i]; the
    bucket of an event id holds, in log order, the receipts of the events
    whose nearest preceding shown event has that id. *)

Definition last_opt {A : Type} (l : list A) : option A :=
  match rev l with
  | x :: _ => Some x
  | [] => None
  end.

(** The id of the last shown event of a list. *)
Definition nearest (this : PostPanel) (evs : list MatrixEvent) : option string :=
  option_map getId (last_opt (filter (_shouldShowEvent this) evs)).

Definition nearest_shown (this : PostPanel) (evs : list MatrixEvent) (i : nat)
    : option string :=
  nearest this (firstn (S i) evs).

Definition folded_receipts (this : PostPanel) (room : Room)
    (evs : list MatrixEvent) (k : string) : list Receipt :=
  flat_map (fun i => match nth_error evs i with
                     | Some e =>
                         if opt_str_eqb (nearest_shown this evs i) (Some k)
                         then receipts_for room e
                         else []
                     | None => []
                     end)
           (seq 0 (List.length evs)).

(** Event ids are non-empty strings. *)
Definition ids_present (evs : list MatrixEvent) : Prop :=
  forall e, In e evs -> getId e <> "".

(** The keys of a receipt map are ids of shown events of the log. *)
Definition keys_are_shown (this : PostPanel) (m : obj (list Receipt)) : Prop :=
  forall k, In k (obj_keys m) ->
    exists e, In e (events (props this)) /\ getId e = k
              /\ _shouldShowEvent this e = true.

(** No [lastShownEventId] of the previous per-user cache names a property
    of [Object.prototype]. *)
Definition plain_cache (this : PostPanel) : Prop :=
  forall u c, In (u, c) (_readReceiptsByUserId this) ->
    inherited (lastShownEventId c) = false.

(** The keys an aggregation uses are plain: no id of a shown event and no
    [lastShownEventId] of the previous per-user cache names a property of
    [Object.prototype], and no receipt of the log is from a user
    [__proto__]. *)
Definition plain_keys (this : PostPanel) (r : Room) : Prop :=
  (forall e, In e (events (props this)) -> _shouldShowEvent this e = true ->
     inherited (getId e) = false)
  /\ (forall e x, In e (events (props this)) -> In x (receipts_for r e) ->
        receipt_userId x <> "__proto__")
  /\ plain_cache this.

(** What a render needs of the receipt source: when read receipts are to be
    shown, a room, and plain keys. *)
Definition receipts_ready (this : PostPanel) : Prop :=
  showReadReceipts (props this) = true ->
  exists r, room (props this) = Some r /\ plain_keys this r.

(** Every receipt of an event of the log is in the bucket of the nearest
    preceding shown event. *)
Definition folds_onto_nearest (this : PostPanel) (r : Room)
    (m : obj (list Receipt)) : Prop :=
  forall i e k x,
    nth_error (events (props this)) i = Some e ->
    nearest_shown this (events (props this)) i = Some k ->
    In x (receipts_for r e) ->
    In x (bucket m k).

(** Every user of the per-user cache of [this] is in that of [this']. *)
Definition users_kept (this this' : PostPanel) : Prop :=
  forall u, In u (obj_keys (_readReceiptsByUserId this)) ->
    In u (obj_keys (_readReceiptsByUserId this')).

(** *** The last-successful flag, as the specification words it

    A tile is flagged only if its event is from the local user and sent,
    and only if the next shown event of the log after it, if any, is not
    yet sent. *)
Definition flag_as_claimed (this : PostPanel) (p : TileProps) : Prop :=
  lastSuccessful p = true ->
  Some (getSender (mxEvent p)) = getUserId peg
  /\ isSentState (getAssociatedStatus (mxEvent p)) = true
  /\ forall i e t,
       nth_error (events (props this)) i = Some e ->
       event_eqb e (mxEvent p) = true ->
       find (_shouldShowEvent this) (skipn (i + 1) (events (props this)))
       = Some t ->
       isSentState (getAssociatedStatus t) = false.

Definition flags_as_claimed (this : PostPanel) (ret : list Node) : Prop :=
  forall p, In p (flat_map tiles_of ret) -> flag_as_claimed this p.

(** *** The order of the render list, as the specification words it

    The thread of an event is its tile followed directly by the threads of
    its direct sub-events, in log order, one level deeper.  The render list
    follows the log: the thread of each shown event, then the marker or
    ghost node anchored at that event.  [check_hidden] tells whether the
    read-marker check is also made after the events that are not shown. *)

Definition marker_items (this : PostPanel) (eventId : string) : list Item :=
  if opt_str_eqb (readMarkerEventId (props this)) (Some eventId)
  then [MarkerAt eventId]
  else if existsb (opt_str_eqb (Some eventId)) (ghostReadMarkers this)
  then [GhostAt eventId]
  else [].

Inductive thread_order (this : PostPanel) : nat -> MatrixEvent -> list Item -> Prop :=
| thread_tile (level : nat) (e : MatrixEvent) (items : list Item) :
    threads_order this (level + 1) (directSubevents this e) items ->
    thread_order this level e (TileOf (getId e) level :: items)
with threads_order (this : PostPanel) : nat -> list MatrixEvent -> list Item -> Prop :=
| threads_nil (level : nat) : threads_order this level [] []
| threads_cons (level : nat) (e : MatrixEvent) (es : list MatrixEvent)
    (t ts : list Item) :
    thread_order this level e t ->
    threads_order this level es ts ->
    threads_order this level (e :: es) (t ++ ts).

Inductive log_order (check_hidden : bool) (this : PostPanel)
    : list MatrixEvent -> list Item -> Prop :=
| log_nil : log_order check_hidden this [] []
| log_shown (e : MatrixEvent) (evs : list MatrixEvent) (t rest : list Item) :
    _shouldShowEvent this e = true ->
    thread_order this 0 e t ->
    log_order check_hidden this evs rest ->
    log_order check_hidden this (e :: evs)
      (t ++ marker_items this (getId e) ++ rest)
| log_hidden (e : MatrixEvent) (evs : list MatrixEvent) (rest : list Item) :
    _shouldShowEvent this e = false ->
    log_order check_hidden this evs rest ->
    log_order check_hidden this (e :: evs)
      ((if check_hidden then marker_items this (getId e) else []) ++ rest).

(** *** The render list as a tree

    The thread of an event is one tile of that event whose children are, in
    log order, the one-tile arrays of the threads of its direct sub-events,
    one level deeper.  The render list has, for each event of the log in
    order, the thread of the event if it is shown, and then the marker or
    ghost node of the event, if it has one. *)

Inductive thread_tree (this : PostPanel) : nat -> MatrixEvent -> Node -> Prop :=
| tree_tile (lvl : nat) (e : MatrixEvent) (p : TileProps)
    (children : list (list Node)) :
    mxEvent p = e -> level p = lvl ->
    thread_trees this (lvl + 1) (directSubevents this e) children ->
    thread_tree this lvl e (EventTile p children)
with thread_trees (this : PostPanel)
    : nat -> list MatrixEvent -> list (list Node) -> Prop :=
| trees_nil (lvl : nat) : thread_trees this lvl [] []
| trees_cons (lvl : nat) (e : MatrixEvent) (es : list MatrixEvent)
    (n : Node) (ns : list (list Node)) :
    thread_tree this lvl e n ->
    thread_trees this lvl es ns ->
    thread_trees this lvl (e :: es) ([n] :: ns).

Definition marker_at (this : PostPanel) (eventId : string) (nodes : list Node)
    : Prop :=
  if opt_str_eqb (readMarkerEventId (props this)) (Some eventId)
  then exists hr, nodes = [ReadMarker eventId hr]
  else if existsb (opt_str_eqb (Some eventId)) (ghostReadMarkers this)
  then nodes = [GhostReadMarker eventId]
  else nodes = [].

Inductive log_tree (this : PostPanel) : list MatrixEvent -> list Node -> Prop :=
| log_tree_nil : log_tree this [] []
| log_tree_shown (e : MatrixEvent) (evs : list MatrixEvent) (n : Node)
    (marker rest : list Node) :
    _shouldShowEvent this e = true ->
    thread_tree this 0 e n ->
    marker_at this (getId e) marker ->
    log_tree this evs rest ->
    log_tree this (e :: evs) (n :: marker ++ rest)
| log_tree_hidden (e : MatrixEvent) (evs : list MatrixEvent)
    (marker rest : list Node) :
    _shouldShowEvent this e = false ->
    marker_at this (getId e) marker ->
    log_tree this evs rest ->
    log_tree this (e :: evs) (marker ++ rest).

(** Two components that differ in their receipt caches only. *)
Definition same_view (this this0 : PostPanel) : Prop :=
  props this = props this0
  /\ ghostReadMarkers this = ghostReadMarkers this0
  /\ _showHiddenEventsInTimeline this = _showHiddenEventsInTimeline this0.

(** A chain of replies of the log, innermost first: it ends in an event
    that is not a reply, and every other event of it replies directly to
    the next one. *)
Inductive reply_chain (this : PostPanel) : list MatrixEvent -> Prop :=
| chain_root (e : MatrixEvent) :
    In e (events (props this)) -> is_reply e = false ->
    reply_chain this [e]
| chain_reply (e p : MatrixEvent) (c : list MatrixEvent) :
    reply_chain this (p :: c) -> In e (directSubevents this p) ->
    reply_chain this (e :: p :: c).

(** *** Lifecycle

    What can happen to a mounted component: React re-renders it with new
    props and then calls [componentDidUpdate] with the previous ones; a
    ghost marker finishes its transition; [render] runs [_getEventTiles]. *)

Definition set_props (this : PostPanel) (newProps : Props) : PostPanel :=
  {| props := newProps;
     ghostReadMarkers := ghostReadMarkers this;
     _readReceiptsByEvent := _readReceiptsByEvent this;
     _readReceiptsByUserId := _readReceiptsByUserId this;
     _showHiddenEventsInTimeline := _showHiddenEventsInTimeline this |}.

Inductive lifecycle_step : PostPanel -> PostPanel -> Prop :=
| step_update (this : PostPanel) (newProps : Props) :
    lifecycle_step this
      (componentDidUpdate (set_props this newProps) (props this))
| step_transition_end (this : PostPanel) (finishedEventId : string) :
    lifecycle_step this (_onGhostTransitionEnd this finishedEventId)
| step_render (fuel : nat) (this this' : PostPanel) (ret : list Node) :
    _getEventTiles fuel this = Returns (ret, this') ->
    lifecycle_step this this'.

End Component.

(** ** Sample data

    A small room used to run the definitions: two users, the local user
    [@me:hs], and a client that ignores nobody. *)

Module Sample.

Definition alice : RoomMember :=
  {| userId := "@alice:hs"; name := "Alice"; getMxcAvatarUrl := Some "mxc://hs/a" |}.

Definition me : RoomMember :=
  {| userId := "@me:hs"; name := "Me"; getMxcAvatarUrl := None |}.

Definition client : MatrixClient :=
  {| isUserIgnored := fun _ => false;
     getUserId := Some "@me:hs";
     credentials_userId := Some "@me:hs" |}.

Definition always (_ : MatrixEvent) : bool := true.
Definition never (_ : MatrixEvent) : bool := false.

(** A text message.  The sample events of a log have time stamps of their
    own, and each is an object of its own, numbered by its time stamp. *)
Definition message (id : string) (from : RoomMember) (t : Z)
    (st : option string) : MatrixEvent :=
  {| identity := Z.to_nat t;
     getId := id; getTxnId := None; sender := Some from;
     getSender := userId from; getType := "m.room.message"; getTs := t;
     isRedacted := false; status := st; getAssociatedStatus := st;
     m_relates_to := None |}.

(** A membership event: never shown by the visibility filter. *)
Definition membership (id : string) (from : RoomMember) (t : Z) : MatrixEvent :=
  {| identity := Z.to_nat t;
     getId := id; getTxnId := None; sender := Some from;
     getSender := userId from; getType := "m.room.member"; getTs := t;
     isRedacted := false; status := None; getAssociatedStatus := None;
     m_relates_to := None |}.

(** A reply to the event [parent]. *)
Definition reply (id parent : string) (from : RoomMember) (t : Z) : MatrixEvent :=
  {| identity := Z.to_nat t;
     getId := id; getTxnId := None; sender := Some from;
     getSender := userId from; getType := "m.room.message"; getTs := t;
     isRedacted := false; status := None; getAssociatedStatus := None;
     m_relates_to :=
       Some {| m_in_reply_to := Some {| event_id := Some parent |} |} |}.

Definition read_receipt (uid : string) (t : Z) : RawReceipt :=
  {| raw_userId := Some uid; raw_type := "m.read";
     raw_data := Some {| data_ts := t |} |}.

(** A room whose receipts are given by the event id. *)
Definition room_of (receipts : string -> list RawReceipt) : Room :=
  {| getReceiptsForEvent := fun e => receipts (getId e);
     getMember := fun _ => None |}.

Definition panel (evs : list MatrixEvent) (r : option Room)
    (marker : option string) (visible : bool)
    (ghosts : list (option string)) (cache : obj UserReceipt) : PostPanel :=
  {| props := {| events := evs; highlightedEventId := None; room := r;
                 readMarkerEventId := marker; readMarkerVisible := visible;
                 showReadReceipts := true |};
     ghostReadMarkers := ghosts;
     _readReceiptsByEvent := obj_empty;
     _readReceiptsByUserId := cache;
     _showHiddenEventsInTimeline := false |}.

(** The folding scenario: a shown message [$S] followed by a hidden
    membership event [$H] that carries a read receipt of Bob. *)
Definition folding_log : list MatrixEvent :=
  [message "$S" alice 10 None; membership "$H" alice 20].

Definition folding_room : Room :=
  room_of (fun id => if String.eqb id "$H" then [read_receipt "@bob:hs" 100]
                     else []).

(** A per-user cache left by an earlier render: Carol's receipt was last
    shown on [$gone], an event the log no longer has. *)
Definition carol_receipt : Receipt :=
  {| receipt_userId := "@carol:hs"; roomMember := None; ts := 50 |}.

Definition stale_cache : obj UserReceipt :=
  [("@carol:hs", {| lastShownEventId := "$gone"; receipt := carol_receipt |})].

(** A shown message whose id is the empty string, in a room that has a
    receipt of Bob on it. *)
Definition unnamed_log : list MatrixEvent := [message "" alice 10 None].

Definition unnamed_room : Room :=
  room_of (fun id => if String.eqb id "" then [read_receipt "@bob:hs" 100]
                     else []).

(** A per-user cache with an entry of a user whose id is the name of a
    method of [Object.prototype]. *)
Definition method_cache : obj UserReceipt :=
  [("toString",
    {| lastShownEventId := "$S";
       receipt := {| receipt_userId := "toString"; roomMember := None;
                     ts := 50 |} |})].

(** A log whose only event is hidden and carries the read marker. *)
Definition marker_on_hidden : PostPanel :=
  panel [membership "$H" alice 20] (Some folding_room) (Some "$H") true [] [].

(** A thread: [$S], a reply [$R] to it, then a message [$T] with the read
    marker on [$S]. *)
Definition thread_log : list MatrixEvent :=
  [message "$S" alice 10 None; reply "$R" "$S" me 20;
   message "$T" alice 30 None].

Definition thread_panel : PostPanel :=
  panel thread_log (Some folding_room) (Some "$S") true [] [].

End Sample.

(** ** Further definitions: views of the results *)

(** A raw receipt that [_getReadReceiptsForEvent] keeps: it has a user id,
    it is a read receipt, it is not the viewer's own and its user is not
    ignored. *)
Definition displayable (peg : MatrixClient) (r : RawReceipt) : bool :=
  match raw_userId r with
  | Some uid =>
      truthy uid
      && String.eqb (raw_type r) "m.read"
      && negb (opt_str_eqb (Some uid) (credentials_userId peg))
      && negb (isUserIgnored peg uid)
  | None => false
  end.

(** The receipt shown for a raw receipt of the user [uid]. *)
Definition displayed (room : Room) (uid : string) (r : RawReceipt) : Receipt :=
  {| receipt_userId := uid;
     roomMember := getMember room uid;
     ts := match raw_data r with
           | Some d => data_ts d
           | None => 0
           end |}.

(** The nodes at the top level of a render list that are not tiles: the
    read marker and its ghosts. *)
Definition marker_nodes (ret : list Node) : list Node :=
  filter (fun n => match n with
                   | EventTile _ _ => false
                   | _ => true
                   end) ret.

(** The read-marker nodes of a render list, ghosts apart. *)
Definition read_markers (ret : list Node) : list Node :=
  filter (fun n => match n with
                   | ReadMarker _ _ => true
                   | _ => false
                   end) ret.

(** The continuation flags of a sequence of shown events, each against the
    one before it; [prev] stands before the first. *)
Fixpoint continuations (haveTileForEvent : MatrixEvent -> bool)
    (prev : option MatrixEvent) (shown : list MatrixEvent) : list bool :=
  match shown with
  | [] => []
  | e :: shown' =>
      shouldFormContinuation haveTileForEvent prev e
        :: continuations haveTileForEvent (Some e) shown'
  end.

Section Recordings.
Variable peg : MatrixClient.
Variable haveTileForEvent : MatrixEvent -> bool.
Variable shouldHideEvent : MatrixEvent -> bool.

(** What the forward pass records for the users, in the order of the log:
    for each receipt of an event with a nearest preceding shown event, the
    user and the entry made of that event's id and the receipt. *)
Definition recorded (this : PostPanel) (room : Room) (evs : list MatrixEvent)
    : list (string * UserReceipt) :=
  flat_map (fun i =>
              match nth_error evs i,
                    nearest_shown peg haveTileForEvent shouldHideEvent this evs i
              with
              | Some e, Some k =>
                  if truthy k
                  then map (fun x => (receipt_userId x,
                                      {| lastShownEventId := k; receipt := x |}))
                           (receipts_for peg room e)
                  else []
              | _, _ => []
              end)
           (seq 0 (List.length evs)).
End Recordings.

(** The last entry recorded for a user. *)
Definition last_recorded (u : string) (l : list (string * UserReceipt))
    : option UserReceipt :=
  last_opt (map snd (filter (fun p => String.eqb (fst p) u) l)).

(** Every entry of a user cache has its receipt in the bucket of its
    event. *)
Definition consistent (E : obj (list Receipt)) (U : obj UserReceipt) : Prop :=
  forall u c, obj_get U u = Some c ->
    In (receipt c) (bucket E (lastShownEventId c)).

(** ** Further sample data *)

Module MoreSamples.

(** [$S] is shown and read by Bob (at 5) and Carol (at 9); the hidden [$H]
    after it is read by Dave (at 5) and then by Bob again (at 7). *)
Definition busy_room : Room :=
  Sample.room_of
    (fun id => if String.eqb id "$S"
               then [Sample.read_receipt "@bob:hs" 5;
                     Sample.read_receipt "@carol:hs" 9]
               else if String.eqb id "$H"
               then [Sample.read_receipt "@dave:hs" 5;
                     Sample.read_receipt "@bob:hs" 7]
               else []).

Definition busy_panel : PostPanel :=
  Sample.panel Sample.folding_log (Some busy_room) None false [] [].

Definition rcpt (uid : string) (t : Z) : Receipt :=
  {| receipt_userId := uid; roomMember := None; ts := t |}.

End MoreSamples.

(** * Facts about the JavaScript values and the event identity *)

Lemma opt_str_eqb_eq (a b : option string) : opt_str_eqb a b = true <-> a = b.
Proof.
  destruct a as [x|], b as [y|]; simpl; split; intro H;
    try discriminate; try reflexivity.
  - apply String.eqb_eq in H. now subst.
  - injection H as ->. apply String.eqb_refl.
Qed.

Lemma truthy_true (s : string) : truthy s = true <-> s <> "".
Proof.
  unfold truthy. rewrite negb_true_iff. split.
  - intros H ->. now rewrite String.eqb_refl in H.
  - intro H. now apply String.eqb_neq.
Qed.

Lemma includes_In (arr : list string) (x : string) :
  includes arr x = true <-> In x arr.
Proof.
  unfold includes. rewrite existsb_exists. split.
  - intros [y [Hy He]]. apply String.eqb_eq in He. now subst.
  - intro H. exists x. split; [assumption | apply String.eqb_refl].
Qed.

Lemma opt_eqb_eq {A : Type} (eqb : A -> A -> bool) :
  (forall x y, eqb x y = true <-> x = y) ->
  forall a b, opt_eqb eqb a b = true <-> a = b.
Proof.
  intros H [x|] [y|]; simpl; try (split; congruence).
  rewrite H. split; congruence.
Qed.

Lemma event_eqb_refl (a : MatrixEvent) : event_eqb a a = true.
Proof. unfold event_eqb. apply Nat.eqb_refl. Qed.

Lemma event_eqb_identity (a b : MatrixEvent) :
  event_eqb a b = true <-> identity a = identity b.
Proof. unfold event_eqb. apply Nat.eqb_eq. Qed.

(** Among the objects of a well-formed list, [===] is equality. *)
Lemma event_eqb_eq (evs : list MatrixEvent) (a b : MatrixEvent) :
  objects_wf evs -> In a evs -> In b evs ->
  (event_eqb a b = true <-> a = b).
Proof.
  intros Hwf Ha Hb. rewrite event_eqb_identity. split.
  - now apply Hwf.
  - now intros ->.
Qed.

Section IsortFacts.
Variable A : Type.
Variable le : A -> A -> bool.

Lemma insert_perm (x : A) (l : list A) : Permutation (x :: l) (insert le x l).
Proof.
  induction l as [|y l IH]; simpl.
  - apply Permutation_refl.
  - destruct (le x y).
    + apply Permutation_refl.
    + eapply perm_trans; [apply perm_swap|]. now apply perm_skip.
Qed.

Lemma isort_perm (l : list A) : Permutation l (isort le l).
Proof.
  induction l as [|x l IH]; simpl.
  - apply perm_nil.
  - eapply perm_trans; [apply perm_skip, IH | apply insert_perm].
Qed.

Lemma isort_In (l : list A) (x : A) : In x (isort le l) <-> In x l.
Proof.
  split; intro H.
  - eapply Permutation_in; [apply Permutation_sym, isort_perm | exact H].
  - eapply Permutation_in; [apply isort_perm | exact H].
Qed.

Hypothesis le_trans : forall x y z, le x y = true -> le y z = true -> le x z = true.
Hypothesis le_total : forall x y, le x y = false -> le y x = true.
Lemma insert_sorted (x : A) (l : list A) : sorted le l -> sorted le (insert le x l).
Proof.
  unfold sorted. induction l as [|y l IH]; simpl; intro Hs.
  - constructor; constructor.
  - inversion Hs as [|? ? Hl Hy]; subst.
    destruct (le x y) eqn:E.
    + constructor; [assumption|]. constructor; [assumption|].
      rewrite Forall_forall in *. intros z Hz. eauto.
    + constructor; [auto|].
      rewrite Forall_forall in *. intros z Hz.
      apply (Permutation_in _ (Permutation_sym (insert_perm x l))) in Hz.
      destruct Hz as [<-|Hz]; auto.
Qed.

Lemma isort_sorted (l : list A) : sorted le (isort le l).
Proof.
  induction l; simpl; [constructor | now apply insert_sorted].
Qed.

Lemma insert_head (x : A) (l : list A) :
  Forall (fun y => le x y = true) l -> insert le x l = x :: l.
Proof.
  destruct l as [|y l]; simpl; [reflexivity|].
  intro H. inversion H; subst. now replace (le x y) with true.
Qed.

Lemma isort_of_sorted (l : list A) : sorted le l -> isort le l = l.
Proof.
  unfold sorted. induction l as [|x l IH]; simpl; intro Hs; [reflexivity|].
  inversion Hs; subst. rewrite IH by assumption. now apply insert_head.
Qed.

Lemma filter_insert (p : A -> bool) (x : A) (l : list A) :
  sorted le l ->
  filter p (insert le x l) = if p x then insert le x (filter p l) else filter p l.
Proof.
  unfold sorted. induction l as [|y l IH]; simpl; intro Hs.
  - destruct (p x); reflexivity.
  - inversion Hs as [|? ? Hl Hy]; subst.
    destruct (le x y) eqn:E; simpl.
    + destruct (p x) eqn:Px; [|reflexivity].
      symmetry. apply insert_head.
      rewrite Forall_forall. intros z Hz.
      assert (Hin : In z (y :: l)).
      { change (In z (filter p (y :: l))) in Hz.
        apply filter_In in Hz. tauto. }
      destruct Hin as [<-|Hin]; [assumption|].
      rewrite Forall_forall in Hy. eauto.
    + rewrite (IH Hl). destruct (p y) eqn:Py, (p x) eqn:Px; simpl;
        try rewrite E; reflexivity.
Qed.

Lemma filter_isort (p : A -> bool) (l : list A) :
  filter p (isort le l) = isort le (filter p l).
Proof.
  induction l as [|x l IH]; simpl; [reflexivity|].
  rewrite filter_insert by apply isort_sorted.
  rewrite IH. destruct (p x); reflexivity.
Qed.

End IsortFacts.

Section JsObjectFacts.
Variable V : Type.

Lemma entry_le_trans (x y z : string * V) :
  entry_le x y = true -> entry_le y z = true -> entry_le x z = true.
Proof.
  unfold entry_le. rewrite !N.leb_le. apply N.le_trans.
Qed.

Lemma entry_le_total (x y : string * V) :
  entry_le x y = false -> entry_le y x = true.
Proof.
  unfold entry_le. rewrite N.leb_le, N.leb_gt. apply N.lt_le_incl.
Qed.

Lemma obj_get_In (o : obj V) (k : string) (v : V) :
  obj_get o k = Some v -> In (k, v) o.
Proof.
  induction o as [|[k' v'] o IH]; simpl; [discriminate|].
  destruct (String.eqb k k') eqn:E.
  - apply String.eqb_eq in E. subst. intros [= ->]. now left.
  - intro H. right. now apply IH.
Qed.

Lemma obj_get_None (o : obj V) (k : string) :
  obj_get o k = None <-> ~ In k (obj_keys o).
Proof.
  induction o as [|[k' v'] o IH]; simpl.
  - tauto.
  - destruct (String.eqb k k') eqn:E.
    + apply String.eqb_eq in E. subst. split; [discriminate | tauto].
    + apply String.eqb_neq in E. rewrite IH. split; [|tauto].
      intros H [H'|H']; [congruence | tauto].
Qed.

Lemma obj_has_In (o : obj V) (k : string) :
  obj_has o k = true <-> In k (obj_keys o).
Proof.
  unfold obj_has. destruct (obj_get o k) eqn:E.
  - split; [|reflexivity]. intros _.
    apply obj_get_In in E. apply (in_map fst) in E. exact E.
  - apply obj_get_None in E. split; [discriminate | tauto].
Qed.

Lemma obj_get_set_same (o : obj V) (k : string) (v : V) :
  obj_get (obj_set o k v) k = Some v.
Proof.
  induction o as [|[k' v'] o IH]; simpl.
  - now rewrite String.eqb_refl.
  - destruct (String.eqb k k') eqn:E; simpl; rewrite E; [reflexivity | exact IH].
Qed.

Lemma obj_get_set_other (o : obj V) (k k0 : string) (v : V) :
  k0 <> k -> obj_get (obj_set o k v) k0 = obj_get o k0.
Proof.
  intro Hne. induction o as [|[k' v'] o IH]; simpl.
  - apply String.eqb_neq in Hne. now rewrite Hne.
  - destruct (String.eqb k k') eqn:E; simpl.
    + apply String.eqb_eq in E. subst k'.
      apply String.eqb_neq in Hne. now rewrite Hne.
    + now rewrite IH.
Qed.

Lemma obj_set_keys (o : obj V) (k : string) (v : V) :
  obj_keys (obj_set o k v)
  = if obj_has o k then obj_keys o else obj_keys o ++ [k].
Proof.
  unfold obj_has. induction o as [|[k' v'] o IH]; simpl; [reflexivity|].
  destruct (String.eqb k k') eqn:E; simpl; [reflexivity|].
  rewrite IH. destruct (obj_get o k); reflexivity.
Qed.

Lemma obj_set_absent (o : obj V) (k : string) (v : V) :
  obj_get o k = None -> obj_set o k v = o ++ [(k, v)].
Proof.
  induction o as [|[k' v'] o IH]; simpl; [reflexivity|].
  destruct (String.eqb k k'); [discriminate|].
  intro H. now rewrite IH.
Qed.

Lemma obj_set_wf (o : obj V) (k : string) (v : V) :
  obj_wf o -> obj_wf (obj_set o k v).
Proof.
  unfold obj_wf. rewrite obj_set_keys. intro H.
  destruct (obj_has o k) eqn:E; [assumption|].
  assert (Hk : ~ In k (obj_keys o)).
  { rewrite <- obj_has_In. now rewrite E. }
  clear E. induction (obj_keys o) as [|x l IH]; simpl.
  - constructor; [intros [] | constructor].
  - inversion H; subst. constructor.
    + rewrite in_app_iff. simpl in *. intuition congruence.
    + apply IH; simpl in *; tauto.
Qed.

Lemma obj_in_key_set (o : obj V) (k k0 : string) (v : V) :
  In k0 (obj_keys (obj_set o k v)) <-> k0 = k \/ In k0 (obj_keys o).
Proof.
  rewrite obj_set_keys. destruct (obj_has o k) eqn:E.
  - apply obj_has_In in E. split; [tauto|]. intros [->|H]; assumption.
  - rewrite in_app_iff. simpl. split; [intros [H|[H|[]]] | intros [H|H]]; auto.
Qed.

Lemma obj_entries_perm (o : obj V) : Permutation o (obj_entries o).
Proof.
  unfold obj_entries.
  eapply perm_trans; [| apply Permutation_app_tail, isort_perm].
  induction o as [|e o IH]; simpl; [constructor|].
  destruct (entry_is_index e); simpl.
  - now constructor.
  - now apply Permutation_cons_app.
Qed.

Lemma obj_entries_In (o : obj V) (e : string * V) :
  In e (obj_entries o) <-> In e o.
Proof.
  split; intro H.
  - eapply Permutation_in; [apply Permutation_sym, obj_entries_perm | exact H].
  - eapply Permutation_in; [apply obj_entries_perm | exact H].
Qed.

Lemma obj_entries_wf (o : obj V) : obj_wf o -> obj_wf (obj_entries o).
Proof.
  unfold obj_wf, obj_keys. intro H.
  eapply Permutation_NoDup; [| exact H].
  apply Permutation_map, obj_entries_perm.
Qed.

Lemma js_has_unfold (o : obj V) (k : string) :
  js_has o k = obj_has o k || inherited k.
Proof.
  unfold js_has, js_get, obj_has.
  destruct (obj_get o k); [reflexivity|].
  destruct (inherited k); reflexivity.
Qed.

Lemma js_has_false (o : obj V) (k : string) :
  js_has o k = false <-> obj_get o k = None /\ inherited k = false.
Proof.
  rewrite js_has_unfold, orb_false_iff. unfold obj_has.
  destruct (obj_get o k); split; intros [H1 H2]; split; congruence.
Qed.

Lemma inherited_proto : inherited "__proto__" = true.
Proof. reflexivity. Qed.

Lemma js_set_plain (o : obj V) (k : string) (v : V) :
  inherited k = false -> js_set o k v = Returns (obj_set o k v).
Proof.
  intro H. unfold js_set. destruct (String.eqb k "__proto__") eqn:E;
    [|reflexivity].
  apply String.eqb_eq in E. subst k. discriminate H.
Qed.

End JsObjectFacts.

Lemma concat_at_unfold {A : Type} (o : obj (list A)) (k : string)
    (more : list A) :
  concat_at o k more
  = if inherited k && negb (obj_has o k) then Throws TypeError
    else Returns (bucket o k ++ more).
Proof.
  unfold concat_at, js_get, obj_has, bucket.
  destruct (obj_get o k) as [l|].
  - now rewrite andb_false_r.
  - destruct (inherited k); reflexivity.
Qed.

Lemma bind_returns_inv {A B : Type} (m : outcome A) (k : A -> outcome B)
    (b : B) :
  bind m k = Returns b -> exists a, m = Returns a /\ k a = Returns b.
Proof. destruct m as [a| | |]; simpl; try discriminate. eauto. Qed.

Lemma foldM_app {A B : Type} (f : B -> A -> outcome B) (l1 l2 : list A) (b : B) :
  foldM f (l1 ++ l2) b = bind (foldM f l1 b) (foldM f l2).
Proof.
  revert b. induction l1 as [|x l1 IH]; intro b; simpl; [reflexivity|].
  destruct (f b x) as [b'| | |]; simpl; [apply IH | | |]; reflexivity.
Qed.

(** * The continuation detector *)

(** C5.  [shouldFormContinuation prev curr] is false exactly when [prev] is
    absent, or [prev] or [curr] has no sender, or [curr] is more than five
    minutes (300000 ms) after [prev], or their redacted flags differ, or
    their types differ and one of them is not a continued type
    ([m.room.message], [m.sticker]), or the senders differ in user id,
    display name or avatar, or [prev] has no tile; it is true otherwise.
    In particular it is false for every pair more than five minutes apart. *)
Theorem shouldFormContinuation_false_iff
    (haveTileForEvent : MatrixEvent -> bool)
    (prevEvent : option MatrixEvent) (mxEvent : MatrixEvent) :
  (shouldFormContinuation haveTileForEvent prevEvent mxEvent = false <->
   (prevEvent = None \/
    exists prev, prevEvent = Some prev /\
      (sender prev = None \/ sender mxEvent = None
       \/ getTs mxEvent - getTs prev > 300000
       \/ isRedacted mxEvent <> isRedacted prev
       \/ (getType mxEvent <> getType prev
           /\ (~ In (getType mxEvent) ["m.room.message"; "m.sticker"]
               \/ ~ In (getType prev) ["m.room.message"; "m.sticker"]))
       \/ (exists s s', sender prev = Some s /\ sender mxEvent = Some s'
           /\ (userId s' <> userId s \/ name s' <> name s
               \/ getMxcAvatarUrl s' <> getMxcAvatarUrl s))
       \/ haveTileForEvent prev = false)))
  /\ (forall prev, prevEvent = Some prev ->
        getTs mxEvent - getTs prev > 300000 ->
        shouldFormContinuation haveTileForEvent prevEvent mxEvent = false).
Proof.
  assert (Hinc : forall t, includes continuedTypes t = true
                           <-> In t ["m.room.message"; "m.sticker"]).
  { intro t. rewrite includes_In. unfold continuedTypes. simpl. tauto. }
  split.
  - unfold shouldFormContinuation.
    destruct prevEvent as [prev|]; [|split; auto].
    split.
    + intro H. right. exists prev. split; [reflexivity|].
      destruct (sender prev) as [s|] eqn:Es; [|auto].
      destruct (sender mxEvent) as [s'|] eqn:Es'; [|auto].
      destruct (getTs mxEvent - getTs prev >? CONTINUATION_MAX_INTERVAL) eqn:Et.
      { right; right; left. apply Z.gtb_gt in Et.
        unfold CONTINUATION_MAX_INTERVAL in Et. lia. }
      destruct (Bool.eqb (isRedacted mxEvent) (isRedacted prev)) eqn:Er; cbn [negb andb orb] in H.
      2:{ right; right; right; left. now apply Bool.eqb_false_iff. }
      destruct (String.eqb (getType mxEvent) (getType prev)) eqn:Ety; cbn [negb andb orb] in H.
      * destruct (String.eqb (userId s') (userId s)) eqn:Eu; cbn [negb andb orb] in H.
        2:{ do 5 right; left. exists s, s'. apply String.eqb_neq in Eu. auto. }
        destruct (String.eqb (name s') (name s)) eqn:En; cbn [negb andb orb] in H.
        2:{ do 5 right; left. exists s, s'. apply String.eqb_neq in En. auto. }
        destruct (opt_str_eqb (getMxcAvatarUrl s') (getMxcAvatarUrl s)) eqn:Ea;
          cbn [negb andb orb] in H.
        2:{ do 5 right; left. exists s, s'. repeat split; auto.
            right; right. intro Heq. apply opt_str_eqb_eq in Heq. congruence. }
        do 6 right. destruct (haveTileForEvent prev); [cbn [negb andb orb] in H; discriminate | reflexivity].
      * apply String.eqb_neq in Ety.
        destruct (includes continuedTypes (getType mxEvent)) eqn:I1; cbn [negb andb orb] in H.
        2:{ do 4 right; left. split; [assumption|]. left.
            rewrite <- Hinc. congruence. }
        destruct (includes continuedTypes (getType prev)) eqn:I2; cbn [negb andb orb] in H.
        2:{ do 4 right; left. split; [assumption|]. right.
            rewrite <- Hinc. congruence. }
        destruct (String.eqb (userId s') (userId s)) eqn:Eu; cbn [negb andb orb] in H.
        2:{ do 5 right; left. exists s, s'. apply String.eqb_neq in Eu. auto. }
        destruct (String.eqb (name s') (name s)) eqn:En; cbn [negb andb orb] in H.
        2:{ do 5 right; left. exists s, s'. apply String.eqb_neq in En. auto. }
        destruct (opt_str_eqb (getMxcAvatarUrl s') (getMxcAvatarUrl s)) eqn:Ea;
          cbn [negb andb orb] in H.
        2:{ do 5 right; left. exists s, s'. repeat split; auto.
            right; right. intro Heq. apply opt_str_eqb_eq in Heq. congruence. }
        do 6 right. destruct (haveTileForEvent prev); [cbn [negb andb orb] in H; discriminate | reflexivity].
    + intros [H|[p [Hp H]]]; [discriminate|].
      injection Hp as Hp. subst p.
      destruct (sender prev) as [s|] eqn:Es; [|reflexivity].
      destruct (sender mxEvent) as [s'|] eqn:Es'; [|reflexivity].
      destruct (getTs mxEvent - getTs prev >? CONTINUATION_MAX_INTERVAL) eqn:Et;
        [reflexivity|].
      destruct (Bool.eqb (isRedacted mxEvent) (isRedacted prev)) eqn:Er;
        [|reflexivity].
      cbn [negb].
      destruct (negb (String.eqb (getType mxEvent) (getType prev))
                && (negb (includes continuedTypes (getType mxEvent))
                    || negb (includes continuedTypes (getType prev)))) eqn:Ety;
        [reflexivity|].
      destruct (negb (String.eqb (userId s') (userId s))
                || negb (String.eqb (name s') (name s))
                || negb (opt_str_eqb (getMxcAvatarUrl s') (getMxcAvatarUrl s)))
        eqn:Eid; [reflexivity|].
      destruct (haveTileForEvent prev) eqn:Eh; [|reflexivity].
      exfalso.
      apply Bool.eqb_prop in Er.
      apply orb_false_iff in Eid. destruct Eid as [Eid Ea].
      apply orb_false_iff in Eid. destruct Eid as [Eu En].
      apply negb_false_iff in Eu, En, Ea.
      apply String.eqb_eq in Eu, En. apply opt_str_eqb_eq in Ea.
      assert (Hgt : ~ getTs mxEvent - getTs prev > 300000).
      { intro Hgt. apply Z.gtb_gt in Hgt.
        unfold CONTINUATION_MAX_INTERVAL in Et. change (5 * 60 * 1000) with 300000 in Et. congruence. }
      destruct H as [H|[H|[H|[H|[H|[H|H]]]]]]; try congruence; try tauto.
      * destruct H as [Hty Hin].
        apply String.eqb_neq in Hty. rewrite Hty in Ety. cbn [negb andb] in Ety.
        apply orb_false_iff in Ety. destruct Ety as [I1 I2].
        apply negb_false_iff in I1, I2. rewrite Hinc in I1, I2. tauto.
      * destruct H as [t [t' [Ht [Ht' Hd]]]].
        assert (t = s) by congruence. assert (t' = s') by congruence. subst.
        tauto.
  - intros prev -> Hgt. unfold shouldFormContinuation.
    destruct (sender prev); [|reflexivity].
    destruct (sender mxEvent); [|reflexivity].
    replace (getTs mxEvent - getTs prev >? CONTINUATION_MAX_INTERVAL) with true;
      [reflexivity|].
    symmetry. apply Z.gtb_gt. unfold CONTINUATION_MAX_INTERVAL. lia.
Qed.

(** The scenario of the specification: a message of the same sender one
    minute later continues the previous one; 400 seconds later it does
    not. *)
Lemma shouldFormContinuation_false_iff_witness :
  shouldFormContinuation Sample.always
    (Some (Sample.message "$A" Sample.alice 0 None))
    (Sample.message "$B" Sample.alice 60000 None) = true
  /\ shouldFormContinuation Sample.always
       (Some (Sample.message "$A" Sample.alice 0 None))
       (Sample.message "$C" Sample.alice 400000 None) = false.
Proof.
  split; [reflexivity|].
  apply (proj2 (shouldFormContinuation_false_iff Sample.always
           (Some (Sample.message "$A" Sample.alice 0 None))
           (Sample.message "$C" Sample.alice 400000 None))
         (Sample.message "$A" Sample.alice 0 None)).
  - reflexivity.
  - simpl. lia.
Defined.

(** * The read-marker lifecycle *)

Lemma count_occ_filter_neq (finished : option string) (l : list (option string))
    (x : option string) :
  x <> finished ->
  count_occ opt_str_dec
    (filter (fun eid => negb (opt_str_eqb eid finished)) l) x
  = count_occ opt_str_dec l x.
Proof.
  intro Hne. induction l as [|y l IH]; simpl; [reflexivity|].
  destruct (opt_str_eqb y finished) eqn:E; simpl.
  - apply opt_str_eqb_eq in E. subst y.
    destruct (opt_str_dec finished x); [congruence | exact IH].
  - destruct (opt_str_dec y x); now rewrite IH.
Qed.

Lemma getReadReceiptsByShownEvent_ghosts peg haveTile shouldHide
    (this this' : PostPanel) (m : obj (list Receipt)) :
  _getReadReceiptsByShownEvent peg haveTile shouldHide this = Returns (m, this') ->
  ghostReadMarkers this' = ghostReadMarkers this /\ props this' = props this
  /\ _showHiddenEventsInTimeline this' = _showHiddenEventsInTimeline this.
Proof.
  unfold _getReadReceiptsByShownEvent.
  destruct (forward_pass _ _ _ _ _ _) as [st| | |]; simpl; try discriminate.
  destruct (fallback_pass _ _) as [[byEvent byUser]| | |]; simpl;
    try discriminate.
  intros [= <- <-]. auto.
Qed.

Lemma getEventTiles_ghosts peg haveTile shouldHide (fuel : nat)
    (this this' : PostPanel) (ret : list Node) :
  _getEventTiles peg haveTile shouldHide fuel this = Returns (ret, this') ->
  ghostReadMarkers this' = ghostReadMarkers this.
Proof.
  unfold _getEventTiles.
  destruct (reverse_scan _ _ _ _ _ _) as [lastShownEvent idx].
  destruct (showReadReceipts (props (set_readReceiptsByEvent this obj_empty))).
  - destruct (_getReadReceiptsByShownEvent _ _ _ _) as [[m t]| | |] eqn:E;
      simpl; try discriminate.
    apply getReadReceiptsByShownEvent_ghosts in E. destruct E as [E _].
    destruct (tiles_loop _ _ _ _ _ _ _ _ _ _) as [st| | |]; simpl; try discriminate.
    intros [= _ <-]. simpl. exact E.
  - simpl.
    destruct (tiles_loop _ _ _ _ _ _ _ _ _ _) as [st| | |]; simpl; try discriminate.
    intros [= _ <-]. reflexivity.
Qed.

Lemma count_occ_filter_eq (finished : option string) (l : list (option string)) :
  count_occ opt_str_dec
    (filter (fun eid => negb (opt_str_eqb eid finished)) l) finished = 0%nat.
Proof.
  apply count_occ_not_In. rewrite filter_In. intros [_ H].
  apply negb_true_iff in H.
  assert (opt_str_eqb finished finished = true) by now apply opt_str_eqb_eq.
  congruence.
Qed.

Lemma lifecycle_step_ghost_added peg haveTile shouldHide
    (this this' : PostPanel) (id : option string) :
  lifecycle_step peg haveTile shouldHide this this' ->
  (count_occ opt_str_dec (ghostReadMarkers this) id
   < count_occ opt_str_dec (ghostReadMarkers this') id)%nat ->
  readMarkerVisible (props this) = true
  /\ readMarkerEventId (props this) = id
  /\ readMarkerEventId (props this') <> id
  /\ count_occ opt_str_dec (ghostReadMarkers this') id
     = S (count_occ opt_str_dec (ghostReadMarkers this) id).
Proof.
  intros Hstep Hlt. inversion Hstep; subst; clear Hstep.
  - unfold componentDidUpdate in *. cbn [props set_props readMarkerEventId] in *.
    destruct (readMarkerVisible (props this)
              && negb (opt_str_eqb (readMarkerEventId newProps)
                                   (readMarkerEventId (props this)))) eqn:E;
      cbn [ghostReadMarkers set_props props] in *; [|lia].
    apply andb_true_iff in E. destruct E as [Ev E].
    apply negb_true_iff in E.
    rewrite count_occ_app in *. cbn [count_occ] in *.
    destruct (opt_str_dec (readMarkerEventId (props this)) id) as [<-|]; [|lia].
    repeat split; [assumption | | lia].
    intro Heq. apply opt_str_eqb_eq in Heq. congruence.
  - cbn [ghostReadMarkers _onGhostTransitionEnd] in Hlt.
    destruct (opt_str_dec id (Some finishedEventId)) as [->|Hne].
    + rewrite count_occ_filter_eq in Hlt. lia.
    + rewrite count_occ_filter_neq in Hlt by assumption. lia.
  - apply getEventTiles_ghosts in H. rewrite H in Hlt. lia.
Qed.

(** C6.  When the read-marker event id of the props changes while the
    previous marker was visible, [componentDidUpdate] appends the previous
    id to the ghost markers, once; in every other case it leaves them as
    they are.  A completed transition for an id removes every ghost equal to
    it and keeps the number of occurrences of every other ghost.  And over
    all steps of the lifecycle, the only step that adds a ghost is such a
    move of a visible marker away from that id, which adds it once. *)
Theorem ghost_lifecycle peg haveTile shouldHide (this : PostPanel) :
  (forall prevProps,
     readMarkerVisible prevProps = true ->
     readMarkerEventId (props this) <> readMarkerEventId prevProps ->
     ghostReadMarkers (componentDidUpdate this prevProps)
     = ghostReadMarkers this ++ [readMarkerEventId prevProps])
  /\ (forall prevProps,
        readMarkerVisible prevProps = false
        \/ readMarkerEventId (props this) = readMarkerEventId prevProps ->
        componentDidUpdate this prevProps = this)
  /\ (forall finished,
        ~ In (Some finished)
             (ghostReadMarkers (_onGhostTransitionEnd this finished))
        /\ forall other, other <> Some finished ->
             count_occ opt_str_dec
               (ghostReadMarkers (_onGhostTransitionEnd this finished)) other
             = count_occ opt_str_dec (ghostReadMarkers this) other)
  /\ (forall this' id,
        lifecycle_step peg haveTile shouldHide this this' ->
        (count_occ opt_str_dec (ghostReadMarkers this) id
         < count_occ opt_str_dec (ghostReadMarkers this') id)%nat ->
        readMarkerVisible (props this) = true
        /\ readMarkerEventId (props this) = id
        /\ readMarkerEventId (props this') <> id
        /\ count_occ opt_str_dec (ghostReadMarkers this') id
           = S (count_occ opt_str_dec (ghostReadMarkers this) id)).
Proof.
  repeat split.
  - intros prevProps Hv Hne. unfold componentDidUpdate. rewrite Hv.
    destruct (opt_str_eqb _ _) eqn:E; [|reflexivity].
    apply opt_str_eqb_eq in E. contradiction.
  - intros prevProps [Hv|He]; unfold componentDidUpdate.
    + now rewrite Hv.
    + apply opt_str_eqb_eq in He. rewrite He.
      now rewrite andb_false_r.
  - apply (count_occ_not_In opt_str_dec). apply count_occ_filter_eq.
  - intros other Hne. simpl. now apply count_occ_filter_neq.
  - eapply lifecycle_step_ghost_added; eassumption.
  - eapply lifecycle_step_ghost_added; eassumption.
  - eapply lifecycle_step_ghost_added; eassumption.
  - eapply lifecycle_step_ghost_added; eassumption.
Qed.

(** The marker moves from [$A], where it was visible, to [$B]: [$A] becomes
    a ghost, and that step is a move away from [$A]. *)
Lemma ghost_lifecycle_witness :
  ghostReadMarkers
    (componentDidUpdate (Sample.panel [] None (Some "$B") true [] [])
       (props (Sample.panel [] None (Some "$A") true [] [])))
  = [Some "$A"]
  /\ readMarkerEventId (props (Sample.panel [] None (Some "$A") true [] []))
     = Some "$A".
Proof.
  split.
  - apply (proj1 (ghost_lifecycle Sample.client Sample.always Sample.never
                    (Sample.panel [] None (Some "$B") true [] []))
                 (props (Sample.panel [] None (Some "$A") true [] []))).
    + reflexivity.
    + simpl. discriminate.
  - apply (proj2 (proj2 (proj2
             (ghost_lifecycle Sample.client Sample.always Sample.never
                (Sample.panel [] None (Some "$A") true [] []))))
             (componentDidUpdate
                (set_props (Sample.panel [] None (Some "$A") true [] [])
                   (props (Sample.panel [] None (Some "$B") true [] [])))
                (props (Sample.panel [] None (Some "$A") true [] [])))
             (Some "$A")).
    + apply step_update.
    + vm_compute. lia.
Defined.

(** * The last-successful flag *)

Lemma opt_event_eqb_refl (a : option MatrixEvent) : opt_eqb event_eqb a a = true.
Proof. destruct a as [a|]; [apply event_eqb_refl | reflexivity]. Qed.

Lemma find_skipn_shown (f : MatrixEvent -> bool) (arr : list MatrixEvent)
    (i : nat) (e : MatrixEvent) :
  nth_error arr i = Some e -> f e = true -> find f (skipn i arr) = Some e.
Proof.
  revert arr. induction i as [|i IH]; intros [|x arr]; simpl; try discriminate.
  - intros [= ->] ->. reflexivity.
  - apply IH.
Qed.

Lemma nth_error_middle (pre post : list MatrixEvent) (e : MatrixEvent) :
  nth_error (pre ++ e :: post) (List.length pre) = Some e.
Proof. induction pre; simpl; auto. Qed.

(** The look-ahead when the next event of the log is shown. *)
Lemma getNextEventInfo_shown peg haveTile shouldHide (this : PostPanel)
    (arr : list MatrixEvent) (i : nat) (e : MatrixEvent) :
  nth_error arr (i + 1) = Some e ->
  _shouldShowEvent peg haveTile shouldHide this e = true ->
  _getNextEventInfo peg haveTile shouldHide this arr i = (Some e, Some e).
Proof.
  intros Hn Hs. unfold _getNextEventInfo.
  rewrite (find_skipn_shown _ _ _ e Hn Hs).
  assert (Hlt : (i + 1 < List.length arr)%nat).
  { apply nth_error_Some. congruence. }
  replace (Z.of_nat i <? Z.of_nat (List.length arr) - 1) with true
    by (symmetry; apply Z.ltb_lt; lia).
  now rewrite Hn.
Qed.

Lemma find_shown (f : MatrixEvent -> bool) (l : list MatrixEvent) (t : MatrixEvent) :
  find f l = Some t -> f t = true.
Proof. intro H. now apply find_some in H. Qed.

Lemma skipn_nth_error_cons (arr : list MatrixEvent) (i : nat) :
  skipn i arr = match nth_error arr i with
                | Some e => e :: skipn (S i) arr
                | None => []
                end.
Proof.
  revert arr. induction i as [|i IH]; intros [|x arr]; simpl; try reflexivity.
  apply IH.
Qed.

Lemma In_skipn {A : Type} (n : nat) (l : list A) (x : A) :
  In x (skipn n l) -> In x l.
Proof.
  intro H. rewrite <- (firstn_skipn n l). apply in_or_app. now right.
Qed.

(** In a log of well-formed objects the flag only depends on the next shown
    event, wherever it is: it holds for a sent event of the local user that
    no shown event follows, or whose next shown event is not yet sent. *)
Lemma lastSuccessfulAt_next_shown peg haveTile shouldHide (this : PostPanel)
    (i : nat) (mxEv : MatrixEvent) :
  objects_wf (events (props this)) ->
  nth_error (events (props this)) i = Some mxEv ->
  lastSuccessfulAt peg haveTile shouldHide this i
  = Some (isSentState (getAssociatedStatus mxEv)
          && match find (_shouldShowEvent peg haveTile shouldHide this)
                        (skipn (i + 1) (events (props this))) with
             | Some t => negb (isSentState (getAssociatedStatus t))
             | None => true
             end
          && opt_str_eqb (Some (getSender mxEv)) (getUserId peg)).
Proof.
  intros Hwf Hi. unfold lastSuccessfulAt, _getNextEventInfo. rewrite Hi.
  f_equal. unfold isLastSuccessful.
  set (arr := events (props this)) in *.
  assert (Hskip : forall t, In t (skipn (S (i + 1)) arr) -> In t arr).
  { intro t. apply In_skipn. }
  rewrite (skipn_nth_error_cons arr (i + 1)).
  destruct (nth_error arr (i + 1)) as [n|] eqn:En.
  - assert (Hlt : (i + 1 < List.length arr)%nat).
    { apply nth_error_Some. congruence. }
    replace (Z.of_nat i <? Z.of_nat (List.length arr) - 1) with true
      by (symmetry; apply Z.ltb_lt; lia).
    cbn [find].
    destruct (_shouldShowEvent peg haveTile shouldHide this n) eqn:Es.
    + rewrite (opt_event_eqb_refl (Some n)).
      cbn [negb andb].
      destruct (isSentState (getAssociatedStatus mxEv)),
        (isSentState (getAssociatedStatus n)); reflexivity.
    + destruct (find _ _) as [t|] eqn:Ef.
      * assert (Hne : opt_eqb event_eqb (Some t) (Some n) = false).
        { cbn [opt_eqb]. destruct (event_eqb t n) eqn:E; [|reflexivity].
          apply find_some in Ef. destruct Ef as [Hin Hs].
          apply (event_eqb_eq arr) in E;
            [congruence | assumption | now apply Hskip |].
          eapply nth_error_In. exact En. }
        rewrite Hne. cbn [negb andb].
        destruct (isSentState (getAssociatedStatus mxEv)),
          (isSentState (getAssociatedStatus t)); reflexivity.
      * cbn [negb andb].
        destruct (isSentState (getAssociatedStatus mxEv)); reflexivity.
  - destruct (Z.of_nat i <? Z.of_nat (List.length arr) - 1); cbn [find negb andb];
      destruct (isSentState (getAssociatedStatus mxEv)); reflexivity.
Qed.

(** The flag [_getTilesForEvent] computes, as a condition on the event, the
    next event and the next event with a tile. *)
Lemma isLastSuccessful_iff peg haveTile shouldHide (this : PostPanel)
    (mxEv : MatrixEvent) (nextEvent nextEventWithTile : option MatrixEvent) :
  isLastSuccessful peg haveTile shouldHide this mxEv nextEvent
                   nextEventWithTile = true <->
  (Some (getSender mxEv) = getUserId peg
   /\ isSentState (getAssociatedStatus mxEv) = true
   /\ ((forall n, nextEvent = Some n ->
          _shouldShowEvent peg haveTile shouldHide this n = false)
       \/ (exists n, nextEvent = Some n
             /\ _shouldShowEvent peg haveTile shouldHide this n = true
             /\ isSentState (getAssociatedStatus n) = false))
   /\ (forall t, nextEventWithTile = Some t ->
         opt_eqb event_eqb (Some t) nextEvent = false ->
         isSentState (getAssociatedStatus t) = false)).
Proof.
  unfold isLastSuccessful. rewrite andb_true_iff, opt_str_eqb_eq.
  destruct (isSentState (getAssociatedStatus mxEv)) eqn:Esent.
  2:{ rewrite !andb_false_r.
      split; [|intros [_ [H _]]; discriminate].
      intros [H _]. destruct nextEventWithTile as [t|]; [|discriminate].
      destruct (negb _ && _); discriminate. }
  rewrite !andb_true_r.
  assert (Hbase :
    (if negb match nextEvent with
             | Some e => _shouldShowEvent peg haveTile shouldHide this e
             | None => false
             end
     then true
     else if match nextEvent with
             | Some e => _shouldShowEvent peg haveTile shouldHide this e
             | None => false
             end
             && negb match nextEvent with
                     | Some e => isSentState (getAssociatedStatus e)
                     | None => false
                     end
          then true else false) = true
    <-> ((forall n, nextEvent = Some n ->
            _shouldShowEvent peg haveTile shouldHide this n = false)
         \/ (exists n, nextEvent = Some n
               /\ _shouldShowEvent peg haveTile shouldHide this n = true
               /\ isSentState (getAssociatedStatus n) = false))).
  { destruct nextEvent as [n|]; cbn [negb andb].
    - destruct (_shouldShowEvent peg haveTile shouldHide this n) eqn:Es;
        cbn [negb andb].
      + destruct (isSentState (getAssociatedStatus n)) eqn:En; cbn [negb].
        * split; [discriminate|].
          intros [H|[n' [[= <-] [_ H]]]]; [|congruence].
          specialize (H n eq_refl). congruence.
        * split; [|reflexivity]. intros _. right. exists n. auto.
      + split; [|reflexivity]. intros _. left. intros n' [= <-]. assumption.
    - split; [|reflexivity]. intros _. left. intros n' H. discriminate. }
  destruct nextEventWithTile as [t|].
  - destruct (opt_eqb event_eqb (Some t) nextEvent) eqn:Eid; cbn [negb andb].
    + rewrite Hbase. split.
      * intros [H Hme]. repeat split; try assumption.
        intros t' [= <-] Hne. congruence.
      * intros [Hme [_ [H _]]]. auto.
    + destruct (isSentState (getAssociatedStatus t)) eqn:Et.
      * split; [intros [H _]; discriminate|].
        intros [_ [_ [_ H]]]. specialize (H t eq_refl Eid). congruence.
      * rewrite Hbase. split.
        -- intros [H Hme]. repeat split; try assumption.
           intros t' [= <-] _. assumption.
        -- intros [Hme [_ [H _]]]. auto.
  - rewrite Hbase. split.
    + intros [H Hme]. repeat split; try assumption.
      intros t' H'. discriminate.
    + intros [Hme [_ [H _]]]. auto.
Qed.

(** The flag of an event made without look-ahead. *)
Lemma isLastSuccessful_alone peg haveTile shouldHide (this : PostPanel)
    (e : MatrixEvent) :
  isLastSuccessful peg haveTile shouldHide this e None None
  = isSentState (getAssociatedStatus e)
    && opt_str_eqb (Some (getSender e)) (getUserId peg).
Proof.
  unfold isLastSuccessful. cbn [negb andb].
  destruct (isSentState (getAssociatedStatus e)); reflexivity.
Qed.

(** In a log, for a run of three shown events of the local user whose
    statuses are sent, sent, not sent, the flags the loop computes are
    false, true, false. *)
Lemma lastSuccessfulAt_run peg haveTile shouldHide (this : PostPanel)
    (pre post : list MatrixEvent) (e1 e2 e3 : MatrixEvent) :
  events (props this) = pre ++ e1 :: e2 :: e3 :: post ->
  (forall e, In e [e1; e2; e3] ->
     _shouldShowEvent peg haveTile shouldHide this e = true
     /\ Some (getSender e) = getUserId peg) ->
  isSentState (getAssociatedStatus e1) = true ->
  isSentState (getAssociatedStatus e2) = true ->
  isSentState (getAssociatedStatus e3) = false ->
  nth_error (events (props this)) (List.length pre) = Some e1
  /\ nth_error (events (props this)) (List.length pre + 1) = Some e2
  /\ nth_error (events (props this)) (List.length pre + 2) = Some e3
  /\ lastSuccessfulAt peg haveTile shouldHide this (List.length pre)
     = Some false
  /\ lastSuccessfulAt peg haveTile shouldHide this (List.length pre + 1)
     = Some true
  /\ lastSuccessfulAt peg haveTile shouldHide this (List.length pre + 2)
     = Some false.
Proof.
  intros Hev Hall S1 S2 S3.
  assert (H1 := Hall e1 (or_introl eq_refl)).
  assert (H2 := Hall e2 (or_intror (or_introl eq_refl))).
  assert (H3 := Hall e3 (or_intror (or_intror (or_introl eq_refl)))).
  destruct H1 as [Sh1 Me1], H2 as [Sh2 Me2], H3 as [Sh3 Me3].
  assert (N1 : nth_error (events (props this)) (List.length pre) = Some e1).
  { rewrite Hev. apply nth_error_middle. }
  assert (N2 : nth_error (events (props this)) (List.length pre + 1) = Some e2).
  { rewrite Hev.
    replace (pre ++ e1 :: e2 :: e3 :: post)
      with ((pre ++ [e1]) ++ e2 :: e3 :: post)
      by (rewrite <- app_assoc; reflexivity).
    replace (List.length pre + 1)%nat with (List.length (pre ++ [e1]))
      by (rewrite length_app; reflexivity).
    apply nth_error_middle. }
  assert (N3 : nth_error (events (props this)) (List.length pre + 1 + 1)
               = Some e3).
  { rewrite Hev.
    replace (pre ++ e1 :: e2 :: e3 :: post)
      with ((pre ++ [e1; e2]) ++ e3 :: post)
      by (rewrite <- app_assoc; reflexivity).
    replace (List.length pre + 1 + 1)%nat with (List.length (pre ++ [e1; e2]))
      by (rewrite length_app; simpl; lia).
    apply nth_error_middle. }
  replace (List.length pre + 2)%nat with (List.length pre + 1 + 1)%nat by lia.
  split; [exact N1|]. split; [exact N2|]. split; [exact N3|].
  unfold lastSuccessfulAt. repeat split.
  - rewrite N1.
    rewrite (getNextEventInfo_shown _ _ _ _ _ _ e2 N2 Sh2).
    unfold isLastSuccessful. rewrite Sh2, S1, S2.
    rewrite (opt_event_eqb_refl (Some e2)).
    reflexivity.
  - rewrite N2.
    rewrite (getNextEventInfo_shown _ _ _ _ _ _ e3 N3 Sh3).
    unfold isLastSuccessful. rewrite Sh3, S2, S3.
    rewrite (opt_event_eqb_refl (Some e3)).
    cbn [negb andb]. f_equal. now apply opt_str_eqb_eq.
  - rewrite N3.
    destruct (_getNextEventInfo _ _ _ _ _ _) as [n t].
    unfold isLastSuccessful. rewrite S3. rewrite !andb_false_r.
    destruct t as [t|]; [destruct (negb _ && _)|]; reflexivity.
Qed.

(** * The receipt aggregation *)

Section Aggregation.
Variable peg : MatrixClient.
Variable haveTile : MatrixEvent -> bool.
Variable shouldHide : MatrixEvent -> bool.
Variable this : PostPanel.

Local Abbreviation show := (_shouldShowEvent peg haveTile shouldHide this).
Local Abbreviation fwd := (forward_pass peg haveTile shouldHide this).
Local Abbreviation step := (forward_step peg haveTile shouldHide this).
Local Abbreviation nearest := (nearest peg haveTile shouldHide this).
Local Abbreviation from_proto :=
  (fun x : Receipt => String.eqb (receipt_userId x) "__proto__").

Lemma forward_pass_app (a b : list MatrixEvent) (st : AggState) :
  fwd (a ++ b) st = bind (fwd a st) (fwd b).
Proof.
  revert st. induction a as [|e a IH]; intro st; simpl; [reflexivity|].
  destruct (step st e) as [st'| | |]; simpl; [apply IH | | |]; reflexivity.
Qed.

Lemma getReadReceiptsForEvent_room (r : Room) (e : MatrixEvent) :
  room (props this) = Some r ->
  _getReadReceiptsForEvent peg this e = Some (receipts_for peg r e).
Proof. intro H. unfold _getReadReceiptsForEvent. now rewrite H. Qed.

(** The inner loop records every receipt, unless one is from the user
    [__proto__]. *)
Lemma record_receipts_unfold (id : string) (rs : list Receipt)
    (U : obj UserReceipt) :
  foldM (record_receipt id) rs U
  = if existsb from_proto rs then Unsupported
    else Returns (record_all id rs U).
Proof.
  unfold record_all. revert U. induction rs as [|x rs IH]; intro U;
    cbn [foldM existsb fold_left]; [reflexivity|].
  unfold record_receipt at 1, js_set.
  destruct (String.eqb (receipt_userId x) "__proto__"); cbn [bind orb];
    [reflexivity | apply IH].
Qed.

Lemma from_proto_none (rs : list Receipt) :
  existsb from_proto rs = false
  <-> forall x, In x rs -> receipt_userId x <> "__proto__".
Proof.
  split.
  - intros H x Hx Hp.
    assert (existsb from_proto rs = true); [|congruence].
    apply existsb_exists. exists x. split; [exact Hx|].
    now apply String.eqb_eq.
  - intro H. destruct (existsb from_proto rs) eqn:E; [|reflexivity].
    apply existsb_exists in E. destruct E as [x [Hx Hp]].
    apply String.eqb_eq in Hp. now destruct (H x Hx).
Qed.

(** One iteration of the forward loop, with a room. *)
Lemma forward_step_room (r : Room) (st : AggState) (e : MatrixEvent) :
  room (props this) = Some r ->
  step st e
  = match (if show e then Some (getId e) else lastShown st) with
    | None =>
        Returns {| receiptsByEvent := receiptsByEvent st;
                   receiptsByUserId := receiptsByUserId st;
                   lastShown := None |}
    | Some id =>
        if negb (truthy id)
        then Returns {| receiptsByEvent := receiptsByEvent st;
                        receiptsByUserId := receiptsByUserId st;
                        lastShown := Some id |}
        else if inherited id && negb (obj_has (receiptsByEvent st) id)
        then Throws TypeError
        else if existsb from_proto (receipts_for peg r e)
        then Unsupported
        else Returns
               {| receiptsByEvent :=
                    obj_set (receiptsByEvent st) id
                      (bucket (receiptsByEvent st) id ++ receipts_for peg r e);
                  receiptsByUserId :=
                    record_all id (receipts_for peg r e) (receiptsByUserId st);
                  lastShown := Some id |}
    end.
Proof.
  intro Hr. unfold forward_step.
  rewrite (getReadReceiptsForEvent_room r e Hr).
  destruct (if show e then Some (getId e) else lastShown st) as [id|];
    [|reflexivity].
  destruct (negb (truthy id)); [reflexivity|].
  rewrite concat_at_unfold, record_receipts_unfold.
  destruct (inherited id && negb (obj_has (receiptsByEvent st) id));
    [reflexivity|].
  cbn [bind]. destruct (existsb _ _); reflexivity.
Qed.

(** One iteration of the forward loop, without a room. *)
Lemma forward_step_no_room (st : AggState) (e : MatrixEvent) :
  room (props this) = None ->
  step st e
  = match (if show e then Some (getId e) else lastShown st) with
    | None =>
        Returns {| receiptsByEvent := receiptsByEvent st;
                   receiptsByUserId := receiptsByUserId st;
                   lastShown := None |}
    | Some id =>
        if negb (truthy id)
        then Returns {| receiptsByEvent := receiptsByEvent st;
                        receiptsByUserId := receiptsByUserId st;
                        lastShown := Some id |}
        else Throws TypeError
    end.
Proof.
  intro Hr. unfold forward_step, _getReadReceiptsForEvent. rewrite Hr.
  destruct (if show e then Some (getId e) else lastShown st) as [id|];
    reflexivity.
Qed.

(** An iteration that returns. *)
Lemma forward_step_inv (st st' : AggState) (e : MatrixEvent) :
  step st e = Returns st' ->
  lastShown st' = (if show e then Some (getId e) else lastShown st)
  /\ ((truthy_opt (lastShown st') = false
       /\ receiptsByEvent st' = receiptsByEvent st
       /\ receiptsByUserId st' = receiptsByUserId st)
      \/ exists id r,
           lastShown st' = Some id /\ truthy id = true
           /\ room (props this) = Some r
           /\ (inherited id = false \/ obj_has (receiptsByEvent st) id = true)
           /\ existsb from_proto (receipts_for peg r e) = false
           /\ receiptsByEvent st'
              = obj_set (receiptsByEvent st) id
                  (bucket (receiptsByEvent st) id ++ receipts_for peg r e)
           /\ receiptsByUserId st'
              = record_all id (receipts_for peg r e) (receiptsByUserId st)).
Proof.
  destruct (room (props this)) as [r|] eqn:Hr.
  - rewrite (forward_step_room r st e Hr).
    destruct (if show e then Some (getId e) else lastShown st) as [id|].
    + destruct (truthy id) eqn:Et; cbn [negb].
      * destruct (inherited id && negb (obj_has (receiptsByEvent st) id))
          eqn:Ei; [discriminate|].
        destruct (existsb _ _) eqn:Ep; [discriminate|].
        intros [= <-]. cbn. split; [reflexivity|]. right.
        exists id, r. repeat split; try assumption.
        apply andb_false_iff in Ei. destruct Ei as [Ei|Ei]; [now left|].
        right. now apply negb_false_iff in Ei.
      * intros [= <-]. cbn. rewrite Et. auto.
    + intros [= <-]. cbn. auto.
  - rewrite (forward_step_no_room st e Hr).
    destruct (if show e then Some (getId e) else lastShown st) as [id|].
    + destruct (truthy id) eqn:Et; cbn [negb]; [discriminate|].
      intros [= <-]. cbn. rewrite Et. auto.
    + intros [= <-]. cbn. auto.
Qed.

(** With a room and plain keys the forward pass returns. *)
Lemma forward_pass_returns (r : Room) (evs : list MatrixEvent) (st : AggState) :
  room (props this) = Some r ->
  (forall e, In e evs -> show e = true -> inherited (getId e) = false) ->
  (forall e x, In e evs -> In x (receipts_for peg r e) ->
     receipt_userId x <> "__proto__") ->
  (forall k, lastShown st = Some k -> inherited k = false) ->
  exists st', fwd evs st = Returns st'.
Proof.
  intro Hr. revert st.
  induction evs as [|e evs IH]; intros st Hids Husers Hlast; simpl.
  - now exists st.
  - rewrite (forward_step_room r st e Hr).
    assert (Hcur : forall id,
              (if show e then Some (getId e) else lastShown st) = Some id ->
              inherited id = false).
    { intros id. destruct (show e) eqn:Es.
      - intros [= <-]. apply Hids; [now left | assumption].
      - apply Hlast. }
    assert (Hids' : forall e', In e' evs -> show e' = true ->
              inherited (getId e') = false).
    { intros e' He'. apply Hids. now right. }
    assert (Husers' : forall e' x, In e' evs -> In x (receipts_for peg r e') ->
              receipt_userId x <> "__proto__").
    { intros e' x He'. apply Husers. now right. }
    destruct (if show e then Some (getId e) else lastShown st) as [id|].
    + destruct (negb (truthy id)); simpl.
      * apply IH; [assumption | assumption | exact Hcur].
      * rewrite (Hcur id eq_refl). cbn [andb].
        replace (existsb from_proto (receipts_for peg r e)) with false.
        -- simpl. apply IH; [assumption | assumption | exact Hcur].
        -- symmetry. apply from_proto_none. intros x Hx.
           apply (Husers e x); [now left | assumption].
    + simpl. apply IH; [assumption | assumption | discriminate].
Qed.

Lemma last_opt_snoc {A : Type} (l : list A) (x : A) : last_opt (l ++ [x]) = Some x.
Proof. unfold last_opt. now rewrite rev_app_distr. Qed.

Lemma nearest_snoc (pre : list MatrixEvent) (e : MatrixEvent) :
  nearest (pre ++ [e]) = if show e then Some (getId e) else nearest pre.
Proof.
  unfold nearest. rewrite filter_app. simpl.
  destruct (show e).
  - now rewrite last_opt_snoc.
  - now rewrite app_nil_r.
Qed.

Lemma nearest_shown_last (evs : list MatrixEvent) (i : nat) :
  (List.length evs <= S i)%nat ->
  nearest_shown peg haveTile shouldHide this evs i = nearest evs.
Proof.
  intro H. unfold nearest_shown, nearest. now rewrite firstn_all2.
Qed.

Lemma nearest_shown_app (pre post : list MatrixEvent) (i : nat) :
  (i < List.length pre)%nat ->
  nearest_shown peg haveTile shouldHide this (pre ++ post) i
  = nearest_shown peg haveTile shouldHide this pre i.
Proof.
  intro H. unfold nearest_shown. rewrite firstn_app.
  replace (S i - List.length pre)%nat with 0%nat by lia.
  simpl. now rewrite app_nil_r.
Qed.

Lemma folded_receipts_snoc (r : Room) (pre : list MatrixEvent) (e : MatrixEvent)
    (k : string) :
  folded_receipts peg haveTile shouldHide this r (pre ++ [e]) k
  = folded_receipts peg haveTile shouldHide this r pre k
    ++ (if opt_str_eqb (nearest (pre ++ [e])) (Some k)
        then receipts_for peg r e else []).
Proof.
  unfold folded_receipts. rewrite length_app. simpl.
  rewrite Nat.add_1_r, seq_S, flat_map_app. simpl. f_equal.
  - rewrite !flat_map_concat_map. f_equal. apply map_ext_in.
    intros i Hi. apply in_seq in Hi.
    rewrite nth_error_app1 by lia.
    rewrite nearest_shown_app by lia. reflexivity.
  - rewrite nth_error_app2 by lia. rewrite Nat.sub_diag. simpl.
    rewrite nearest_shown_last by (rewrite length_app; simpl; lia).
    now rewrite app_nil_r.
Qed.

Lemma bucket_set_same {A : Type} (o : obj (list A)) (k : string) (v : list A) :
  bucket (obj_set o k v) k = v.
Proof. unfold bucket. now rewrite obj_get_set_same. Qed.

Lemma bucket_set_other {A : Type} (o : obj (list A)) (k k0 : string) (v : list A) :
  k0 <> k -> bucket (obj_set o k v) k0 = bucket o k0.
Proof. intro H. unfold bucket. now rewrite obj_get_set_other. Qed.

(** The forward pass over a log and one more event. *)
Lemma forward_pass_snoc_inv (pre : list MatrixEvent) (e : MatrixEvent)
    (st0 st : AggState) :
  fwd (pre ++ [e]) st0 = Returns st ->
  exists st1, fwd pre st0 = Returns st1 /\ step st1 e = Returns st.
Proof.
  rewrite forward_pass_app. intro H. apply bind_returns_inv in H.
  destruct H as [st1 [H1 H2]]. exists st1. split; [exact H1|].
  cbn [forward_pass] in H2. apply bind_returns_inv in H2.
  destruct H2 as [st2 [H2 [= <-]]]. exact H2.
Qed.

(** The state of a forward pass that returns, after a prefix of the log:
    the last shown event id, and in each bucket the receipts folded onto
    that id.  The guard [!lastShownEventId] also skips a shown event whose
    id is empty. *)
Lemma forward_pass_folds (r : Room) (evs : list MatrixEvent) (st : AggState) :
  room (props this) = Some r ->
  fwd evs initial_agg = Returns st ->
  lastShown st = nearest evs
  /\ forall k, bucket (receiptsByEvent st) k
               = if truthy k
                 then folded_receipts peg haveTile shouldHide this r evs k
                 else [].
Proof.
  intro Hr. revert st. induction evs as [|e pre IH] using rev_ind; intros st Hst.
  - injection Hst as <-. repeat split. intro k. now destruct (truthy k).
  - apply forward_pass_snoc_inv in Hst. destruct Hst as [st0 [Hst0 Hstep]].
    destruct (IH st0 Hst0) as [Hlast Hb]. clear IH.
    apply forward_step_inv in Hstep. destruct Hstep as [Hcur Hcases].
    rewrite Hlast, <- nearest_snoc in Hcur.
    split; [exact Hcur|].
    intro k. rewrite folded_receipts_snoc, <- Hcur.
    destruct Hcases as [[Hf [HE _]]|[id [r' [Hid [Ht [Hr' [_ [_ [HE _]]]]]]]]].
    + rewrite HE, Hb. destruct (truthy k) eqn:Etk; [|reflexivity].
      destruct (opt_str_eqb (lastShown st) (Some k)) eqn:Ek;
        [|now rewrite app_nil_r].
      apply opt_str_eqb_eq in Ek. rewrite Ek in Hf. simpl in Hf. congruence.
    + assert (r' = r) by congruence. subst r'.
      rewrite HE, Hid. cbn [opt_str_eqb].
      destruct (String.eqb id k) eqn:Ek.
      * apply String.eqb_eq in Ek. subst k.
        rewrite bucket_set_same, Hb, Ht. reflexivity.
      * apply String.eqb_neq in Ek.
        rewrite bucket_set_other by congruence.
        rewrite Hb, app_nil_r. reflexivity.
Qed.

(** Hidden events at the head of the log leave no trace. *)
Lemma forward_pass_hidden_prefix (pre rest : list MatrixEvent) :
  (forall e, In e pre -> show e = false) ->
  fwd (pre ++ rest) initial_agg = fwd rest initial_agg.
Proof.
  intro Hh. induction pre as [|e pre IH]; simpl; [reflexivity|].
  unfold forward_step at 1. rewrite (Hh e (or_introl eq_refl)). simpl.
  apply IH. intros e' He'. apply Hh. now right.
Qed.

Lemma record_receipts_keys (id : string) (rs : list Receipt) (U : obj UserReceipt)
    (u : string) :
  In u (obj_keys (record_all id rs U))
  <-> In u (obj_keys U) \/ exists r0, In r0 rs /\ receipt_userId r0 = u.
Proof.
  unfold record_all. revert U. induction rs as [|r0 rs IH]; intro U; simpl.
  - split; [auto | intros [H|[r0 [[] _]]]; exact H].
  - rewrite IH. rewrite obj_in_key_set. split.
    + intros [[->|H]|[r1 [H1 H2]]]; eauto.
    + intros [H|[r1 [[<-|H1] H2]]]; eauto.
Qed.

Lemma record_receipts_wf (id : string) (rs : list Receipt) (U : obj UserReceipt) :
  obj_wf U -> obj_wf (record_all id rs U).
Proof.
  unfold record_all. revert U. induction rs as [|r0 rs IH]; intro U; simpl;
    [auto|].
  intro H. apply IH. now apply obj_set_wf.
Qed.

(** Keys of the forward pass: an event bucket belongs to a shown event of
    the log (or to the id the pass started from), a user entry to a user
    with a receipt on an event of the log. *)
Lemma forward_pass_keys (evs : list MatrixEvent) (st st' : AggState) :
  fwd evs st = Returns st' ->
  (forall k, In k (obj_keys (receiptsByEvent st')) ->
     In k (obj_keys (receiptsByEvent st)) \/ lastShown st = Some k
     \/ exists e, In e evs /\ show e = true /\ getId e = k)
  /\ (forall u, In u (obj_keys (receiptsByUserId st')) ->
        In u (obj_keys (receiptsByUserId st))
        \/ exists e rs r0, In e evs
             /\ _getReadReceiptsForEvent peg this e = Some rs
             /\ In r0 rs /\ receipt_userId r0 = u)
  /\ (obj_wf (receiptsByUserId st) -> obj_wf (receiptsByUserId st')).
Proof.
  revert st. induction evs as [|e evs IH]; intro st; simpl.
  - intros [= <-]. auto.
  - intro H. apply bind_returns_inv in H. destruct H as [st1 [E1 H]].
    destruct (IH st1 H) as [IHk [IHu IHw]]. clear IH H.
    apply forward_step_inv in E1. destruct E1 as [Hcur Hcases].
    assert (Hlast : forall id, lastShown st1 = Some id ->
              lastShown st = Some id
              \/ exists e', In e' (e :: evs) /\ show e' = true /\ getId e' = id).
    { intros id Hid. rewrite Hcur in Hid. destruct (show e) eqn:Es.
      - injection Hid as <-. right. exists e. split; [now left | auto].
      - now left. }
    assert (Hin : forall k, (exists e', In e' evs /\ show e' = true /\ getId e' = k) ->
              exists e', In e' (e :: evs) /\ show e' = true /\ getId e' = k).
    { intros k [e' [H1 H2]]. exists e'. split; [now right | assumption]. }
    assert (Hinu : forall u,
              (exists e' rs r0, In e' evs
                 /\ _getReadReceiptsForEvent peg this e' = Some rs
                 /\ In r0 rs /\ receipt_userId r0 = u) ->
              exists e' rs r0, In e' (e :: evs)
                 /\ _getReadReceiptsForEvent peg this e' = Some rs
                 /\ In r0 rs /\ receipt_userId r0 = u).
    { intros u [e' [rs [r0 [H1 H2]]]]. exists e', rs, r0.
      split; [now right | assumption]. }
    destruct Hcases as [[_ [HE HU]]|[id [r [Hid [_ [Hr [_ [_ [HE HU]]]]]]]]];
      rewrite HE, HU in *.
    + repeat split.
      * intros k Hk.
        destruct (IHk k Hk) as [H|[H|H]];
          [auto | destruct (Hlast k H); auto | auto].
      * intros u Hu. destruct (IHu u Hu) as [H|H]; auto.
      * assumption.
    + repeat split.
      * intros k Hk.
        destruct (IHk k Hk) as [H|[H|H]];
          [|destruct (Hlast k H); auto | auto].
        apply obj_in_key_set in H. destruct H as [->|H]; [|auto].
        destruct (Hlast id Hid); auto.
      * intros u Hu. destruct (IHu u Hu) as [H|H]; auto.
        apply record_receipts_keys in H.
        destruct H as [H|[r0 [H1 H2]]]; [auto|].
        right. exists e, (receipts_for peg r e), r0.
        split; [now left|]. split; [|auto].
        now apply getReadReceiptsForEvent_room.
      * intro Hw. apply IHw. now apply record_receipts_wf.
Qed.

(** A forward pass from the empty state makes no bucket and no user entry
    under a key [__proto__], and no bucket under another name of a property
    of [Object.prototype]. *)
Lemma forward_pass_plain (evs : list MatrixEvent) (st st' : AggState) :
  fwd evs st = Returns st' ->
  (forall k, obj_has (receiptsByEvent st) k = true -> inherited k = false) ->
  (forall k, obj_has (receiptsByEvent st') k = true -> inherited k = false).
Proof.
  revert st. induction evs as [|e evs IH]; intro st; simpl.
  - intros [= <-]. auto.
  - intro H. apply bind_returns_inv in H. destruct H as [st1 [E1 H]].
    intro Hst. apply (IH st1 H). clear IH H.
    apply forward_step_inv in E1. destruct E1 as [_ Hcases].
    destruct Hcases as [[_ [HE _]]|[id [r [_ [_ [_ [Hi [_ [HE _]]]]]]]]];
      rewrite HE; [exact Hst|].
    intros k Hk. apply obj_has_In in Hk. apply obj_in_key_set in Hk.
    destruct Hk as [->|Hk].
    + destruct Hi as [Hi|Hi]; [exact Hi | now apply Hst].
    + apply Hst. now apply obj_has_In.
Qed.

Lemma user_receipt_eta (c : UserReceipt) :
  {| lastShownEventId := lastShownEventId c; receipt := receipt c |} = c.
Proof. now destruct c. Qed.

Lemma fallback_step_unfold (E : obj (list Receipt)) (U : obj UserReceipt)
    (u : string) (c : UserReceipt) :
  fallback_step (E, U) (u, c)
  = if js_has U u then Returns (E, U)
    else if inherited (lastShownEventId c)
            && negb (obj_has E (lastShownEventId c))
    then Throws TypeError
    else Returns (obj_set E (lastShownEventId c)
                    (bucket E (lastShownEventId c) ++ [receipt c]),
                  obj_set U u c).
Proof.
  unfold fallback_step. destruct (js_has U u) eqn:Eh; [reflexivity|].
  apply js_has_false in Eh. destruct Eh as [_ Eh].
  rewrite concat_at_unfold.
  destruct (inherited (lastShownEventId c)
            && negb (obj_has E (lastShownEventId c))); [reflexivity|].
  cbn [bind]. rewrite (js_set_plain _ U u _ Eh). cbn [bind].
  now rewrite user_receipt_eta.
Qed.

Lemma bucket_set_In {A : Type} (o : obj (list A)) (k k0 : string) (x y : A) :
  In x (bucket o k0) -> In x (bucket (obj_set o k (bucket o k ++ [y])) k0).
Proof.
  intro H. destruct (string_dec k0 k) as [->|Hne].
  - rewrite bucket_set_same, in_app_iff. now left.
  - now rewrite bucket_set_other.
Qed.

(** What a pass over the previous cache that returns keeps and adds. *)
Lemma fallback_fold_facts (L : list (string * UserReceipt))
    (E E' : obj (list Receipt)) (U U' : obj UserReceipt) :
  foldM fallback_step L (E, U) = Returns (E', U') ->
  (forall k, In k (obj_keys E') ->
     In k (obj_keys E)
     \/ exists u c, In (u, c) L /\ js_has U u = false
                    /\ lastShownEventId c = k)
  /\ (forall u, In u (obj_keys U) -> In u (obj_keys U'))
  /\ (forall u c, In (u, c) L -> inherited u = false -> In u (obj_keys U'))
  /\ (forall u v, obj_get U u = Some v -> obj_get U' u = Some v)
  /\ (forall k x, In x (bucket E k) -> In x (bucket E' k))
  /\ (obj_wf U -> obj_wf U')
  /\ (forall u, In u (obj_keys U') ->
        In u (obj_keys U) \/ (inherited u = false /\ In u (map fst L))).
Proof.
  revert E U. induction L as [|[u0 c0] L IH]; intros E U; cbn [foldM].
  - intros [= <- <-]. repeat split; auto. intros u c [].
  - rewrite fallback_step_unfold.
    destruct (js_has U u0) eqn:Eh.
    + cbn [bind]. intro H.
      destruct (IH _ _ H) as [Hk [Hm [Hl [Hg [Hb [Hw Hn]]]]]].
      repeat split; auto.
      * intros k Hin. destruct (Hk k Hin) as [?|[u [c [H1 H2]]]]; [auto|].
        right. exists u, c. split; [now right | assumption].
      * intros u c [[= -> ->]|Hin] Hi; [|eauto].
        apply Hm. apply obj_has_In.
        rewrite js_has_unfold, Hi, orb_false_r in Eh. exact Eh.
      * intros u Hu. destruct (Hn u Hu) as [?|[H1 H2]]; [auto|].
        right. split; [assumption | now right].
    + destruct (inherited (lastShownEventId c0)
                && negb (obj_has E (lastShownEventId c0))); [discriminate|].
      cbn [bind]. intro H.
      destruct (IH _ _ H) as [Hk [Hm [Hl [Hg [Hb [Hw Hn]]]]]].
      assert (Hf := proj1 (js_has_false _ U u0) Eh). destruct Hf as [Hf Hi0].
      assert (Hnot : ~ In u0 (obj_keys U)) by now apply obj_get_None.
      repeat split.
      * intros k Hin. destruct (Hk k Hin) as [Hin'|[u [c [H1 [H2 H3]]]]].
        -- apply obj_in_key_set in Hin'. destruct Hin' as [->|?]; [|auto].
           right. exists u0, c0. split; [now left | auto].
        -- right. exists u, c. split; [now right|]. split; [|assumption].
           apply js_has_false in H2. destruct H2 as [H2 H2'].
           apply js_has_false. split; [|assumption].
           destruct (string_dec u u0) as [->|Hne]; [assumption|].
           now rewrite obj_get_set_other in H2.
      * intros u Hu. apply Hm. apply obj_in_key_set. auto.
      * intros u c [[= -> ->]|Hin] Hi; [|eauto].
        apply Hm. apply obj_in_key_set. auto.
      * intros u v Hu. apply Hg. rewrite obj_get_set_other; [assumption|].
        intros ->. congruence.
      * intros k x Hx. apply Hb. now apply bucket_set_In.
      * intro HwU. apply Hw. now apply obj_set_wf.
      * intros u Hu. destruct (Hn u Hu) as [H1|[H1 H2]].
        -- apply obj_in_key_set in H1. destruct H1 as [->|H1]; [|now left].
           right. split; [assumption | now left].
        -- right. split; [assumption | now right].
Qed.

(** A cached entry whose user the current pass did not record, and whose
    user id names no property of [Object.prototype], is put back as it was,
    in the user cache and in the bucket of its event. *)
Lemma fallback_fold_carries (L : list (string * UserReceipt))
    (E E' : obj (list Receipt)) (U U' : obj UserReceipt)
    (u : string) (c : UserReceipt) :
  NoDup (map fst L) ->
  In (u, c) L ->
  js_has U u = false ->
  foldM fallback_step L (E, U) = Returns (E', U') ->
  obj_get U' u = Some c /\ In (receipt c) (bucket E' (lastShownEventId c)).
Proof.
  revert E U. induction L as [|[u0 c0] L IH]; intros E U Hnd Hin Hnot;
    cbn [foldM].
  - destruct Hin.
  - inversion Hnd as [|? ? Hu0 Hnd']; subst.
    rewrite fallback_step_unfold.
    destruct Hin as [[= -> ->]|Hin].
    + rewrite Hnot.
      destruct (inherited (lastShownEventId c)
                && negb (obj_has E (lastShownEventId c))); [discriminate|].
      cbn [bind]. intro H.
      destruct (fallback_fold_facts _ _ _ _ _ H) as [_ [_ [_ [Hg [Hb _]]]]].
      split.
      * apply Hg. apply obj_get_set_same.
      * apply Hb. rewrite bucket_set_same, in_app_iff. right. now left.
    + assert (Hne : u <> u0).
      { intros ->. apply Hu0. apply (in_map fst) in Hin. exact Hin. }
      destruct (js_has U u0); [now apply IH|].
      destruct (inherited (lastShownEventId c0)
                && negb (obj_has E (lastShownEventId c0))); [discriminate|].
      cbn [bind]. apply IH; [assumption | assumption |].
      apply js_has_false in Hnot. destruct Hnot as [H1 H2].
      apply js_has_false. split; [|assumption].
      now rewrite obj_get_set_other.
Qed.

(** A cached entry whose user id names a property of [Object.prototype] is
    not put back, unless the current pass recorded that user. *)
Lemma fallback_fold_drops (L : list (string * UserReceipt))
    (E E' : obj (list Receipt)) (U U' : obj UserReceipt) (u : string) :
  inherited u = true ->
  foldM fallback_step L (E, U) = Returns (E', U') ->
  obj_get U' u = obj_get U u.
Proof.
  intro Hi. revert E U. induction L as [|[u0 c0] L IH]; intros E U; cbn [foldM].
  - intros [= <- <-]. reflexivity.
  - rewrite fallback_step_unfold.
    destruct (js_has U u0) eqn:Eh; [apply IH|].
    destruct (inherited (lastShownEventId c0)
              && negb (obj_has E (lastShownEventId c0))); [discriminate|].
    cbn [bind]. intro H. rewrite (IH _ _ H).
    apply obj_get_set_other. intros ->.
    apply js_has_false in Eh. destruct Eh as [_ Eh]. congruence.
Qed.

Lemma filter_not_has_set (U : obj UserReceipt) (u : string) (c : UserReceipt)
    (L : list (string * UserReceipt)) :
  ~ In u (map fst L) ->
  filter (fun e => negb (js_has (obj_set U u c) (fst e))) L
  = filter (fun e => negb (js_has U (fst e))) L.
Proof.
  intro Hnot. apply filter_ext_in. intros [u' c'] Hin. simpl.
  assert (Hne : u' <> u).
  { intros ->. apply Hnot. apply (in_map fst) in Hin. exact Hin. }
  rewrite !js_has_unfold. unfold obj_has. now rewrite obj_get_set_other.
Qed.

(** The pass over the previous cache only depends on the entries of users
    the current pass did not record, and appends them to the user cache. *)
Lemma fallback_fold_filter (L : list (string * UserReceipt))
    (E : obj (list Receipt)) (U : obj UserReceipt) :
  NoDup (map fst L) ->
  foldM fallback_step L (E, U)
  = foldM fallback_step (filter (fun e => negb (js_has U (fst e))) L) (E, U)
  /\ forall E' U',
       foldM fallback_step L (E, U) = Returns (E', U') ->
       U' = U ++ filter (fun e => negb (js_has U (fst e))) L.
Proof.
  revert E U. induction L as [|[u0 c0] L IH]; intros E U Hnd;
    cbn [foldM filter fst snd].
  - split; [reflexivity|]. intros E' U' [= <- <-]. now rewrite app_nil_r.
  - inversion Hnd as [|? ? Hu0 Hnd']; subst.
    destruct (js_has U u0) eqn:Eh; cbn [negb foldM].
    + rewrite fallback_step_unfold, Eh. cbn [bind]. now apply IH.
    + rewrite fallback_step_unfold, Eh.
      destruct (inherited (lastShownEventId c0)
                && negb (obj_has E (lastShownEventId c0))); cbn [bind].
      * split; [reflexivity | discriminate].
      * destruct (IH (obj_set E (lastShownEventId c0)
                        (bucket E (lastShownEventId c0) ++ [receipt c0]))
                     (obj_set U u0 c0) Hnd') as [IH1 IH2].
        rewrite filter_not_has_set in IH1, IH2 by assumption.
        split; [exact IH1|].
        intros E' U' H. rewrite (IH2 E' U' H). rewrite obj_set_absent.
        -- now rewrite <- app_assoc.
        -- apply js_has_false in Eh. tauto.
Qed.

(** With no inherited name among the cached event ids, the pass over the
    previous cache returns. *)
Lemma fallback_fold_returns (L : list (string * UserReceipt))
    (E : obj (list Receipt)) (U : obj UserReceipt) :
  (forall u c, In (u, c) L -> inherited (lastShownEventId c) = false) ->
  exists r, foldM fallback_step L (E, U) = Returns r.
Proof.
  revert E U. induction L as [|[u0 c0] L IH]; intros E U H; cbn [foldM].
  - eauto.
  - rewrite fallback_step_unfold.
    destruct (js_has U u0); cbn [bind].
    + apply IH. intros u c Hin. apply (H u c). now right.
    + rewrite (H u0 c0 (or_introl eq_refl)). cbn [andb bind].
      apply IH. intros u c Hin. apply (H u c). now right.
Qed.

End Aggregation.

(** ** Enumeration order and filtering *)

Section EntriesFilter.
Variable V : Type.

Lemma filter_comm {A : Type} (p q : A -> bool) (l : list A) :
  filter p (filter q l) = filter q (filter p l).
Proof.
  induction l as [|x l IH]; simpl; [reflexivity|].
  destruct (q x) eqn:Q, (p x) eqn:P; simpl; rewrite ?Q, ?P, IH; reflexivity.
Qed.

Lemma filter_none {A : Type} (p : A -> bool) (l : list A) :
  (forall x, In x l -> p x = false) -> filter p l = [].
Proof.
  induction l as [|x l IH]; simpl; intro H; [reflexivity|].
  rewrite (H x (or_introl eq_refl)). apply IH. auto.
Qed.

Lemma filter_all {A : Type} (p : A -> bool) (l : list A) :
  (forall x, In x l -> p x = true) -> filter p l = l.
Proof.
  induction l as [|x l IH]; simpl; intro H; [reflexivity|].
  rewrite (H x (or_introl eq_refl)). f_equal. apply IH. auto.
Qed.

Lemma filter_idem {A : Type} (p : A -> bool) (l : list A) :
  filter p (filter p l) = filter p l.
Proof.
  apply filter_all. intros x Hx. apply filter_In in Hx. tauto.
Qed.

Local Abbreviation idx := (@entry_is_index V).
Local Abbreviation nidx := (fun e : string * V => negb (entry_is_index e)).
Local Abbreviation le := (@entry_le V).

Lemma filter_idx_nidx (l : list (string * V)) : filter idx (filter nidx l) = [].
Proof.
  apply filter_none. intros x Hx. apply filter_In in Hx.
  destruct Hx as [_ Hx]. now apply negb_true_iff in Hx.
Qed.

Lemma filter_nidx_idx (l : list (string * V)) : filter nidx (filter idx l) = [].
Proof.
  apply filter_none. intros x Hx. apply filter_In in Hx.
  destruct Hx as [_ Hx]. now rewrite Hx.
Qed.

Lemma filter_isort_le (p : string * V -> bool) (l : list (string * V)) :
  filter p (isort le l) = isort le (filter p l).
Proof.
  apply filter_isort; [apply entry_le_trans | apply entry_le_total].
Qed.

(** Entries appended after [F] in enumeration order are enumerated again in
    the same order, as long as they are told apart from those of [F]. *)
Lemma obj_entries_filter_stable (p : string * V -> bool) (F P0 : obj V) :
  (forall x, In x F -> p x = false) ->
  filter p (obj_entries (F ++ filter p (obj_entries P0)))
  = filter p (obj_entries P0).
Proof.
  intro HF. unfold obj_entries.
  set (S := isort le (filter idx P0)).
  set (N := filter nidx P0).
  assert (HS : isort le S = S).
  { apply isort_of_sorted.
    apply isort_sorted; [apply entry_le_trans | apply entry_le_total]. }
  assert (HSi : filter idx S = S).
  { unfold S. rewrite filter_isort_le. now rewrite filter_idem. }
  assert (HSn : filter nidx S = []).
  { unfold S. rewrite filter_isort_le, filter_nidx_idx. reflexivity. }
  assert (HNi : filter idx N = []) by apply filter_idx_nidx.
  assert (HNn : filter nidx N = N) by apply filter_idem.
  assert (HpF : filter p F = []) by now apply filter_none.
  rewrite !filter_app. f_equal.
  - rewrite filter_isort_le, !filter_app.
    rewrite (filter_comm p idx F), HpF. cbn [filter app].
    rewrite (filter_comm idx p S), (filter_comm idx p N), HSi, HNi.
    cbn [filter]. rewrite app_nil_r, filter_idem.
    rewrite <- filter_isort_le. now rewrite HS.
  - rewrite (filter_comm p nidx F), HpF. cbn [filter app].
    rewrite (filter_comm nidx p S), (filter_comm nidx p N), HSn, HNn.
    cbn [filter app]. now rewrite filter_idem.
Qed.
End EntriesFilter.

(** ** The aggregation as a whole *)

Section Aggregate.
Variable peg : MatrixClient.
Variable haveTile : MatrixEvent -> bool.
Variable shouldHide : MatrixEvent -> bool.

Local Abbreviation show := (_shouldShowEvent peg haveTile shouldHide).
Local Abbreviation fwd := (forward_pass peg haveTile shouldHide).
Local Abbreviation aggregate := (_getReadReceiptsByShownEvent peg haveTile shouldHide).

Lemma sort_buckets_keys (E : obj (list Receipt)) :
  obj_keys (sort_buckets E) = obj_keys E.
Proof.
  unfold sort_buckets, obj_keys. rewrite map_map. reflexivity.
Qed.

Lemma sort_buckets_get (E : obj (list Receipt)) (k : string) :
  obj_get (sort_buckets E) k = option_map (isort receipt_le) (obj_get E k).
Proof.
  induction E as [|[k' v] E IH]; simpl; [reflexivity|].
  destruct (String.eqb k k'); [reflexivity | exact IH].
Qed.

Lemma sort_buckets_In (E : obj (list Receipt)) (k : string) (x : Receipt) :
  In x (bucket (sort_buckets E) k) <-> In x (bucket E k).
Proof.
  unfold bucket. rewrite sort_buckets_get.
  destruct (obj_get E k); simpl; [apply isort_In | tauto].
Qed.

Lemma bucket_sort_buckets (E : obj (list Receipt)) (k : string) :
  bucket (sort_buckets E) k = isort receipt_le (bucket E k).
Proof.
  unfold bucket. rewrite sort_buckets_get.
  destruct (obj_get E k); reflexivity.
Qed.

(** The visibility filter and the forward pass read the props and the
    hidden-events setting of the component, not its caches. *)
Lemma shouldShowEvent_same (this this' : PostPanel) (e : MatrixEvent) :
  props this' = props this ->
  _showHiddenEventsInTimeline this' = _showHiddenEventsInTimeline this ->
  show this' e = show this e.
Proof. intros Hp Hs. unfold _shouldShowEvent. now rewrite Hp, Hs. Qed.

Lemma forward_pass_same (this this' : PostPanel) (evs : list MatrixEvent)
    (st : AggState) :
  props this' = props this ->
  _showHiddenEventsInTimeline this' = _showHiddenEventsInTimeline this ->
  fwd this' evs st = fwd this evs st.
Proof.
  intros Hp Hs. revert st. induction evs as [|e evs IH]; intro st; simpl;
    [reflexivity|].
  replace (forward_step peg haveTile shouldHide this' st e)
    with (forward_step peg haveTile shouldHide this st e).
  - destruct (forward_step peg haveTile shouldHide this st e); simpl;
      [apply IH | | |]; reflexivity.
  - unfold forward_step, _getReadReceiptsForEvent.
    now rewrite (shouldShowEvent_same this this' e Hp Hs), Hp.
Qed.

Lemma plain_keys_same (this this' : PostPanel) (r : Room) :
  props this' = props this ->
  _showHiddenEventsInTimeline this' = _showHiddenEventsInTimeline this ->
  _readReceiptsByUserId this' = _readReceiptsByUserId this ->
  plain_keys peg haveTile shouldHide this r ->
  plain_keys peg haveTile shouldHide this' r.
Proof.
  intros Hp Hs Hu [H1 [H2 H3]]. unfold plain_keys, plain_cache in *.
  rewrite Hp, Hu.
  repeat split; try assumption.
  intros e Hin He. apply H1; [assumption|].
  now rewrite <- (shouldShowEvent_same this this' e Hp Hs).
Qed.

(** The three passes of a run that returns. *)
Lemma aggregate_returns_inv (this this' : PostPanel) (m : obj (list Receipt)) :
  aggregate this = Returns (m, this') ->
  exists st E' U',
    fwd this (events (props this)) initial_agg = Returns st
    /\ fallback_pass (_readReceiptsByUserId this)
                     (receiptsByEvent st, receiptsByUserId st)
       = Returns (E', U')
    /\ m = sort_buckets E'
    /\ this' = {| props := props this;
                  ghostReadMarkers := ghostReadMarkers this;
                  _readReceiptsByEvent := _readReceiptsByEvent this;
                  _readReceiptsByUserId := U';
                  _showHiddenEventsInTimeline :=
                    _showHiddenEventsInTimeline this |}.
Proof.
  unfold _getReadReceiptsByShownEvent.
  destruct (fwd this (events (props this)) initial_agg) as [st| | |];
    simpl; try discriminate.
  destruct (fallback_pass _ _) as [[E' U']| | |] eqn:Ef; simpl;
    try discriminate.
  intros [= <- <-]. exists st, E', U'. auto.
Qed.

(** With a room and plain keys the aggregation returns. *)
Lemma aggregate_total (this : PostPanel) (r : Room) :
  room (props this) = Some r ->
  plain_keys peg haveTile shouldHide this r ->
  exists m this', aggregate this = Returns (m, this').
Proof.
  intros Hr [Hids [Husers Hcache]]. unfold _getReadReceiptsByShownEvent.
  destruct (forward_pass_returns peg haveTile shouldHide this r
              (events (props this)) initial_agg Hr Hids Husers)
    as [st Hst]; [discriminate|].
  rewrite Hst. cbn [bind]. unfold fallback_pass.
  destruct (fallback_fold_returns (obj_entries (_readReceiptsByUserId this))
              (receiptsByEvent st) (receiptsByUserId st)) as [[E' U'] Hf].
  - intros u c Hin. apply (Hcache u c).
    exact (proj1 (obj_entries_In _ _ _) Hin).
  - rewrite Hf. cbn [bind]. eauto.
Qed.

(** Without a room the forward pass throws at the first event it reaches
    with a last shown event id. *)
Lemma forward_pass_no_room (this : PostPanel) (evs : list MatrixEvent)
    (st : AggState) :
  room (props this) = None ->
  (exists e, In e evs /\ show this e = true /\ getId e <> "") ->
  fwd this evs st = Throws TypeError.
Proof.
  intros Hr. revert st. induction evs as [|e0 evs IH]; intros st [e [Hin [Hs Hid]]].
  - destruct Hin.
  - simpl. rewrite (forward_step_no_room peg haveTile shouldHide this st e0 Hr).
    destruct (show this e0) eqn:Es0.
    + destruct (truthy (getId e0)) eqn:Et; simpl; [reflexivity|].
      apply IH. destruct Hin as [->|Hin]; [|eauto].
      apply truthy_true in Hid. congruence.
    + assert (Hin' : In e evs) by (destruct Hin as [->|Hin]; [congruence | assumption]).
      destruct (lastShown st) as [id|];
        [destruct (negb (truthy id)) |]; simpl; try reflexivity;
        apply IH; eauto.
Qed.

(** Without a room the forward pass goes through the events that are hidden
    or have no id as long as it has no last shown event id. *)
Lemma forward_pass_no_room_returns (this : PostPanel) (evs : list MatrixEvent)
    (st : AggState) :
  room (props this) = None ->
  truthy_opt (lastShown st) = false ->
  (forall e, In e evs -> show this e = true -> getId e = "") ->
  exists st', fwd this evs st = Returns st'.
Proof.
  intro Hr. revert st. induction evs as [|e evs IH]; intros st Hl Hall; simpl.
  - eauto.
  - rewrite (forward_step_no_room peg haveTile shouldHide this st e Hr).
    assert (Hall' : forall e', In e' evs -> show this e' = true -> getId e' = "").
    { intros e' He'. apply Hall. now right. }
    destruct (show this e) eqn:Es.
    + rewrite (Hall e (or_introl eq_refl) Es). simpl.
      apply IH; [reflexivity | assumption].
    + destruct (lastShown st) as [id|] eqn:El.
      * simpl in Hl. rewrite Hl. simpl. apply IH; [|assumption].
        simpl. exact Hl.
      * simpl. apply IH; [reflexivity | assumption].
Qed.
End Aggregate.

(** C10 as stated fails.  Without a room, a log whose only event is shown
    and has the empty string for id does not make the aggregation throw:
    the guard [!lastShownEventId] skips the event before the receipts are
    asked for. *)
Lemma no_room_counterexample :
  ~ (room (props (Sample.panel Sample.unnamed_log None None false [] [])) = None ->
     (exists e,
        In e (events (props (Sample.panel Sample.unnamed_log None None false
                               [] [])))
        /\ _shouldShowEvent Sample.client Sample.always Sample.never
             (Sample.panel Sample.unnamed_log None None false [] []) e = true) ->
     _getReadReceiptsByShownEvent Sample.client Sample.always Sample.never
       (Sample.panel Sample.unnamed_log None None false [] [])
     = Throws TypeError).
Proof.
  intro H.
  assert (Hthrows := H eq_refl
            (ex_intro _ (Sample.message "" Sample.alice 10 None)
               (conj (or_introl eq_refl) eq_refl))).
  discriminate Hthrows.
Qed.

(** C10, amended.  Without a room [_getReadReceiptsForEvent] returns [null]
    for every event, and the aggregation throws whenever an event of the log
    is shown and has a non-empty id; then [_getEventTiles] throws too when
    read receipts are to be shown.  When every shown event has the empty id
    the aggregation returns without a room, as long as no event id of the
    previous per-user cache names a property of [Object.prototype]; so with
    such a cache it throws exactly when a shown event has a non-empty id.
    With a room and plain keys the aggregation returns. *)
Theorem no_room_throws peg haveTile shouldHide (this : PostPanel) :
  (room (props this) = None ->
   (forall e, _getReadReceiptsForEvent peg this e = None)
   /\ ((exists e, In e (events (props this))
                  /\ _shouldShowEvent peg haveTile shouldHide this e = true
                  /\ getId e <> "") ->
       _getReadReceiptsByShownEvent peg haveTile shouldHide this
       = Throws TypeError
       /\ (showReadReceipts (props this) = true ->
           forall fuel,
             _getEventTiles peg haveTile shouldHide fuel this
             = Throws TypeError))
   /\ (plain_cache this ->
       (forall e, In e (events (props this)) ->
          _shouldShowEvent peg haveTile shouldHide this e = true ->
          getId e = "") ->
       exists m this',
         _getReadReceiptsByShownEvent peg haveTile shouldHide this
         = Returns (m, this'))
   /\ (plain_cache this ->
       (_getReadReceiptsByShownEvent peg haveTile shouldHide this
        = Throws TypeError
        <-> exists e, In e (events (props this))
                      /\ _shouldShowEvent peg haveTile shouldHide this e = true
                      /\ getId e <> "")))
  /\ (forall r, room (props this) = Some r ->
        plain_keys peg haveTile shouldHide this r ->
        exists m this',
          _getReadReceiptsByShownEvent peg haveTile shouldHide this
          = Returns (m, this')).
Proof.
  split.
  - intro Hr.
    assert (Hthrow : forall this',
              props this' = props this ->
              _showHiddenEventsInTimeline this'
              = _showHiddenEventsInTimeline this ->
              (exists e, In e (events (props this))
                 /\ _shouldShowEvent peg haveTile shouldHide this e = true
                 /\ getId e <> "") ->
              _getReadReceiptsByShownEvent peg haveTile shouldHide this'
              = Throws TypeError).
    { intros this' Hp Hh Hex. unfold _getReadReceiptsByShownEvent.
      rewrite (forward_pass_same peg haveTile shouldHide this this') by assumption.
      rewrite Hp.
      now rewrite (forward_pass_no_room peg haveTile shouldHide this). }
    assert (Hret : plain_cache this ->
                   (forall e, In e (events (props this)) ->
                      _shouldShowEvent peg haveTile shouldHide this e = true ->
                      getId e = "") ->
                   exists m this',
                     _getReadReceiptsByShownEvent peg haveTile shouldHide this
                     = Returns (m, this')).
    { intros Hcache Hall. unfold _getReadReceiptsByShownEvent.
      destruct (forward_pass_no_room_returns peg haveTile shouldHide this
                  (events (props this)) initial_agg Hr eq_refl Hall)
        as [st Hst].
      rewrite Hst. cbn [bind]. unfold fallback_pass.
      destruct (fallback_fold_returns
                  (obj_entries (_readReceiptsByUserId this))
                  (receiptsByEvent st) (receiptsByUserId st)) as [[E' U'] Hf].
      - intros u c Hin. apply (Hcache u c).
        exact (proj1 (obj_entries_In _ _ _) Hin).
      - rewrite Hf. cbn [bind]. eauto. }
    split; [|split; [|split]].
    + intro e. unfold _getReadReceiptsForEvent. now rewrite Hr.
    + intro Hex. split; [now apply Hthrow|].
      intros Hshow fuel. unfold _getEventTiles.
      destruct (reverse_scan _ _ _ _ _ _) as [lastShownEvent idx].
      cbn [props set_readReceiptsByEvent]. rewrite Hshow.
      rewrite (Hthrow (set_readReceiptsByEvent this obj_empty) eq_refl eq_refl
                      Hex).
      reflexivity.
    + exact Hret.
    + intro Hcache. split; [|now apply Hthrow].
      intro Ht.
      destruct (existsb (fun e => _shouldShowEvent peg haveTile shouldHide this e
                                  && truthy (getId e))
                        (events (props this))) eqn:Eex.
      * apply existsb_exists in Eex. destruct Eex as [e [Hin He]].
        apply andb_true_iff in He. destruct He as [Hs Hid].
        exists e. repeat split; try assumption. now apply truthy_true.
      * exfalso. destruct (Hret Hcache) as [m [this' Hm]]; [|congruence].
        intros e Hin Hs.
        destruct (string_dec (getId e) "") as [|Hne]; [assumption|].
        assert (existsb (fun e => _shouldShowEvent peg haveTile shouldHide this e
                                  && truthy (getId e))
                        (events (props this)) = true); [|congruence].
        apply existsb_exists. exists e. split; [assumption|].
        rewrite Hs. now apply truthy_true.
  - intros r Hr Hp. now apply aggregate_total with (r := r).
Qed.

(** A log with one shown message and no room. *)
Lemma no_room_throws_witness :
  _getReadReceiptsByShownEvent Sample.client Sample.always Sample.never
    (Sample.panel [Sample.message "$1" Sample.alice 1 None] None None false [] [])
  = Throws TypeError.
Proof.
  apply (proj1 (proj1 (proj2 (proj1
           (no_room_throws Sample.client Sample.always Sample.never
              (Sample.panel [Sample.message "$1" Sample.alice 1 None]
                 None None false [] []))
           eq_refl))
         (ex_intro _ (Sample.message "$1" Sample.alice 1 None)
            (conj (or_introl eq_refl)
               (conj eq_refl (fun H : "$1" = "" => eq_ind "$1"
                    (fun s => match s with
                              | EmptyString => False
                              | String _ _ => True
                              end) I "" H)))))).
Defined.

Lemma last_opt_In {A : Type} (l : list A) (x : A) : last_opt l = Some x -> In x l.
Proof.
  unfold last_opt. destruct (rev l) as [|y l'] eqn:E; [discriminate|].
  intros [= ->]. apply in_rev. rewrite E. now left.
Qed.

Lemma nearest_Some peg haveTile shouldHide (this : PostPanel)
    (evs : list MatrixEvent) (k : string) :
  nearest peg haveTile shouldHide this evs = Some k ->
  exists e, In e evs /\ _shouldShowEvent peg haveTile shouldHide this e = true
            /\ getId e = k.
Proof.
  unfold nearest.
  destruct (last_opt _) as [e|] eqn:E; simpl; [|discriminate].
  intros [= <-]. apply last_opt_In in E. apply filter_In in E.
  exists e. tauto.
Qed.

Lemma In_firstn {A : Type} (n : nat) (l : list A) (x : A) :
  In x (firstn n l) -> In x l.
Proof.
  intro H. rewrite <- (firstn_skipn n l). apply in_or_app. now left.
Qed.

Lemma flat_map_nil {A B : Type} (f : A -> list B) (l : list A) :
  (forall x, In x l -> f x = []) -> flat_map f l = [].
Proof.
  induction l as [|x l IH]; simpl; intro H; [reflexivity|].
  rewrite (H x (or_introl eq_refl)). apply IH. auto.
Qed.

Lemma folded_receipts_empty_id peg haveTile shouldHide (this : PostPanel)
    (r : Room) (evs : list MatrixEvent) :
  ids_present evs ->
  folded_receipts peg haveTile shouldHide this r evs "" = [].
Proof.
  intro Hids. unfold folded_receipts. apply flat_map_nil. intros i _.
  destruct (nth_error evs i); [|reflexivity].
  destruct (opt_str_eqb _ _) eqn:E; [|reflexivity].
  apply opt_str_eqb_eq in E. unfold nearest_shown in E.
  apply nearest_Some in E. destruct E as [e [Hin [_ Hid]]].
  exfalso. apply (Hids e); [|assumption].
  eapply In_firstn. exact Hin.
Qed.

(** The receipts folded onto an id are those of the events whose nearest
    preceding shown event has that id. *)
Lemma folded_receipts_In peg haveTile shouldHide (this : PostPanel)
    (r : Room) (evs : list MatrixEvent) (k : string) (x : Receipt) :
  In x (folded_receipts peg haveTile shouldHide this r evs k)
  <-> exists i e, nth_error evs i = Some e
        /\ nearest_shown peg haveTile shouldHide this evs i = Some k
        /\ In x (receipts_for peg r e).
Proof.
  unfold folded_receipts. rewrite in_flat_map. split.
  - intros [i [_ Hx]].
    destruct (nth_error evs i) as [e|] eqn:Ei; [|destruct Hx].
    destruct (opt_str_eqb _ _) eqn:Ek; [|destruct Hx].
    apply opt_str_eqb_eq in Ek. exists i, e. auto.
  - intros [i [e [Hi [Hk Hx]]]]. exists i. split.
    + apply in_seq. split; [lia|]. simpl. apply nth_error_Some. congruence.
    + rewrite Hi, Hk. now rewrite (proj2 (opt_str_eqb_eq _ _) eq_refl).
Qed.

(** The buckets of the map a run returns. *)
Lemma buckets_of_run peg haveTile shouldHide (this this' : PostPanel) (r : Room)
    (m : obj (list Receipt)) :
  room (props this) = Some r ->
  _getReadReceiptsByShownEvent peg haveTile shouldHide this = Returns (m, this') ->
  (forall k x, k <> "" ->
     In x (folded_receipts peg haveTile shouldHide this r
             (events (props this)) k) ->
     In x (bucket m k))
  /\ (_readReceiptsByUserId this = obj_empty ->
      forall k,
        bucket m k
        = isort receipt_le
            (if truthy k
             then folded_receipts peg haveTile shouldHide this r
                    (events (props this)) k
             else [])).
Proof.
  intros Hr H. apply aggregate_returns_inv in H.
  destruct H as [st [E' [U' [Hst [Hf [-> _]]]]]].
  destruct (forward_pass_folds peg haveTile shouldHide this r _ _ Hr Hst)
    as [_ Hb].
  split.
  - intros k x Hk Hx. apply sort_buckets_In.
    destruct (fallback_fold_facts _ _ _ _ _ Hf) as [_ [_ [_ [_ [Hkeep _]]]]].
    apply Hkeep. rewrite Hb.
    now rewrite (proj2 (truthy_true k) Hk).
  - intros Hempty k. rewrite Hempty in Hf. cbn in Hf. injection Hf as <- _.
    rewrite bucket_sort_buckets. now rewrite Hb.
Qed.

(** C3 as stated fails.  A shown event whose id is the empty string is to
    the aggregation like no shown event: its receipts, and those of the
    hidden events after it, go to no bucket.  Here the only event of the
    log is shown, has the empty id and a receipt of Bob, and the map
    returned has no receipt under that id. *)
Lemma folding_counterexample :
  ~ (forall m this',
       _getReadReceiptsByShownEvent Sample.client Sample.always Sample.never
         (Sample.panel Sample.unnamed_log (Some Sample.unnamed_room) None false
            [] [])
       = Returns (m, this') ->
       folds_onto_nearest Sample.client Sample.always Sample.never
         (Sample.panel Sample.unnamed_log (Some Sample.unnamed_room) None false
            [] [])
         Sample.unnamed_room m).
Proof.
  intro H.
  exact (H _ _ eq_refl 0%nat (Sample.message "" Sample.alice 10 None) ""
           {| receipt_userId := "@bob:hs"; roomMember := None; ts := 100 |}
           eq_refl eq_refl (or_introl eq_refl)).
Qed.

(** C3, amended.  With a room, a forward pass over the whole log that
    returns leaves in the bucket of each non-empty event id, in log order,
    the receipts of every event, shown or hidden, whose nearest preceding
    shown event has that id; and these receipts are in the bucket of that id
    in the map the aggregation returns, whose buckets, when the previous
    per-user cache is empty, are exactly these receipts, sorted.  A shown
    event whose id is the empty string gets no bucket.  The receipts of the
    events before the first shown event go nowhere: the pass ends in the
    state it reaches without these events.  With plain keys the aggregation
    returns. *)
Theorem forward_pass_folding peg haveTile shouldHide (this : PostPanel) (r : Room) :
  room (props this) = Some r ->
  (forall st,
     forward_pass peg haveTile shouldHide this (events (props this)) initial_agg
     = Returns st ->
     forall k,
       bucket (receiptsByEvent st) k
       = if truthy k
         then folded_receipts peg haveTile shouldHide this r
                (events (props this)) k
         else [])
  /\ (forall m this',
        _getReadReceiptsByShownEvent peg haveTile shouldHide this
        = Returns (m, this') ->
        (forall i e k x,
           nth_error (events (props this)) i = Some e ->
           nearest_shown peg haveTile shouldHide this (events (props this)) i
           = Some k ->
           k <> "" ->
           In x (receipts_for peg r e) ->
           In x (bucket m k))
        /\ (_readReceiptsByUserId this = obj_empty ->
            forall k,
              bucket m k
              = isort receipt_le
                  (if truthy k
                   then folded_receipts peg haveTile shouldHide this r
                          (events (props this)) k
                   else [])))
  /\ (forall pre rest,
        events (props this) = pre ++ rest ->
        (forall e, In e pre ->
           _shouldShowEvent peg haveTile shouldHide this e = false) ->
        forward_pass peg haveTile shouldHide this (events (props this))
                     initial_agg
        = forward_pass peg haveTile shouldHide this rest initial_agg)
  /\ (plain_keys peg haveTile shouldHide this r ->
      exists m this',
        _getReadReceiptsByShownEvent peg haveTile shouldHide this
        = Returns (m, this')).
Proof.
  intro Hr. split; [|split; [|split]].
  - intros st Hst.
    now destruct (forward_pass_folds peg haveTile shouldHide this r _ _ Hr Hst).
  - intros m this' H.
    destruct (buckets_of_run peg haveTile shouldHide this this' r m Hr H)
      as [H1 H2].
    split; [|exact H2].
    intros i e k x Hi Hk Hne Hx. apply H1; [exact Hne|].
    apply folded_receipts_In. exists i, e. auto.
  - intros pre rest -> Hh. now apply forward_pass_hidden_prefix.
  - now apply aggregate_total.
Qed.

(** The scenario of the specification: Bob's receipt on the hidden event
    [$H] lands in the bucket of the shown event [$S] before it. *)
Lemma forward_pass_folding_witness :
  exists m this',
    _getReadReceiptsByShownEvent Sample.client Sample.always Sample.never
      (Sample.panel Sample.folding_log (Some Sample.folding_room) None false [] [])
    = Returns (m, this')
    /\ bucket m "$S"
       = [{| receipt_userId := "@bob:hs"; roomMember := None; ts := 100 |}].
Proof.
  eexists. eexists. split; [reflexivity|].
  rewrite (proj2 (proj1 (proj2
             (forward_pass_folding Sample.client Sample.always Sample.never
                (Sample.panel Sample.folding_log (Some Sample.folding_room)
                   None false [] [])
                Sample.folding_room eq_refl))
             _ _ eq_refl) eq_refl "$S").
  reflexivity.
Defined.

(** C1 as stated fails.  The receipt map would only have keys of shown
    events if the pass over the previous cache did not add any: here the
    cache still holds Carol's receipt on [$gone], and the map returned for a
    log without that event has the key [$gone]. *)
Lemma receipt_keys_counterexample :
  ~ (forall m this',
       _getReadReceiptsByShownEvent Sample.client Sample.always Sample.never
         (Sample.panel Sample.folding_log (Some Sample.folding_room) None false
            [] Sample.stale_cache)
       = Returns (m, this') ->
       keys_are_shown Sample.client Sample.always Sample.never
         (Sample.panel Sample.folding_log (Some Sample.folding_room) None false
            [] Sample.stale_cache) m).
Proof.
  intro H.
  destruct (H _ _ eq_refl "$gone") as [e [Hin [Hid _]]].
  - vm_compute. tauto.
  - destruct Hin as [<-|[<-|[]]]; discriminate Hid.
Qed.

(** The keys of the map a run returns. *)
Lemma receipt_keys_of_returns peg haveTile shouldHide (this this' : PostPanel)
    (m : obj (list Receipt)) :
  _getReadReceiptsByShownEvent peg haveTile shouldHide this = Returns (m, this') ->
  (forall k, In k (obj_keys m) ->
     (exists e, In e (events (props this)) /\ getId e = k
                /\ _shouldShowEvent peg haveTile shouldHide this e = true)
     \/ (exists u c st,
           In (u, c) (_readReceiptsByUserId this)
           /\ lastShownEventId c = k
           /\ forward_pass peg haveTile shouldHide this (events (props this))
                           initial_agg = Returns st
           /\ obj_get (receiptsByUserId st) u = None))
  /\ (_readReceiptsByUserId this = obj_empty ->
      keys_are_shown peg haveTile shouldHide this m).
Proof.
  intro H. apply aggregate_returns_inv in H.
  destruct H as [st [E' [U' [Hst [Hf [-> _]]]]]].
  assert (Hkeys : forall k, In k (obj_keys (sort_buckets E')) ->
            (exists e, In e (events (props this)) /\ getId e = k
                       /\ _shouldShowEvent peg haveTile shouldHide this e = true)
            \/ (exists u c,
                  In (u, c) (_readReceiptsByUserId this)
                  /\ lastShownEventId c = k
                  /\ obj_get (receiptsByUserId st) u = None)).
  { intros k Hk. rewrite sort_buckets_keys in Hk.
    destruct (fallback_fold_facts _ _ _ _ _ Hf) as [Hfk _].
    destruct (forward_pass_keys peg haveTile shouldHide this _ _ _ Hst)
      as [Hfwd _].
    destruct (Hfk k Hk) as [Hin|[u [c [Hin [Hnot Hc]]]]].
    - destruct (Hfwd k Hin) as [[]|[Hl|[e [H1 [H2 H3]]]]]; [discriminate|].
      left. exists e. auto.
    - right. exists u, c.
      split; [exact (proj1 (obj_entries_In _ _ _) Hin)|].
      split; [assumption|]. apply js_has_false in Hnot. tauto. }
  split.
  - intros k Hk. destruct (Hkeys k Hk) as [?|[u [c [H1 [H2 H3]]]]]; [auto|].
    right. exists u, c, st. auto.
  - intros Hempty k Hk. destruct (Hkeys k Hk) as [?|[u [c [H1 _]]]]; [auto|].
    rewrite Hempty in H1. destruct H1.
Qed.

(** C1, amended.  Every key of the map an aggregation returns is the id of
    an event of the log that the visibility filter accepts, or the cached
    [lastShownEventId] of a user of the previous per-user cache for whom
    the forward pass recorded no receipt.  When the previous cache is empty,
    every key is the id of a shown event.  With a room and plain keys the
    aggregation returns. *)
Theorem receipt_keys_shown_or_cached peg haveTile shouldHide (this : PostPanel) :
  (forall m this',
     _getReadReceiptsByShownEvent peg haveTile shouldHide this
     = Returns (m, this') ->
     (forall k, In k (obj_keys m) ->
        (exists e, In e (events (props this)) /\ getId e = k
                   /\ _shouldShowEvent peg haveTile shouldHide this e = true)
        \/ (exists u c st,
              In (u, c) (_readReceiptsByUserId this)
              /\ lastShownEventId c = k
              /\ forward_pass peg haveTile shouldHide this
                   (events (props this)) initial_agg = Returns st
              /\ obj_get (receiptsByUserId st) u = None))
     /\ (_readReceiptsByUserId this = obj_empty ->
         keys_are_shown peg haveTile shouldHide this m))
  /\ (forall r,
        room (props this) = Some r ->
        plain_keys peg haveTile shouldHide this r ->
        exists m this',
          _getReadReceiptsByShownEvent peg haveTile shouldHide this
          = Returns (m, this')).
Proof.
  split.
  - intros m this' H.
    exact (receipt_keys_of_returns peg haveTile shouldHide this this' m H).
  - intros r Hr Hp. now apply aggregate_total with (r := r).
Qed.

(** With an empty cache the keys of the folding scenario are shown events. *)
Lemma receipt_keys_shown_or_cached_witness :
  exists m this',
    _getReadReceiptsByShownEvent Sample.client Sample.always Sample.never
      (Sample.panel Sample.folding_log (Some Sample.folding_room) None false [] [])
    = Returns (m, this')
    /\ keys_are_shown Sample.client Sample.always Sample.never
         (Sample.panel Sample.folding_log (Some Sample.folding_room) None false
            [] []) m.
Proof.
  eexists. eexists. split; [reflexivity|].
  apply (proj2 (proj1 (receipt_keys_shown_or_cached Sample.client
                         Sample.always Sample.never
                         (Sample.panel Sample.folding_log
                            (Some Sample.folding_room) None false [] []))
                 _ _ eq_refl)).
  reflexivity.
Defined.

(** The per-user cache a run leaves, against the previous one. *)
Lemma cache_of_returns peg haveTile shouldHide (this this' : PostPanel)
    (m : obj (list Receipt)) :
  _getReadReceiptsByShownEvent peg haveTile shouldHide this = Returns (m, this') ->
  (forall u, In u (obj_keys (_readReceiptsByUserId this)) ->
     inherited u = false ->
     In u (obj_keys (_readReceiptsByUserId this')))
  /\ (obj_wf (_readReceiptsByUserId this) ->
      forall u c,
        obj_get (_readReceiptsByUserId this) u = Some c ->
        inherited u = false ->
        (forall e rs x, In e (events (props this)) ->
           _getReadReceiptsForEvent peg this e = Some rs ->
           In x rs -> receipt_userId x <> u) ->
        obj_get (_readReceiptsByUserId this') u = Some c
        /\ In (receipt c) (bucket m (lastShownEventId c)))
  /\ (forall u,
        inherited u = true ->
        (forall e rs x, In e (events (props this)) ->
           _getReadReceiptsForEvent peg this e = Some rs ->
           In x rs -> receipt_userId x <> u) ->
        obj_get (_readReceiptsByUserId this') u = None).
Proof.
  intro H. apply aggregate_returns_inv in H.
  destruct H as [st [E' [U' [Hst [Hf [-> ->]]]]]]. cbn [_readReceiptsByUserId].
  unfold fallback_pass in Hf.
  assert (Hnone : forall u,
            (forall e rs x, In e (events (props this)) ->
               _getReadReceiptsForEvent peg this e = Some rs ->
               In x rs -> receipt_userId x <> u) ->
            obj_get (receiptsByUserId st) u = None).
  { intros u Hno. apply obj_get_None. intro Hin.
    destruct (forward_pass_keys peg haveTile shouldHide this _ _ _ Hst)
      as [_ [Hu _]].
    destruct (Hu u Hin) as [[]|[e [rs [x [H1 [H2 [H3 H4]]]]]]].
    exact (Hno e rs x H1 H2 H3 H4). }
  split; [|split].
  - intros u Hu Hi. apply in_map_iff in Hu. destruct Hu as [[u' c] [<- Hin]].
    destruct (fallback_fold_facts _ _ _ _ _ Hf) as [_ [_ [Hl _]]].
    apply (Hl u' c); [|exact Hi]. exact (proj2 (obj_entries_In _ _ _) Hin).
  - intros Hwf u c Hget Hi Hno.
    assert (Hhas : js_has (receiptsByUserId st) u = false).
    { apply js_has_false. split; [now apply Hnone | exact Hi]. }
    destruct (fallback_fold_carries (obj_entries (_readReceiptsByUserId this))
                _ _ _ _ u c (obj_entries_wf _ _ Hwf)
                (proj2 (obj_entries_In _ _ _) (obj_get_In _ _ _ _ Hget))
                Hhas Hf) as [H1 H2].
    split; [assumption|]. now apply sort_buckets_In.
  - intros u Hi Hno.
    rewrite (fallback_fold_drops _ _ _ _ _ u Hi Hf). now apply Hnone.
Qed.




(** The per-user cache an aggregation leaves has each user once, whatever
    the previous cache was. *)
Lemma aggregate_cache_wf peg haveTile shouldHide (this this' : PostPanel)
    (m : obj (list Receipt)) :
  _getReadReceiptsByShownEvent peg haveTile shouldHide this = Returns (m, this') ->
  obj_wf (_readReceiptsByUserId this').
Proof.
  intro H. apply aggregate_returns_inv in H.
  destruct H as [st [E' [U' [Hst [Hf [_ ->]]]]]]. cbn [_readReceiptsByUserId].
  destruct (fallback_fold_facts _ _ _ _ _ Hf) as [_ [_ [_ [_ [_ [Hw _]]]]]].
  apply Hw.
  destruct (forward_pass_keys peg haveTile shouldHide this _ _ _ Hst)
    as [_ [_ Hw0]].
  apply Hw0. constructor.
Qed.

(** A run on the component a run left repeats it. *)
Lemma aggregate_twice peg haveTile shouldHide (this this' : PostPanel)
    (m : obj (list Receipt)) :
  obj_wf (_readReceiptsByUserId this) ->
  _getReadReceiptsByShownEvent peg haveTile shouldHide this = Returns (m, this') ->
  _getReadReceiptsByShownEvent peg haveTile shouldHide this' = Returns (m, this').
Proof.
  intros Hwf H. assert (HwfU' := aggregate_cache_wf _ _ _ _ _ _ H).
  apply aggregate_returns_inv in H.
  destruct H as [st [E' [U' [Hst [Hf [-> ->]]]]]].
  cbn [_readReceiptsByUserId] in HwfU'.
  unfold _getReadReceiptsByShownEvent at 1.
  rewrite forward_pass_same with (this := this) by reflexivity.
  cbn [props _readReceiptsByUserId]. rewrite Hst. cbn [bind].
  unfold fallback_pass in *.
  set (p := fun e : string * UserReceipt =>
              negb (js_has (receiptsByUserId st) (fst e))).
  destruct (fallback_fold_filter (obj_entries (_readReceiptsByUserId this))
              (receiptsByEvent st) (receiptsByUserId st)
              (obj_entries_wf _ _ Hwf)) as [Hfold Hsnd].
  fold p in Hfold, Hsnd.
  assert (HU' : U' = receiptsByUserId st
                     ++ filter p (obj_entries (_readReceiptsByUserId this))).
  { exact (Hsnd E' U' Hf). }
  destruct (fallback_fold_filter (obj_entries U')
              (receiptsByEvent st) (receiptsByUserId st)
              (obj_entries_wf _ _ HwfU')) as [Hfold2 _].
  fold p in Hfold2.
  rewrite Hfold2, HU', obj_entries_filter_stable, <- Hfold, Hf.
  - cbn [bind fst snd]. rewrite <- HU'. reflexivity.
  - intros [u c] Hin. unfold p. simpl.
    apply negb_false_iff. rewrite js_has_unfold. apply orb_true_iff. left.
    apply obj_has_In. apply (in_map fst) in Hin. exact Hin.
Qed.

(** C7.  When an aggregation returns, a second aggregation on the
    component the first one left, whose props (the log and the receipt
    source) are those of the first, returns the same map and leaves the
    component, and so its per-user cache, as it is.  With a room and plain
    keys the aggregation returns. *)
Theorem aggregate_idempotent peg haveTile shouldHide (this : PostPanel) :
  obj_wf (_readReceiptsByUserId this) ->
  (forall m this',
     _getReadReceiptsByShownEvent peg haveTile shouldHide this
     = Returns (m, this') ->
     _getReadReceiptsByShownEvent peg haveTile shouldHide this'
     = Returns (m, this')
     /\ props this' = props this)
  /\ (forall r,
        room (props this) = Some r ->
        plain_keys peg haveTile shouldHide this r ->
        exists m this',
          _getReadReceiptsByShownEvent peg haveTile shouldHide this
          = Returns (m, this')
          /\ _getReadReceiptsByShownEvent peg haveTile shouldHide this'
             = Returns (m, this')).
Proof.
  intros Hwf.
  assert (Htwice : forall m this',
            _getReadReceiptsByShownEvent peg haveTile shouldHide this
            = Returns (m, this') ->
            _getReadReceiptsByShownEvent peg haveTile shouldHide this'
            = Returns (m, this')
            /\ props this' = props this).
  { intros m this' H. split.
    - exact (aggregate_twice peg haveTile shouldHide this this' m Hwf H).
    - now apply getReadReceiptsByShownEvent_ghosts in H. }
  split; [exact Htwice|].
  intros r Hr Hp.
  destruct (aggregate_total peg haveTile shouldHide this r Hr Hp)
    as [m [this' H]].
  exists m, this'. split; [exact H|]. now apply Htwice.
Qed.

(** The folding scenario, run twice from Carol's stale cache. *)
Lemma aggregate_idempotent_witness :
  exists m this',
    _getReadReceiptsByShownEvent Sample.client Sample.always Sample.never
      (Sample.panel Sample.folding_log (Some Sample.folding_room) None false
         [] Sample.stale_cache)
    = Returns (m, this')
    /\ _getReadReceiptsByShownEvent Sample.client Sample.always Sample.never this'
       = Returns (m, this').
Proof.
  eexists. eexists. split; [reflexivity|].
  apply (proj1 (aggregate_idempotent Sample.client Sample.always Sample.never
                  (Sample.panel Sample.folding_log (Some Sample.folding_room)
                     None false [] Sample.stale_cache)
                  (NoDup_cons "@carol:hs" (fun F : In "@carol:hs" [] => F)
                              (NoDup_nil string)))
               _ _ eq_refl).
Defined.

(** * The timeline assembly *)

Section Assembly.
Variable peg : MatrixClient.
Variable haveTile : MatrixEvent -> bool.
Variable shouldHide : MatrixEvent -> bool.

Local Abbreviation show := (_shouldShowEvent peg haveTile shouldHide).

Lemma readMarkerForEvent_same (this this0 : PostPanel) (id : string) (b : bool) :
  same_view this this0 ->
  _readMarkerForEvent this id b = _readMarkerForEvent this0 id b.
Proof.
  intros [Hp [Hg _]]. unfold _readMarkerForEvent. now rewrite Hp, Hg.
Qed.

Lemma readMarkerForEvent_items (this : PostPanel) (id : string) (b : bool) :
  match _readMarkerForEvent this id b with
  | Some n => flatten n
  | None => []
  end = marker_items this id.
Proof.
  unfold _readMarkerForEvent, marker_items.
  destruct (opt_str_eqb _ _); [reflexivity|].
  destruct (existsb _ _); reflexivity.
Qed.

Lemma marker_items_same (this this0 : PostPanel) (id : string) :
  same_view this this0 -> marker_items this id = marker_items this0 id.
Proof.
  intros [Hp [Hg _]]. unfold marker_items. now rewrite Hp, Hg.
Qed.

(** The backward scan finds the last shown event that is not a local echo. *)
Lemma reverse_scan_spec (this : PostPanel) (n : nat) (lse : option MatrixEvent) :
  let idx := snd (reverse_scan peg haveTile shouldHide this n lse) in
  (idx = -1
   /\ forall j e, (j < n)%nat -> nth_error (events (props this)) j = Some e ->
        show this e = true -> truthy_opt (status e) = true)
  \/ (exists i e,
        idx = Z.of_nat i /\ (i < n)%nat
        /\ nth_error (events (props this)) i = Some e
        /\ show this e = true /\ truthy_opt (status e) = false
        /\ forall j e', (i < j < n)%nat ->
             nth_error (events (props this)) j = Some e' ->
             show this e' = true -> truthy_opt (status e') = true).
Proof.
  revert lse. induction n as [|n IH]; intro lse; simpl.
  - left. split; [reflexivity|]. intros j e Hj. lia.
  - assert (Hskip : forall lse',
              (forall e, nth_error (events (props this)) n = Some e ->
                 show this e = true -> truthy_opt (status e) = true) ->
              let idx := snd (reverse_scan peg haveTile shouldHide this n lse') in
              (idx = -1
               /\ forall j e, (j < S n)%nat ->
                    nth_error (events (props this)) j = Some e ->
                    show this e = true -> truthy_opt (status e) = true)
              \/ (exists i e,
                    idx = Z.of_nat i /\ (i < S n)%nat
                    /\ nth_error (events (props this)) i = Some e
                    /\ show this e = true /\ truthy_opt (status e) = false
                    /\ forall j e', (i < j < S n)%nat ->
                         nth_error (events (props this)) j = Some e' ->
                         show this e' = true -> truthy_opt (status e') = true)).
    { intros lse' Hn. destruct (IH lse') as [[H1 H2]|[i [e [H1 [H2 [H3 [H4 [H5 H6]]]]]]]].
      - left. split; [assumption|]. intros j e Hj He Hs.
        destruct (Nat.eq_dec j n) as [->|Hne]; [now apply Hn|].
        apply (H2 j e); [lia | assumption | assumption].
      - right. exists i, e. repeat split; try assumption; try lia.
        intros j e' Hj He' Hs.
        destruct (Nat.eq_dec j n) as [->|Hne]; [now apply Hn|].
        apply (H6 j e'); [lia | assumption | assumption]. }
    destruct (nth_error (events (props this)) n) as [mxEv|] eqn:En.
    + destruct (show this mxEv) eqn:Es; cbn [negb].
      * destruct (truthy_opt (status mxEv)) eqn:Et.
        -- apply Hskip. intros e [= <-] _. assumption.
        -- right. exists n, mxEv. simpl. repeat split; try assumption; try lia.
      * apply Hskip. intros e [= <-] Hs. congruence.
    + apply Hskip. intros e He. discriminate.
Qed.

(** An index is before the last shown event that is not a local echo
    exactly when such an event comes later in the log. *)
Lemma before_last_shown_non_echo (this : PostPanel) (i : nat) :
  (Z.of_nat i >=? snd (reverse_scan peg haveTile shouldHide this
                         (List.length (events (props this))) None)) = false
  <-> exists j e, (i < j)%nat /\ nth_error (events (props this)) j = Some e
                  /\ show this e = true /\ truthy_opt (status e) = false.
Proof.
  destruct (reverse_scan_spec this (List.length (events (props this))) None)
    as [[H1 H2]|[i0 [e0 [H1 [H2 [H3 [H4 [H5 H6]]]]]]]]; rewrite H1.
  - split.
    + intro H. rewrite Z.geb_leb in H. apply Z.leb_gt in H. lia.
    + intros [j [e [Hj [He [Hs Ht]]]]].
      assert (j < List.length (events (props this)))%nat
        by (apply nth_error_Some; congruence).
      rewrite (H2 j e) in Ht by assumption. discriminate.
  - split.
    + intro H. rewrite Z.geb_leb in H. apply Z.leb_gt in H.
      exists i0, e0. repeat split; try assumption. lia.
    + intros [j [e [Hj [He [Hs Ht]]]]].
      assert (j < List.length (events (props this)))%nat
        by (apply nth_error_Some; congruence).
      destruct (le_lt_dec j i0) as [Hle|Hgt].
      * rewrite Z.geb_leb. apply Z.leb_gt. lia.
      * rewrite (H6 j e) in Ht; [discriminate | lia | assumption | assumption].
Qed.

Lemma directSubevents_same (this this0 : PostPanel) (e : MatrixEvent) :
  props this = props this0 ->
  directSubevents this e = directSubevents this0 e.
Proof. intro H. unfold directSubevents. now rewrite H. Qed.

Lemma mapM_cons_inv {A B : Type} (f : A -> outcome B) (x : A) (xs : list A)
    (ys : list B) :
  mapM f (x :: xs) = Returns ys ->
  exists y ys', f x = Returns y /\ mapM f xs = Returns ys' /\ ys = y :: ys'.
Proof.
  simpl. destruct (f x) as [y| | |]; simpl; try discriminate.
  destruct (mapM f xs) as [ys'| | |]; simpl; try discriminate.
  intros [= <-]. eauto.
Qed.

(** The tiles of an event, read in document order, are its thread. *)
Lemma getTilesForEvent_thread (this this0 : PostPanel) (fuel : nat) :
  props this = props this0 ->
  forall prev e last n nt lvl tiles,
    _getTilesForEvent peg haveTile shouldHide fuel this prev e last n nt lvl
    = Returns tiles ->
    thread_order this0 lvl e (render_order tiles).
Proof.
  intro Hp. induction fuel as [|fuel IH];
    intros prev e last n nt lvl tiles; simpl; [discriminate|].
  destruct (mapM _ _) as [children| | |] eqn:Em; simpl; try discriminate.
  intros [= <-]. unfold render_order. simpl. rewrite app_nil_r.
  constructor. rewrite <- (directSubevents_same this this0 e Hp).
  revert children Em.
  induction (directSubevents this e) as [|s subs IHs]; intros children Em.
  - simpl in Em. injection Em as <-. constructor.
  - apply mapM_cons_inv in Em. destruct Em as [c [cs [Hc [Hcs ->]]]].
    simpl. constructor.
    + exact (IH _ _ _ _ _ _ _ Hc).
    + now apply IHs.
Qed.

(** One iteration of the forward loop appends the tiles of the event, if
    it is shown, and then the marker node of the event, if it has one. *)
Lemma tiles_step_inv (this : PostPanel) (fuel : nat) (lse : option MatrixEvent)
    (idx : Z) (ret0 ret : list Node) (prev0 prev : option MatrixEvent)
    (i : nat) (e : MatrixEvent) :
  tiles_step peg haveTile shouldHide fuel this lse idx (ret0, prev0) i e
  = Returns (ret, prev) ->
  exists tiles,
    (if show this e
     then exists last n nt,
            _getTilesForEvent peg haveTile shouldHide fuel this prev0 e last
                              n nt 0 = Returns tiles
     else tiles = [])
    /\ ret = ret0 ++ tiles
               ++ match _readMarkerForEvent this (getId e)
                                            (Z.of_nat i >=? idx) with
                  | Some mk => [mk]
                  | None => []
                  end.
Proof.
  unfold tiles_step.
  destruct (_getNextEventInfo _ _ _ _ _ _) as [n nt].
  destruct (show this e).
  - destruct (_getTilesForEvent _ _ _ _ _ _ _ _ _ _ _) as [tiles| | |] eqn:Et;
      simpl; try discriminate.
    destruct (_readMarkerForEvent _ _ _) as [mk|]; intros [= <- <-];
      exists tiles; (split; [eauto|]).
    + now rewrite app_assoc.
    + now rewrite app_nil_r.
  - simpl. destruct (_readMarkerForEvent _ _ _) as [mk|]; intros [= <- <-];
      exists []; (split; [reflexivity|]).
    + reflexivity.
    + now rewrite app_nil_r.
Qed.

Lemma render_order_app (a b : list Node) :
  render_order (a ++ b) = render_order a ++ render_order b.
Proof. unfold render_order. apply flat_map_app. Qed.

(** The forward loop renders the rest of the log in log order, with the
    read-marker check made after every event. *)
Lemma tiles_loop_order (this this0 : PostPanel) (fuel : nat)
    (lse : option MatrixEvent) (idx : Z) (evs : list MatrixEvent) :
  same_view this this0 ->
  forall i ret0 prev0 ret prev,
    tiles_loop peg haveTile shouldHide fuel this lse idx evs i (ret0, prev0)
    = Returns (ret, prev) ->
    exists items,
      log_order peg haveTile shouldHide true this0 evs items
      /\ render_order ret = render_order ret0 ++ items.
Proof.
  intro Hv. assert (Hv' := Hv). destruct Hv' as [Hp [Hg Hh]].
  induction evs as [|e evs IH]; intros i ret0 prev0 ret prev; cbn [tiles_loop].
  - intros [= <- <-]. exists []. split; [constructor | now rewrite app_nil_r].
  - destruct (tiles_step _ _ _ _ _ _ _ _ _ _) as [[ret1 prev1]| | |] eqn:Es;
      simpl; try discriminate.
    intro Hl. apply tiles_step_inv in Es. destruct Es as [tiles [Ht ->]].
    destruct (IH _ _ _ _ _ Hl) as [items [Ho Hr]].
    rewrite Hr, !render_order_app.
    assert (Hm : render_order
                   match _readMarkerForEvent this (getId e)
                                             (Z.of_nat i >=? idx) with
                   | Some mk => [mk]
                   | None => []
                   end = marker_items this0 (getId e)).
    { rewrite <- (marker_items_same this this0 (getId e) Hv).
      rewrite <- (readMarkerForEvent_items this (getId e) (Z.of_nat i >=? idx)).
      destruct (_readMarkerForEvent _ _ _); unfold render_order; simpl;
        [apply app_nil_r | reflexivity]. }
    rewrite Hm, <- !app_assoc.
    destruct (show this e) eqn:Esh.
    + destruct Ht as [last [n [nt Ht]]].
      eexists. split; [|reflexivity].
      apply log_shown.
      * rewrite <- Esh. symmetry. now apply shouldShowEvent_same.
      * exact (getTilesForEvent_thread this this0 fuel Hp _ _ _ _ _ _ _ Ht).
      * exact Ho.
    + subst tiles. eexists. split; [|reflexivity].
      apply (log_hidden peg haveTile shouldHide true).
      * rewrite <- Esh. symmetry. now apply shouldShowEvent_same.
      * exact Ho.
Qed.

(** Every marker node the read-marker check yields is in the render list. *)
Lemma tiles_loop_marker (this : PostPanel) (fuel : nat)
    (lse : option MatrixEvent) (idx : Z) (evs : list MatrixEvent) :
  forall i ret0 prev0 ret prev,
    tiles_loop peg haveTile shouldHide fuel this lse idx evs i (ret0, prev0)
    = Returns (ret, prev) ->
    (forall x, In x ret0 -> In x ret)
    /\ forall j e mk,
         nth_error evs j = Some e ->
         _readMarkerForEvent this (getId e) (Z.of_nat (i + j) >=? idx) = Some mk ->
         In mk ret.
Proof.
  induction evs as [|e evs IH]; intros i ret0 prev0 ret prev; cbn [tiles_loop].
  - intros [= <- <-]. split; [auto|]. intros [|j] e mk H; discriminate.
  - destruct (tiles_step _ _ _ _ _ _ _ _ _ _) as [[ret1 prev1]| | |] eqn:Es;
      simpl; try discriminate.
    intro Hl. apply tiles_step_inv in Es. destruct Es as [tiles [_ ->]].
    destruct (IH _ _ _ _ _ Hl) as [Hkeep Hmk].
    split.
    + intros x Hx. apply Hkeep. apply in_or_app. now left.
    + intros [|j] e' mk He Hm.
      * injection He as <-. rewrite Nat.add_0_r in Hm. rewrite Hm in Hkeep.
        apply Hkeep. rewrite !in_app_iff. right. right. now left.
      * apply (Hmk j e' mk He). now rewrite Nat.add_succ_comm.
Qed.

(** ** Termination of the recursion over sub-events *)

Lemma NoDup_map_inj {A B : Type} (f : A -> B) (l : list A) (x y : A) :
  NoDup (map f l) -> In x l -> In y l -> f x = f y -> x = y.
Proof.
  induction l as [|a l IH]; simpl; intros Hnd Hx Hy Hf; [destruct Hx|].
  inversion Hnd as [|? ? Hnot Hnd']; subst.
  destruct Hx as [->|Hx], Hy as [->|Hy]; auto.
  - exfalso. apply Hnot. rewrite Hf. now apply in_map.
  - exfalso. apply Hnot. rewrite <- Hf. now apply in_map.
Qed.

Lemma directSubevents_In (this : PostPanel) (p e : MatrixEvent) :
  In e (directSubevents this p) ->
  In e (events (props this)) /\ is_reply e = true
  /\ exists r, in_reply_to e = Some r /\ event_id r = Some (getId p).
Proof.
  unfold directSubevents. rewrite !filter_In. intros [[Hin Hr] Hp].
  repeat split; try assumption.
  destruct (in_reply_to e) as [r|]; [|discriminate].
  exists r. split; [reflexivity|]. now apply opt_str_eqb_eq.
Qed.

Lemma reply_chain_incl (this : PostPanel) (c : list MatrixEvent) :
  reply_chain this c -> incl c (events (props this)).
Proof.
  induction 1 as [e Hin _|e p c _ IH He]; intros x [<-|Hx].
  - assumption.
  - destruct Hx.
  - now apply directSubevents_In in He.
  - now apply IH.
Qed.

(** In a chain every reply has its parent further down the chain. *)
Lemma reply_chain_parent (this : PostPanel) (c : list MatrixEvent) :
  reply_chain this c ->
  forall e, In e c -> is_reply e = true ->
    exists q r, In q (tl c) /\ in_reply_to e = Some r
                /\ event_id r = Some (getId q).
Proof.
  induction 1 as [e0 _ Hroot|e0 p c _ IH He0]; intros e Hin Hr.
  - destruct Hin as [<-|[]]. congruence.
  - destruct Hin as [<-|Hin].
    + apply directSubevents_In in He0. destruct He0 as [_ [_ [r [H1 H2]]]].
      exists p, r. simpl. auto.
    + destruct (IH e Hin Hr) as [q [r [Hq H]]].
      exists q, r. split; [|assumption]. simpl. right.
      destruct c; exact Hq.
Qed.

(** When the ids of the log are distinct, so are those of a chain. *)
Lemma reply_chain_NoDup (this : PostPanel) (c : list MatrixEvent) :
  NoDup (map getId (events (props this))) ->
  reply_chain this c -> NoDup (map getId c).
Proof.
  intro Hnd. induction 1 as [e _ _|e p c Hc IH He]; simpl.
  - constructor; [intros [] | constructor].
  - constructor; [|exact IH].
    intro Hdup. change (In (getId e) (map getId (p :: c))) in Hdup.
    apply in_map_iff in Hdup. destruct Hdup as [e' [Hid Hin']].
    assert (Hsub := directSubevents_In this p e He).
    destruct Hsub as [Hein [Hrep [r [Hr Hrp]]]].
    assert (e' = e).
    { apply (NoDup_map_inj getId (events (props this))); try assumption.
      now apply (reply_chain_incl this (p :: c) Hc). }
    subst e'.
    destruct (reply_chain_parent this (p :: c) Hc e Hin' Hrep)
      as [q [r' [Hq [Hr' Hrq]]]].
    simpl in Hq. rewrite Hr in Hr'. injection Hr' as <-.
    rewrite Hrp in Hrq. injection Hrq as Hpq.
    simpl in IH. inversion IH as [|? ? Hnot _]; subst.
    apply Hnot. rewrite Hpq. now apply in_map.
Qed.

Lemma reply_chain_length (this : PostPanel) (c : list MatrixEvent) :
  NoDup (map getId (events (props this))) ->
  reply_chain this c ->
  (List.length c <= List.length (events (props this)))%nat.
Proof.
  intros Hnd Hc.
  rewrite <- (length_map getId c), <- (length_map getId (events (props this))).
  apply NoDup_incl_length; [now apply reply_chain_NoDup with (this := this)|].
  apply incl_map. now apply reply_chain_incl.
Qed.

Lemma mapM_returns {A B : Type} (f : A -> outcome B) (xs : list A) :
  (forall x, In x xs -> exists y, f x = Returns y) ->
  exists ys, mapM f xs = Returns ys.
Proof.
  induction xs as [|x xs IH]; intro H; simpl; [eauto|].
  destruct (H x (or_introl eq_refl)) as [y ->].
  destruct IH as [ys ->]; [intros; apply H; now right|].
  simpl. eauto.
Qed.

(** With distinct ids the recursion over sub-events is no deeper than the
    log is long. *)
Lemma getTilesForEvent_returns (this : PostPanel) :
  NoDup (map getId (events (props this))) ->
  forall fuel c e prev last n nt lvl,
    reply_chain this (e :: c) ->
    (List.length (events (props this)) < fuel + List.length (e :: c))%nat ->
    exists tiles,
      _getTilesForEvent peg haveTile shouldHide fuel this prev e last n nt lvl
      = Returns tiles.
Proof.
  intro Hnd. induction fuel as [|fuel IH]; intros c e prev last n nt lvl Hc Hlen.
  - apply (reply_chain_length this _ Hnd) in Hc. simpl in *. lia.
  - cbn [_getTilesForEvent].
    destruct (mapM_returns
                (fun s => _getTilesForEvent peg haveTile shouldHide fuel this
                            None s None None None (lvl + 1))
                (directSubevents this e)) as [children ->].
    + intros s Hs. apply (IH (e :: c)).
      * now apply chain_reply.
      * simpl in *. lia.
    + simpl. eauto.
Qed.

Lemma shown_not_reply (this : PostPanel) (e : MatrixEvent) :
  show this e = true -> is_reply e = false.
Proof.
  unfold _shouldShowEvent.
  destruct (match sender e with Some s => _ | None => _ end); [discriminate|].
  destruct (negb (includes messageTypes (getType e))); [discriminate|].
  destruct (is_reply e); [discriminate | reflexivity].
Qed.

Lemma tiles_loop_returns (this : PostPanel) (fuel : nat)
    (lse : option MatrixEvent) (idx : Z) (evs : list MatrixEvent) :
  NoDup (map getId (events (props this))) ->
  (List.length (events (props this)) < fuel)%nat ->
  incl evs (events (props this)) ->
  forall i st, exists st',
    tiles_loop peg haveTile shouldHide fuel this lse idx evs i st = Returns st'.
Proof.
  intros Hnd Hfuel. induction evs as [|e evs IH]; intros Hincl i [ret prev];
    cbn [tiles_loop]; [eauto|].
  assert (Hstep : exists st1,
            tiles_step peg haveTile shouldHide fuel this lse idx (ret, prev) i e
            = Returns st1).
  { unfold tiles_step.
    destruct (_getNextEventInfo _ _ _ _ _ _) as [n nt].
    destruct (show this e) eqn:Es.
    - destruct (getTilesForEvent_returns this Hnd fuel [] e prev
                  (Some (opt_eqb event_eqb (Some e) lse)) n nt 0%nat)
        as [tiles ->].
      + apply chain_root; [apply Hincl; now left | now apply (shown_not_reply this)].
      + simpl. lia.
      + simpl. destruct (_readMarkerForEvent _ _ _); eauto.
    - simpl. destruct (_readMarkerForEvent _ _ _); eauto. }
  destruct Hstep as [st1 ->]. cbn [bind]. apply IH.
  intros x Hx. apply Hincl. now right.
Qed.

(** [_getEventTiles] returns when the ids of the log are distinct and, if
    read receipts are wanted, the room is there and the keys are plain. *)
Lemma getEventTiles_returns (this : PostPanel) (fuel : nat) :
  NoDup (map getId (events (props this))) ->
  receipts_ready peg haveTile shouldHide this ->
  (List.length (events (props this)) < fuel)%nat ->
  exists ret this',
    _getEventTiles peg haveTile shouldHide fuel this = Returns (ret, this').
Proof.
  intros Hnd Hroom Hfuel. unfold _getEventTiles.
  destruct (reverse_scan _ _ _ _ _ _) as [lse idx].
  cbn [props set_readReceiptsByEvent].
  destruct (showReadReceipts (props this)) eqn:Esr.
  - destruct (Hroom Esr) as [r [Er Hplain]].
    destruct (aggregate_total peg haveTile shouldHide
                (set_readReceiptsByEvent this obj_empty) r Er) as [m [t Hagg]].
    { now apply (plain_keys_same peg haveTile shouldHide this). }
    rewrite Hagg. cbn [bind fst snd].
    apply getReadReceiptsByShownEvent_ghosts in Hagg.
    destruct Hagg as [_ [Hp _]]. cbn [props set_readReceiptsByEvent] in Hp.
    destruct (tiles_loop_returns (set_readReceiptsByEvent t m) fuel lse idx
                (events (props this))) with (i := 0%nat)
                (st := (@nil Node, @None MatrixEvent)) as [st Hst].
    + cbn [props set_readReceiptsByEvent]. now rewrite Hp.
    + cbn [props set_readReceiptsByEvent]. now rewrite Hp.
    + cbn [props set_readReceiptsByEvent]. rewrite Hp. apply incl_refl.
    + cbn [props set_readReceiptsByEvent]. rewrite Hp.
      rewrite Hst. cbn [bind]. eauto.
  - cbn [bind].
    destruct (tiles_loop_returns (set_readReceiptsByEvent this obj_empty) fuel
                lse idx (events (props this))) with (i := 0%nat)
                (st := (@nil Node, @None MatrixEvent)) as [st Hst];
      try assumption; [apply incl_refl|].
    cbn [props set_readReceiptsByEvent]. rewrite Hst. cbn [bind]. eauto.
Qed.

(** A call of [_getEventTiles] that returns ran the forward loop over the
    whole log, on a component that differs from the given one in its
    receipt caches only. *)
Lemma getEventTiles_inv (this this' : PostPanel) (fuel : nat) (ret : list Node) :
  _getEventTiles peg haveTile shouldHide fuel this = Returns (ret, this') ->
  same_view this' this
  /\ exists prev,
       tiles_loop peg haveTile shouldHide fuel this'
         (fst (reverse_scan peg haveTile shouldHide this
                 (List.length (events (props this))) None))
         (snd (reverse_scan peg haveTile shouldHide this
                 (List.length (events (props this))) None))
         (events (props this)) 0 ([], None)
       = Returns (ret, prev).
Proof.
  unfold _getEventTiles.
  destruct (reverse_scan _ _ _ _ _ _) as [lse idx].
  cbn [props set_readReceiptsByEvent fst snd].
  destruct (showReadReceipts (props this)).
  - destruct (_getReadReceiptsByShownEvent _ _ _ _) as [[m t]| | |] eqn:E;
      cbn [bind fst snd]; try discriminate.
    apply getReadReceiptsByShownEvent_ghosts in E.
    destruct E as [Hg [Hp Hh]].
    cbn [props ghostReadMarkers _showHiddenEventsInTimeline
         set_readReceiptsByEvent] in Hg, Hp, Hh.
    cbn [props set_readReceiptsByEvent]. rewrite Hp.
    destruct (tiles_loop _ _ _ _ _ _ _ _ _ _) as [[ret1 prev]| | |] eqn:El;
      cbn [bind fst]; try discriminate.
    intros [= <- <-]. split; [|eauto].
    unfold same_view. cbn. auto.
  - cbn [bind props set_readReceiptsByEvent].
    destruct (tiles_loop _ _ _ _ _ _ _ _ _ _) as [[ret1 prev]| | |] eqn:El;
      cbn [bind fst]; try discriminate.
    intros [= <- <-]. split; [|eauto].
    unfold same_view. cbn. auto.
Qed.
End Assembly.

(** ** The tiles of the render list *)

Section Tiles.
Variable peg : MatrixClient.
Variable haveTile : MatrixEvent -> bool.
Variable shouldHide : MatrixEvent -> bool.

Local Abbreviation show := (_shouldShowEvent peg haveTile shouldHide).

Lemma firstn_S_nth {A : Type} (l : list A) (n : nat) (x : A) :
  nth_error l n = Some x -> firstn (S n) l = firstn n l ++ [x].
Proof.
  revert l. induction n as [|n IH]; intros [|y l]; cbn [nth_error firstn];
    try discriminate.
  - now intros [= ->].
  - intro H. cbn [app]. f_equal. now apply IH.
Qed.

(** The first result of the backward scan is the last shown event. *)
Lemma reverse_scan_fst (this : PostPanel) (n : nat) (lse : option MatrixEvent) :
  fst (reverse_scan peg haveTile shouldHide this n lse)
  = match lse with
    | Some _ => lse
    | None => last_opt (filter (show this) (firstn n (events (props this))))
    end.
Proof.
  revert lse. induction n as [|n IH]; intro lse; cbn [reverse_scan].
  - destruct lse; reflexivity.
  - destruct (nth_error (events (props this)) n) as [e|] eqn:En.
    + rewrite (firstn_S_nth _ _ _ En), filter_app. cbn [filter].
      destruct (show this e) eqn:Es; cbn [negb].
      * destruct (truthy_opt (status e)).
        -- rewrite IH. destruct lse; [reflexivity|]. now rewrite last_opt_snoc.
        -- cbn [fst]. destruct lse; [reflexivity|]. now rewrite last_opt_snoc.
      * rewrite IH, app_nil_r. reflexivity.
    + rewrite IH. destruct lse; [reflexivity|].
      apply nth_error_None in En.
      now rewrite !firstn_all2 by lia.
Qed.

(** The tile [_getTilesForEvent] returns. *)
Lemma getTilesForEvent_shape (this : PostPanel) (fuel : nat)
    (prev : option MatrixEvent) (e : MatrixEvent) (l : option bool)
    (n nt : option MatrixEvent) (lvl : nat) (tiles : list Node) :
  _getTilesForEvent peg haveTile shouldHide fuel this prev e l n nt lvl
  = Returns tiles ->
  exists p children,
    tiles = [EventTile p children]
    /\ mxEvent p = e /\ level p = lvl
    /\ continuation p = shouldFormContinuation haveTile prev e
    /\ last p = l
    /\ lastSuccessful p = isLastSuccessful peg haveTile shouldHide this e n nt
    /\ readReceipts p = js_get (_readReceiptsByEvent this) (getId e)
    /\ scrollToken p = (if truthy_opt (status e) then None else Some (getId e))
    /\ exists fuel',
         fuel = S fuel'
         /\ mapM (fun s => _getTilesForEvent peg haveTile shouldHide fuel' this
                             None s None None None (lvl + 1))
                 (directSubevents this e) = Returns children.
Proof.
  destruct fuel as [|fuel]; cbn [_getTilesForEvent]; [discriminate|].
  destruct (mapM _ _) as [children| | |] eqn:Em; cbn [bind]; try discriminate.
  intros [= <-]. eexists. exists children. split; [reflexivity|].
  cbn. repeat split. exists fuel. auto.
Qed.

Lemma tiles_step_cases (this : PostPanel) (fuel : nat)
    (lse : option MatrixEvent) (idx : Z) (ret0 ret : list Node)
    (prev0 prev : option MatrixEvent) (i : nat) (e : MatrixEvent) :
  tiles_step peg haveTile shouldHide fuel this lse idx (ret0, prev0) i e
  = Returns (ret, prev) ->
  let marker := match _readMarkerForEvent this (getId e)
                                          (Z.of_nat i >=? idx) with
                | Some mk => [mk]
                | None => []
                end in
  (show this e = true /\ prev = Some e
   /\ exists tiles,
        _getTilesForEvent peg haveTile shouldHide fuel this prev0 e
          (Some (opt_eqb event_eqb (Some e) lse))
          (fst (_getNextEventInfo peg haveTile shouldHide this
                  (events (props this)) i))
          (snd (_getNextEventInfo peg haveTile shouldHide this
                  (events (props this)) i)) 0
        = Returns tiles
        /\ ret = ret0 ++ tiles ++ marker)
  \/ (show this e = false /\ prev = prev0 /\ ret = ret0 ++ marker).
Proof.
  unfold tiles_step.
  destruct (_getNextEventInfo _ _ _ _ _ _) as [n nt]. cbn [fst snd].
  destruct (show this e).
  - destruct (_getTilesForEvent _ _ _ _ _ _ _ _ _ _ _) as [tiles| | |] eqn:Et;
      cbn [bind]; try discriminate.
    destruct (_readMarkerForEvent _ _ _) as [mk|]; intros [= <- <-]; left;
      (split; [reflexivity|]); (split; [reflexivity|]); exists tiles;
      (split; [reflexivity|]).
    + now rewrite app_assoc.
    + now rewrite !app_nil_r.
  - cbn [bind]. destruct (_readMarkerForEvent _ _ _) as [mk|];
      intros [= <- <-]; right; (split; [reflexivity|]);
      (split; [reflexivity|]).
    + reflexivity.
    + now rewrite app_nil_r.
Qed.

Lemma top_tiles_app (a b : list Node) :
  top_tiles (a ++ b) = top_tiles a ++ top_tiles b.
Proof. unfold top_tiles. apply flat_map_app. Qed.

Lemma top_tiles_marker (this : PostPanel) (id : string) (b : bool) :
  top_tiles match _readMarkerForEvent this id b with
            | Some mk => [mk]
            | None => []
            end = [].
Proof.
  unfold _readMarkerForEvent.
  destruct (opt_str_eqb _ _); [reflexivity|].
  destruct (existsb _ _); reflexivity.
Qed.

(** The forward loop makes one top-level tile for each shown event, in log
    order; each tile is a continuation, or not, of the shown event before
    it. *)
Lemma tiles_loop_top_tiles (this : PostPanel) (fuel : nat)
    (lse : option MatrixEvent) (idx : Z) (evs : list MatrixEvent) :
  forall i ret0 prev0 ret prev,
    tiles_loop peg haveTile shouldHide fuel this lse idx evs i (ret0, prev0)
    = Returns (ret, prev) ->
    exists T,
      top_tiles ret = top_tiles ret0 ++ T
      /\ map mxEvent T = filter (show this) evs
      /\ map continuation T
         = continuations haveTile prev0 (filter (show this) evs)
      /\ Forall (fun p =>
                   level p = 0%nat
                   /\ last p = Some (opt_eqb event_eqb (Some (mxEvent p)) lse)
                   /\ readReceipts p
                      = js_get (_readReceiptsByEvent this)
                               (getId (mxEvent p))) T.
Proof.
  induction evs as [|e evs IH]; intros i ret0 prev0 ret prev; cbn [tiles_loop].
  - intros [= <- <-]. exists []. rewrite app_nil_r. repeat split. constructor.
  - destruct (tiles_step _ _ _ _ _ _ _ _ _ _) as [[ret1 prev1]| | |] eqn:Es;
      cbn [bind]; try discriminate.
    intro Hl. apply tiles_step_cases in Es.
    destruct (IH _ _ _ _ _ Hl) as [T [Htop [Hev [Hco Hall]]]]. clear IH Hl.
    cbn [filter].
    destruct Es as [[Hs [-> [tiles [Ht ->]]]]|[Hs [-> ->]]]; rewrite Hs.
    + apply getTilesForEvent_shape in Ht.
      destruct Ht as [p [children [-> [Hp1 [Hp2 [Hp3 [Hp4 [_ [Hp6 _]]]]]]]]].
      exists (p :: T). rewrite Htop, !top_tiles_app, top_tiles_marker.
      rewrite app_nil_r. unfold top_tiles at 2.
      cbn [flat_map app map continuations].
      rewrite <- !app_assoc. cbn [app].
      repeat split.
      * now rewrite Hp1, Hev.
      * now rewrite Hp3, Hco.
      * constructor; [|exact Hall]. rewrite Hp1. auto.
    + exists T. rewrite Htop, top_tiles_app, top_tiles_marker, app_nil_r.
      auto.
Qed.

(** The top-level tile of a shown event carries the last-successful flag
    computed from the look-ahead at the event's index. *)
Lemma tiles_loop_flags (this : PostPanel) (fuel : nat)
    (lse : option MatrixEvent) (idx : Z) (evs : list MatrixEvent) :
  forall i ret0 prev0 ret prev,
    tiles_loop peg haveTile shouldHide fuel this lse idx evs i (ret0, prev0)
    = Returns (ret, prev) ->
    (forall p, In p (top_tiles ret0) -> In p (top_tiles ret))
    /\ forall j e,
         nth_error evs j = Some e -> show this e = true ->
         exists p,
           In p (top_tiles ret) /\ mxEvent p = e
           /\ lastSuccessful p
              = isLastSuccessful peg haveTile shouldHide this e
                  (fst (_getNextEventInfo peg haveTile shouldHide this
                          (events (props this)) (i + j)))
                  (snd (_getNextEventInfo peg haveTile shouldHide this
                          (events (props this)) (i + j))).
Proof.
  induction evs as [|e evs IH]; intros i ret0 prev0 ret prev; cbn [tiles_loop].
  - intros [= <- <-]. split; [auto|]. intros [|j] e H; discriminate.
  - destruct (tiles_step _ _ _ _ _ _ _ _ _ _) as [[ret1 prev1]| | |] eqn:Es;
      cbn [bind]; try discriminate.
    intro Hl. apply tiles_step_cases in Es.
    destruct (IH _ _ _ _ _ Hl) as [Hkeep Hflag]. clear IH Hl.
    destruct Es as [[Hs [-> [tiles [Ht ->]]]]|[Hs [-> ->]]].
    + apply getTilesForEvent_shape in Ht.
      destruct Ht as [p [children [-> [Hp1 [_ [_ [_ [Hp5 _]]]]]]]].
      split.
      * intros q Hq. apply Hkeep. rewrite top_tiles_app. apply in_or_app.
        now left.
      * intros [|j] e' He' Hs'.
        -- injection He' as <-. exists p. rewrite Nat.add_0_r.
           split; [|auto]. apply Hkeep. rewrite !top_tiles_app.
           apply in_or_app. right. apply in_or_app. left. now left.
        -- destruct (Hflag j e' He' Hs') as [q Hq]. exists q.
           now rewrite <- Nat.add_succ_comm.
    + split.
      * intros q Hq. apply Hkeep. rewrite top_tiles_app. apply in_or_app.
        now left.
      * intros [|j] e' He' Hs'.
        -- injection He' as <-. congruence.
        -- destruct (Hflag j e' He' Hs') as [q Hq]. exists q.
           now rewrite <- Nat.add_succ_comm.
Qed.

(** The tiles of an event are its thread, as a tree. *)
Lemma getTilesForEvent_tree (this this0 : PostPanel) (fuel : nat) :
  props this = props this0 ->
  forall prev e last n nt lvl tiles,
    _getTilesForEvent peg haveTile shouldHide fuel this prev e last n nt lvl
    = Returns tiles ->
    exists node, tiles = [node] /\ thread_tree this0 lvl e node.
Proof.
  intro Hp. induction fuel as [|fuel IH];
    intros prev e last n nt lvl tiles; cbn [_getTilesForEvent]; [discriminate|].
  destruct (mapM _ _) as [children| | |] eqn:Em; cbn [bind]; try discriminate.
  intros [= <-]. eexists. split; [reflexivity|].
  constructor; [reflexivity | reflexivity|]. cbn [mxEvent].
  rewrite <- (directSubevents_same this this0 e Hp).
  revert children Em.
  induction (directSubevents this e) as [|s subs IHs]; intros children Em.
  - simpl in Em. injection Em as <-. constructor.
  - apply mapM_cons_inv in Em. destruct Em as [c [cs [Hc [Hcs ->]]]].
    destruct (IH _ _ _ _ _ _ _ Hc) as [node [-> Hnode]].
    constructor; [exact Hnode | now apply IHs].
Qed.

Lemma readMarkerForEvent_marker_at (this : PostPanel) (id : string) (b : bool) :
  marker_at this id match _readMarkerForEvent this id b with
                    | Some mk => [mk]
                    | None => []
                    end.
Proof.
  unfold marker_at, _readMarkerForEvent.
  destruct (opt_str_eqb _ _); [eauto|].
  destruct (existsb _ _); reflexivity.
Qed.

Lemma marker_at_same (this this0 : PostPanel) (id : string) (l : list Node) :
  same_view this this0 -> marker_at this id l -> marker_at this0 id l.
Proof.
  intros [Hp [Hg _]]. unfold marker_at. now rewrite Hp, Hg.
Qed.

(** The forward loop renders the rest of the log as a list of threads and
    marker nodes. *)
Lemma tiles_loop_tree (this this0 : PostPanel) (fuel : nat)
    (lse : option MatrixEvent) (idx : Z) (evs : list MatrixEvent) :
  same_view this this0 ->
  forall i ret0 prev0 ret prev,
    tiles_loop peg haveTile shouldHide fuel this lse idx evs i (ret0, prev0)
    = Returns (ret, prev) ->
    exists nodes, log_tree peg haveTile shouldHide this0 evs nodes
                  /\ ret = ret0 ++ nodes.
Proof.
  intro Hv. assert (Hv' := Hv). destruct Hv' as [Hp [Hg Hh]].
  induction evs as [|e evs IH]; intros i ret0 prev0 ret prev; cbn [tiles_loop].
  - intros [= <- <-]. exists []. split; [constructor | now rewrite app_nil_r].
  - destruct (tiles_step _ _ _ _ _ _ _ _ _ _) as [[ret1 prev1]| | |] eqn:Es;
      cbn [bind]; try discriminate.
    intro Hl. apply tiles_step_cases in Es.
    destruct (IH _ _ _ _ _ Hl) as [nodes [Ho Hr]]. clear IH Hl.
    assert (Hmk := marker_at_same this this0 _ _ Hv
                     (readMarkerForEvent_marker_at this (getId e)
                        (Z.of_nat i >=? idx))).
    destruct Es as [[Hs [_ [tiles [Ht ->]]]]|[Hs [_ ->]]].
    + destruct (getTilesForEvent_tree this this0 fuel Hp _ _ _ _ _ _ _ Ht)
        as [node [-> Hnode]].
      eexists. split.
      * apply log_tree_shown; [|exact Hnode | exact Hmk | exact Ho].
        rewrite <- Hs. symmetry. now apply shouldShowEvent_same.
      * rewrite Hr, <- !app_assoc. reflexivity.
    + eexists. split.
      * apply log_tree_hidden; [|exact Hmk | exact Ho].
        rewrite <- Hs. symmetry. now apply shouldShowEvent_same.
      * rewrite Hr, <- !app_assoc. reflexivity.
Qed.

(** The tiles nested in the tile of an event are made without look-ahead:
    they are no continuations, have no [last] flag, and are flagged last
    successful when their event is sent and from the local user. *)
Lemma getTilesForEvent_nested (this : PostPanel) (fuel : nat) :
  forall prev e l n nt lvl tiles,
    _getTilesForEvent peg haveTile shouldHide fuel this prev e l n nt lvl
    = Returns tiles ->
    Forall (fun q =>
              continuation q = false /\ last q = None
              /\ lastSuccessful q
                 = isSentState (getAssociatedStatus (mxEvent q))
                   && opt_str_eqb (Some (getSender (mxEvent q)))
                                  (getUserId peg))
           (nested_tiles tiles).
Proof.
  induction fuel as [|fuel IH]; intros prev e l n nt lvl tiles;
    cbn [_getTilesForEvent]; [discriminate|].
  destruct (mapM _ _) as [children| | |] eqn:Em; cbn [bind]; try discriminate.
  intros [= <-]. unfold nested_tiles. cbn [flat_map]. rewrite app_nil_r.
  revert children Em.
  induction (directSubevents this e) as [|s subs IHs]; intros children Em.
  - simpl in Em. injection Em as <-. constructor.
  - apply mapM_cons_inv in Em. destruct Em as [c [cs [Hc [Hcs ->]]]].
    cbn [flat_map]. apply Forall_app. split; [|now apply IHs].
    assert (Hnested := IH _ _ _ _ _ _ _ Hc).
    apply getTilesForEvent_shape in Hc.
    destruct Hc as [q [grand [-> [Hq1 [_ [Hq3 [Hq4 [Hq5 _]]]]]]]].
    cbn [flat_map tiles_of]. rewrite app_nil_r.
    constructor.
    + rewrite Hq1, Hq3, Hq4, Hq5. repeat split.
      apply isLastSuccessful_alone.
    + unfold nested_tiles in Hnested. cbn [flat_map] in Hnested.
      now rewrite app_nil_r in Hnested.
Qed.

Lemma nested_tiles_app (a b : list Node) :
  nested_tiles (a ++ b) = nested_tiles a ++ nested_tiles b.
Proof. unfold nested_tiles. apply flat_map_app. Qed.

Lemma nested_tiles_marker (this : PostPanel) (id : string) (b : bool) :
  nested_tiles match _readMarkerForEvent this id b with
               | Some mk => [mk]
               | None => []
               end = [].
Proof.
  unfold _readMarkerForEvent.
  destruct (opt_str_eqb _ _); [reflexivity|].
  destruct (existsb _ _); reflexivity.
Qed.

Lemma tiles_loop_nested (this : PostPanel) (fuel : nat)
    (lse : option MatrixEvent) (idx : Z) (evs : list MatrixEvent) :
  forall i ret0 prev0 ret prev,
    tiles_loop peg haveTile shouldHide fuel this lse idx evs i (ret0, prev0)
    = Returns (ret, prev) ->
    exists T,
      nested_tiles ret = nested_tiles ret0 ++ T
      /\ Forall (fun q =>
                   continuation q = false /\ last q = None
                   /\ lastSuccessful q
                      = isSentState (getAssociatedStatus (mxEvent q))
                        && opt_str_eqb (Some (getSender (mxEvent q)))
                                       (getUserId peg)) T.
Proof.
  induction evs as [|e evs IH]; intros i ret0 prev0 ret prev; cbn [tiles_loop].
  - intros [= <- <-]. exists []. rewrite app_nil_r. split; [reflexivity|].
    constructor.
  - destruct (tiles_step _ _ _ _ _ _ _ _ _ _) as [[ret1 prev1]| | |] eqn:Es;
      cbn [bind]; try discriminate.
    intro Hl. apply tiles_step_cases in Es.
    destruct (IH _ _ _ _ _ Hl) as [T [Htop Hall]]. clear IH Hl.
    destruct Es as [[_ [_ [tiles [Ht ->]]]]|[_ [_ ->]]].
    + exists (nested_tiles tiles ++ T).
      rewrite Htop, !nested_tiles_app, nested_tiles_marker, app_nil_r.
      rewrite <- app_assoc. split; [reflexivity|].
      apply Forall_app. split; [|exact Hall].
      exact (getTilesForEvent_nested this fuel _ _ _ _ _ _ _ Ht).
    + exists T. rewrite Htop, nested_tiles_app, nested_tiles_marker, app_nil_r.
      auto.
Qed.
End Tiles.

(** C8.  For an event of the log whose id is the read-marker event id,
    [_readMarkerForEvent] yields the marker node of that event, and the
    node has its rule exactly when [readMarkerVisible] holds and a shown
    event that is not a local echo comes later in the log, that is when the
    event is before the last shown non-local-echo index.  The node is in the
    render list of every call of [_getEventTiles] that returns, and a call
    on a log with distinct ids, with the room there and plain keys if
    receipts are shown, and with more fuel than the log is long, returns. *)
Theorem read_marker_anchor peg haveTile shouldHide (this : PostPanel)
    (i : nat) (e : MatrixEvent) :
  nth_error (events (props this)) i = Some e ->
  readMarkerEventId (props this) = Some (getId e) ->
  let isLastEvent :=
    Z.of_nat i >=? snd (reverse_scan peg haveTile shouldHide this
                          (List.length (events (props this))) None) in
  let hr := negb isLastEvent && readMarkerVisible (props this) in
  _readMarkerForEvent this (getId e) isLastEvent
  = Some (ReadMarker (getId e) hr)
  /\ (hr = true <->
      readMarkerVisible (props this) = true
      /\ exists j e', (i < j)%nat
           /\ nth_error (events (props this)) j = Some e'
           /\ _shouldShowEvent peg haveTile shouldHide this e' = true
           /\ truthy_opt (status e') = false)
  /\ (forall fuel ret this',
        _getEventTiles peg haveTile shouldHide fuel this = Returns (ret, this') ->
        In (ReadMarker (getId e) hr) ret)
  /\ (NoDup (map getId (events (props this))) ->
      receipts_ready peg haveTile shouldHide this ->
      forall fuel, (List.length (events (props this)) < fuel)%nat ->
        exists ret this',
          _getEventTiles peg haveTile shouldHide fuel this = Returns (ret, this')
          /\ In (ReadMarker (getId e) hr) ret).
Proof.
  intros Hi Hm isLastEvent hr.
  assert (Hnode : _readMarkerForEvent this (getId e) isLastEvent
                  = Some (ReadMarker (getId e) hr)).
  { unfold _readMarkerForEvent. rewrite Hm.
    now rewrite (proj2 (opt_str_eqb_eq _ _) eq_refl). }
  assert (Hin : forall fuel ret this',
            _getEventTiles peg haveTile shouldHide fuel this = Returns (ret, this') ->
            In (ReadMarker (getId e) hr) ret).
  { intros fuel ret this' H. apply getEventTiles_inv in H.
    destruct H as [Hv [prev Hl]].
    apply tiles_loop_marker in Hl. destruct Hl as [_ Hl].
    apply (Hl i e); [assumption|]. simpl.
    rewrite (readMarkerForEvent_same this' this _ _ Hv). exact Hnode. }
  split; [exact Hnode|]. split; [|split; [exact Hin|]].
  - unfold hr. rewrite andb_true_iff, negb_true_iff.
    unfold isLastEvent. rewrite before_last_shown_non_echo. tauto.
  - intros Hnd Hroom fuel Hfuel.
    destruct (getEventTiles_returns peg haveTile shouldHide this fuel Hnd Hroom
                Hfuel) as [ret [this' H]].
    exists ret, this'. split; [assumption|]. now apply (Hin fuel ret this').
Qed.

(** The thread scenario has the marker on [$S], before the last shown
    event [$T]: the node has its rule.  With the marker on [$T] itself the
    node is still there, without the rule. *)
Lemma read_marker_anchor_witness :
  (exists ret this',
     _getEventTiles Sample.client Sample.always Sample.never 4 Sample.thread_panel
     = Returns (ret, this')
     /\ In (ReadMarker "$S" true) ret)
  /\ _readMarkerForEvent
       (Sample.panel Sample.thread_log (Some Sample.folding_room) (Some "$T")
          true [] [])
       "$T"
       (2 >=? snd (reverse_scan Sample.client Sample.always Sample.never
                     (Sample.panel Sample.thread_log (Some Sample.folding_room)
                        (Some "$T") true [] [])
                     3 None))
     = Some (ReadMarker "$T" false).
Proof.
  split.
  - eexists. eexists. split; [reflexivity|].
    apply (proj1 (proj2 (proj2
             (read_marker_anchor Sample.client Sample.always Sample.never
                Sample.thread_panel 0 (Sample.message "$S" Sample.alice 10 None)
                eq_refl eq_refl))) 4%nat _ _ eq_refl).
  - apply (proj1 (read_marker_anchor Sample.client Sample.always Sample.never
                    (Sample.panel Sample.thread_log (Some Sample.folding_room)
                       (Some "$T") true [] [])
                    2 (Sample.message "$T" Sample.alice 30 None)
                    eq_refl eq_refl)).
Defined.

(** C9 as stated fails.  The read-marker check is not confined to shown
    events: in a log whose only event is hidden and carries the read marker,
    the render list is the marker node alone, which is not an order whose
    markers all follow the tile of a shown event. *)
Lemma render_order_counterexample :
  ~ (forall ret this',
       _getEventTiles Sample.client Sample.always Sample.never 1
         Sample.marker_on_hidden = Returns (ret, this') ->
       log_order Sample.client Sample.always Sample.never false
         Sample.marker_on_hidden (events (props Sample.marker_on_hidden))
         (render_order ret)).
Proof.
  intro H. specialize (H _ _ eq_refl).
  inversion H as [|e evs t rest Hs Ht Hrest|e evs rest Hs Hrest]; subst.
  - discriminate Hs.
  - inversion Hrest; subst. discriminate.
Qed.

Section Flags.
Variable peg : MatrixClient.
Variable haveTile : MatrixEvent -> bool.
Variable shouldHide : MatrixEvent -> bool.

Local Abbreviation show := (_shouldShowEvent peg haveTile shouldHide).

Lemma find_ext {A : Type} (f g : A -> bool) (l : list A) :
  (forall x, f x = g x) -> find f l = find g l.
Proof.
  intro H. induction l as [|x l IH]; cbn [find]; [reflexivity|].
  rewrite H, IH. reflexivity.
Qed.

Lemma lastSuccessfulAt_same (this this' : PostPanel) (i : nat) :
  same_view this' this ->
  lastSuccessfulAt peg haveTile shouldHide this' i
  = lastSuccessfulAt peg haveTile shouldHide this i.
Proof.
  intros [Hp [_ Hh]]. unfold lastSuccessfulAt, _getNextEventInfo. rewrite Hp.
  rewrite (find_ext (show this') (show this))
    by (intro x; now apply shouldShowEvent_same).
  destruct (nth_error (events (props this)) i) as [e|]; [|reflexivity].
  unfold isLastSuccessful.
  destruct (if Z.of_nat i <? _ then _ else _) as [n|]; [|reflexivity].
  now rewrite (shouldShowEvent_same peg haveTile shouldHide this this' n Hp Hh).
Qed.

(** In the list a render returns, the top-level tile of the shown event at
    an index of the log carries the flag computed at that index. *)
Lemma tile_flag_of_returns (this this' : PostPanel) (fuel : nat)
    (ret : list Node) :
  _getEventTiles peg haveTile shouldHide fuel this = Returns (ret, this') ->
  forall j e,
    nth_error (events (props this)) j = Some e ->
    show this e = true ->
    exists p,
      In p (top_tiles ret) /\ mxEvent p = e
      /\ lastSuccessfulAt peg haveTile shouldHide this j
         = Some (lastSuccessful p).
Proof.
  intros H j e Hj Hs. apply getEventTiles_inv in H.
  destruct H as [Hv [prev Hl]].
  apply tiles_loop_flags in Hl. destruct Hl as [_ Hflag].
  assert (Hv' := Hv). destruct Hv' as [Hp [_ Hh]].
  destruct (Hflag j e Hj) as [p [Hin [He Hf]]].
  { rewrite <- Hs. now apply shouldShowEvent_same. }
  exists p. split; [exact Hin|]. split; [exact He|].
  rewrite <- (lastSuccessfulAt_same this this' j Hv).
  unfold lastSuccessfulAt. rewrite Hp, Hj.
  cbn [Nat.add] in Hf. rewrite Hp in Hf. rewrite Hf.
  now destruct (_getNextEventInfo _ _ _ _ _ _).
Qed.

(** The tiles nested in the tiles of a render list are made without
    look-ahead. *)
Lemma nested_flags_of_returns (this this' : PostPanel) (fuel : nat)
    (ret : list Node) :
  _getEventTiles peg haveTile shouldHide fuel this = Returns (ret, this') ->
  Forall (fun q =>
            continuation q = false /\ last q = None
            /\ lastSuccessful q
               = isSentState (getAssociatedStatus (mxEvent q))
                 && opt_str_eqb (Some (getSender (mxEvent q))) (getUserId peg))
         (nested_tiles ret).
Proof.
  intro H. apply getEventTiles_inv in H. destruct H as [_ [prev Hl]].
  apply tiles_loop_nested in Hl. destruct Hl as [T [HT Hall]].
  rewrite HT. exact Hall.
Qed.
End Flags.

(** C9, amended.  The render list follows the log: for each event in
    order, the thread of the event if it is shown, then the marker or ghost
    node anchored at the event, if it has one.  The thread of an event is
    its tile with, nested in it as children, the threads of its direct
    sub-events in log order, one level deeper; so in document order a tile
    is directly followed by the tiles of its sub-events.  The read-marker
    check is made after every event of the log, shown or not, so the node of
    a hidden event stands at the event's place in the log.  A call on a log
    with distinct ids, with the room there and plain keys if receipts are
    shown, and with more fuel than the log is long, returns such a list. *)
Theorem render_list_order peg haveTile shouldHide (this : PostPanel) :
  (forall fuel ret this',
     _getEventTiles peg haveTile shouldHide fuel this = Returns (ret, this') ->
     log_tree peg haveTile shouldHide this (events (props this)) ret
     /\ log_order peg haveTile shouldHide true this (events (props this))
                  (render_order ret))
  /\ (NoDup (map getId (events (props this))) ->
      receipts_ready peg haveTile shouldHide this ->
      forall fuel, (List.length (events (props this)) < fuel)%nat ->
        exists ret this',
          _getEventTiles peg haveTile shouldHide fuel this = Returns (ret, this')
          /\ log_tree peg haveTile shouldHide this (events (props this)) ret
          /\ log_order peg haveTile shouldHide true this (events (props this))
                       (render_order ret)).
Proof.
  assert (Hord : forall fuel ret this',
            _getEventTiles peg haveTile shouldHide fuel this = Returns (ret, this') ->
            log_tree peg haveTile shouldHide this (events (props this)) ret
            /\ log_order peg haveTile shouldHide true this (events (props this))
                         (render_order ret)).
  { intros fuel ret this' H. apply getEventTiles_inv in H.
    destruct H as [Hv [prev Hl]]. split.
    - apply (tiles_loop_tree peg haveTile shouldHide this' this) in Hl;
        [|assumption].
      destruct Hl as [nodes [Ho Hr]]. rewrite Hr. exact Ho.
    - apply (tiles_loop_order peg haveTile shouldHide this' this) in Hl;
        [|assumption].
      destruct Hl as [items [Ho Hr]]. rewrite Hr. exact Ho. }
  split; [exact Hord|].
  intros Hnd Hroom fuel Hfuel.
  destruct (getEventTiles_returns peg haveTile shouldHide this fuel Hnd Hroom
              Hfuel) as [ret [this' H]].
  exists ret, this'. split; [assumption|]. now apply (Hord fuel ret this').
Qed.

(** The thread scenario: the tile of [$S] with the tile of its reply [$R]
    nested in it, the marker of [$S], then the tile of [$T]. *)
Lemma render_list_order_witness :
  exists ret this',
    _getEventTiles Sample.client Sample.always Sample.never 4 Sample.thread_panel
    = Returns (ret, this')
    /\ render_order ret
       = [TileOf "$S" 0; TileOf "$R" 1; MarkerAt "$S"; TileOf "$T" 0]
    /\ map (fun p => getId (mxEvent p)) (top_tiles ret) = ["$S"; "$T"]
    /\ map (fun p => getId (mxEvent p)) (nested_tiles ret) = ["$R"]
    /\ log_tree Sample.client Sample.always Sample.never
         Sample.thread_panel Sample.thread_log ret.
Proof.
  eexists. eexists. split; [reflexivity|]. split; [reflexivity|].
  split; [reflexivity|]. split; [reflexivity|].
  apply (proj1 (proj1 (render_list_order Sample.client Sample.always
                         Sample.never Sample.thread_panel)
                 4%nat _ _ eq_refl)).
Defined.

(** C2 as stated fails.  The tile of a reply is made by the recursion of
    [_getTilesForEvent] without look-ahead: in the thread scenario the
    reply [$R] of the local user is sent, and its tile is flagged, although
    the next shown event of the log, [$T], is sent. *)
Lemma last_successful_counterexample :
  ~ (forall ret this',
       _getEventTiles Sample.client Sample.always Sample.never 4
         Sample.thread_panel = Returns (ret, this') ->
       flags_as_claimed Sample.client Sample.always Sample.never
         Sample.thread_panel ret).
Proof.
  intro H. specialize (H _ _ eq_refl).
  refine (let Hp := H _ (or_intror (or_introl eq_refl)) eq_refl in _).
  destruct Hp as [_ [_ Hnext]].
  specialize (Hnext 1%nat (Sample.reply "$R" "$S" Sample.me 20)
                (Sample.message "$T" Sample.alice 30 None)
                eq_refl eq_refl eq_refl).
  discriminate Hnext.
Qed.

(** C2, amended.  The flag [_getTilesForEvent] computes is true exactly
    when the sender is the local user, the event's own status is absent or
    [sent], the next event is missing, not shown, or shown and not yet
    sent, and the next event with a tile, if it is another object than the
    next event, has a status that is neither absent nor [sent].  In the
    list a render returns, the top-level tile of a shown event carries this
    flag for the look-ahead at the event's index, which in a log of
    well-formed objects holds exactly of a sent event of the local user
    whose next shown event, hidden events skipped, is missing or not yet
    sent; so for a run of three shown events of the local user whose
    statuses are sent, sent, not sent, the tiles are flagged false, true,
    false.  A tile nested in another one, the tile of a reply, has no
    look-ahead: it is flagged exactly when its event is sent and from the
    local user, whatever follows it in the log.  A render of a log with
    distinct ids returns, with the room there and plain keys if receipts are
    shown, and with more fuel than the log is long. *)
Theorem last_successful_tiles peg haveTile shouldHide (this : PostPanel) :
  (forall mxEv nextEvent nextEventWithTile,
     isLastSuccessful peg haveTile shouldHide this mxEv nextEvent
                      nextEventWithTile = true <->
     (Some (getSender mxEv) = getUserId peg
      /\ isSentState (getAssociatedStatus mxEv) = true
      /\ ((forall n, nextEvent = Some n ->
             _shouldShowEvent peg haveTile shouldHide this n = false)
          \/ (exists n, nextEvent = Some n
                /\ _shouldShowEvent peg haveTile shouldHide this n = true
                /\ isSentState (getAssociatedStatus n) = false))
      /\ (forall t, nextEventWithTile = Some t ->
            opt_eqb event_eqb (Some t) nextEvent = false ->
            isSentState (getAssociatedStatus t) = false)))
  /\ (forall fuel ret this',
        _getEventTiles peg haveTile shouldHide fuel this = Returns (ret, this') ->
        (forall j e,
           nth_error (events (props this)) j = Some e ->
           _shouldShowEvent peg haveTile shouldHide this e = true ->
           exists p,
             In p (top_tiles ret) /\ mxEvent p = e
             /\ lastSuccessfulAt peg haveTile shouldHide this j
                = Some (lastSuccessful p)
             /\ (objects_wf (events (props this)) ->
                 lastSuccessful p
                 = isSentState (getAssociatedStatus e)
                   && match find (_shouldShowEvent peg haveTile shouldHide this)
                                 (skipn (j + 1) (events (props this))) with
                      | Some t => negb (isSentState (getAssociatedStatus t))
                      | None => true
                      end
                   && opt_str_eqb (Some (getSender e)) (getUserId peg)))
        /\ (forall pre e1 e2 e3 post,
              events (props this) = pre ++ e1 :: e2 :: e3 :: post ->
              (forall e, In e [e1; e2; e3] ->
                 _shouldShowEvent peg haveTile shouldHide this e = true
                 /\ Some (getSender e) = getUserId peg) ->
              isSentState (getAssociatedStatus e1) = true ->
              isSentState (getAssociatedStatus e2) = true ->
              isSentState (getAssociatedStatus e3) = false ->
              exists p1 p2 p3,
                In p1 (top_tiles ret) /\ In p2 (top_tiles ret)
                /\ In p3 (top_tiles ret)
                /\ mxEvent p1 = e1 /\ mxEvent p2 = e2 /\ mxEvent p3 = e3
                /\ lastSuccessful p1 = false /\ lastSuccessful p2 = true
                /\ lastSuccessful p3 = false)
        /\ Forall (fun q =>
                     lastSuccessful q
                     = isSentState (getAssociatedStatus (mxEvent q))
                       && opt_str_eqb (Some (getSender (mxEvent q)))
                                      (getUserId peg))
                  (nested_tiles ret))
  /\ (NoDup (map getId (events (props this))) ->
      receipts_ready peg haveTile shouldHide this ->
      forall fuel, (List.length (events (props this)) < fuel)%nat ->
        exists ret this',
          _getEventTiles peg haveTile shouldHide fuel this
          = Returns (ret, this')).
Proof.
  split; [|split].
  - intros mxEv nextEvent nextTile. apply isLastSuccessful_iff.
  - intros fuel ret this' H.
    assert (Hflag := tile_flag_of_returns peg haveTile shouldHide this this'
                       fuel ret H).
    split; [|split].
    + intros j e Hj Hs. destruct (Hflag j e Hj Hs) as [p [Hin [He Hf]]].
      exists p. split; [exact Hin|]. split; [exact He|]. split; [exact Hf|].
      intro Hwf.
      rewrite (lastSuccessfulAt_next_shown peg haveTile shouldHide this j e
                 Hwf Hj) in Hf.
      now injection Hf.
    + intros pre e1 e2 e3 post Hev Hall S1 S2 S3.
      destruct (lastSuccessfulAt_run peg haveTile shouldHide this pre post
                  e1 e2 e3 Hev Hall S1 S2 S3)
        as [N1 [N2 [N3 [F1 [F2 F3]]]]].
      destruct (Hflag _ e1 N1) as [p1 [I1 [E1 G1]]];
        [apply Hall; now left|].
      destruct (Hflag _ e2 N2) as [p2 [I2 [E2 G2]]];
        [apply Hall; right; now left|].
      destruct (Hflag _ e3 N3) as [p3 [I3 [E3 G3]]];
        [apply Hall; right; right; now left|].
      exists p1, p2, p3. repeat split; try assumption; congruence.
    + assert (Hn := nested_flags_of_returns peg haveTile shouldHide this this'
                      fuel ret H).
      eapply Forall_impl; [|exact Hn]. intros q [_ [_ Hq]]. exact Hq.
  - intros Hnd Hroom fuel Hfuel.
    now apply getEventTiles_returns.
Qed.

(** Three messages of the local user, sent, sent and not sent: the tile of
    the second one is the last successful one.  And in the thread scenario
    the tile of the reply [$R] of the local user is flagged. *)
Lemma last_successful_tiles_witness :
  (exists ret this',
     _getEventTiles Sample.client Sample.always Sample.never 4
       (Sample.panel
          [Sample.message "$1" Sample.me 1 None;
           Sample.message "$2" Sample.me 2 (Some "sent");
           Sample.message "$3" Sample.me 3 (Some "not_sent")]
          (Some Sample.folding_room) None false [] [])
     = Returns (ret, this')
     /\ map lastSuccessful (top_tiles ret) = [false; true; false]
     /\ exists p1 p2 p3,
          In p1 (top_tiles ret) /\ In p2 (top_tiles ret)
          /\ In p3 (top_tiles ret)
          /\ getId (mxEvent p1) = "$1" /\ getId (mxEvent p2) = "$2"
          /\ getId (mxEvent p3) = "$3"
          /\ lastSuccessful p1 = false /\ lastSuccessful p2 = true
          /\ lastSuccessful p3 = false)
  /\ (exists ret this',
        _getEventTiles Sample.client Sample.always Sample.never 4
          Sample.thread_panel = Returns (ret, this')
        /\ map (fun q => (getId (mxEvent q), lastSuccessful q))
               (nested_tiles ret) = [("$R", true)]).
Proof.
  split.
  - eexists. eexists. split; [reflexivity|]. split; [reflexivity|].
    destruct (proj1 (proj2 (proj1 (proj2
                (last_successful_tiles Sample.client Sample.always
                   Sample.never
                   (Sample.panel
                      [Sample.message "$1" Sample.me 1 None;
                       Sample.message "$2" Sample.me 2 (Some "sent");
                       Sample.message "$3" Sample.me 3 (Some "not_sent")]
                      (Some Sample.folding_room) None false [] [])))
                4%nat _ _ eq_refl))
              [] (Sample.message "$1" Sample.me 1 None)
              (Sample.message "$2" Sample.me 2 (Some "sent"))
              (Sample.message "$3" Sample.me 3 (Some "not_sent")) []
              eq_refl)
      as [p1 [p2 [p3 [I1 [I2 [I3 [E1 [E2 [E3 [F1 [F2 F3]]]]]]]]]]].
    + intros e [<-|[<-|[<-|[]]]]; split; reflexivity.
    + reflexivity.
    + reflexivity.
    + reflexivity.
    + exists p1, p2, p3. rewrite E1, E2, E3. repeat split; assumption.
  - eexists. eexists. split; [reflexivity|]. reflexivity.
Defined.

(** * Further properties of the component *)

(** ** The visibility filter *)

(** X1.  An event is shown exactly when its sender, if it has one, is not
    ignored, its type is [m.sticker] or [m.room.message], it is not a reply,
    it is not redacted, and either hidden events are shown, or it has a tile
    and is the highlighted event or is not hidden by default. *)
Theorem shouldShowEvent_iff peg haveTile shouldHide (this : PostPanel)
    (mxEv : MatrixEvent) :
  _shouldShowEvent peg haveTile shouldHide this mxEv = true <->
  (forall s, sender mxEv = Some s -> isUserIgnored peg (userId s) = false)
  /\ In (getType mxEv) ["m.sticker"; "m.room.message"]
  /\ in_reply_to mxEv = None
  /\ isRedacted mxEv = false
  /\ (_showHiddenEventsInTimeline this = true
      \/ (haveTile mxEv = true
          /\ (highlightedEventId (props this) = Some (getId mxEv)
              \/ shouldHide mxEv = false))).
Proof.
  unfold _shouldShowEvent, is_reply.
  rewrite <- (includes_In messageTypes).
  destruct (sender mxEv) as [s|] eqn:Es.
  - destruct (isUserIgnored peg (userId s)) eqn:Ei.
    + split; [discriminate|]. intros [H _]. specialize (H s eq_refl). congruence.
    + destruct (includes messageTypes (getType mxEv)); cbn [negb];
        [|split; [discriminate | intros [_ [H _]]; discriminate]].
      destruct (in_reply_to mxEv);
        [split; [discriminate | intros [_ [_ [H _]]]; discriminate]|].
      destruct (isRedacted mxEv);
        [split; [discriminate | intros [_ [_ [_ [H _]]]]; discriminate]|].
      destruct (_showHiddenEventsInTimeline this).
      { split; [|reflexivity]. intros _. repeat split; auto.
        intros s' [= <-]. assumption. }
      destruct (haveTile mxEv); cbn [negb].
      2:{ split; [discriminate|]. intros [_ [_ [_ [_ [H|[H _]]]]]]; discriminate. }
      destruct (opt_str_eqb _ _) eqn:Eh.
      { apply opt_str_eqb_eq in Eh. split; [|reflexivity]. intros _.
        repeat split; auto. intros s' [= <-]. assumption. }
      destruct (shouldHide mxEv); cbn [negb].
      * split; [discriminate|].
        intros [_ [_ [_ [_ [H|[_ [H|H]]]]]]]; try discriminate.
        apply opt_str_eqb_eq in H. congruence.
      * split; [|reflexivity]. intros _. repeat split; auto.
        intros s' [= <-]. assumption.
  - destruct (includes messageTypes (getType mxEv)); cbn [negb];
      [|split; [discriminate | intros [_ [H _]]; discriminate]].
    destruct (in_reply_to mxEv);
      [split; [discriminate | intros [_ [_ [H _]]]; discriminate]|].
    destruct (isRedacted mxEv);
      [split; [discriminate | intros [_ [_ [_ [H _]]]]; discriminate]|].
    destruct (_showHiddenEventsInTimeline this).
    { split; [|reflexivity]. intros _. repeat split; auto. intros s' H.
      discriminate. }
    destruct (haveTile mxEv); cbn [negb].
    2:{ split; [discriminate|]. intros [_ [_ [_ [_ [H|[H _]]]]]]; discriminate. }
    destruct (opt_str_eqb _ _) eqn:Eh.
    { apply opt_str_eqb_eq in Eh. split; [|reflexivity]. intros _.
      repeat split; auto. intros s' H. discriminate. }
    destruct (shouldHide mxEv); cbn [negb].
    + split; [discriminate|].
      intros [_ [_ [_ [_ [H|[_ [H|H]]]]]]]; try discriminate.
      apply opt_str_eqb_eq in H. congruence.
    + split; [|reflexivity]. intros _. repeat split; auto.
      intros s' H. discriminate.
Qed.

(** A message of Alice is shown; a reply is not. *)
Lemma shouldShowEvent_iff_witness :
  _shouldShowEvent Sample.client Sample.always Sample.never Sample.thread_panel
    (Sample.message "$S" Sample.alice 10 None) = true
  /\ _shouldShowEvent Sample.client Sample.always Sample.never
       Sample.thread_panel (Sample.reply "$R" "$S" Sample.me 20) <> true.
Proof.
  split.
  - apply (proj2 (shouldShowEvent_iff Sample.client Sample.always Sample.never
                    Sample.thread_panel
                    (Sample.message "$S" Sample.alice 10 None))).
    split; [reflexivity|]. split; [right; left; reflexivity|].
    split; [reflexivity|]. split; [reflexivity|].
    right. split; [reflexivity|]. right. reflexivity.
  - intro H.
    apply (proj1 (shouldShowEvent_iff Sample.client Sample.always Sample.never
                    Sample.thread_panel
                    (Sample.reply "$R" "$S" Sample.me 20))) in H.
    destruct H as [_ [_ [H _]]]. discriminate.
Defined.

(** ** The receipts of an event *)

Lemma push_receipt_displayable peg (room : Room) (acc : list Receipt)
    (r : RawReceipt) :
  push_receipt peg room acc r
  = acc ++ match raw_userId r with
           | Some uid => if displayable peg r then [displayed room uid r] else []
           | None => []
           end.
Proof.
  unfold push_receipt, displayable, displayed.
  destruct (raw_userId r) as [uid|]; cbn [truthy_opt negb orb].
  - destruct (truthy uid); cbn [negb orb andb]; [|now rewrite app_nil_r].
    destruct (String.eqb (raw_type r) "m.read"); cbn [negb orb andb];
      [|now rewrite app_nil_r].
    destruct (opt_str_eqb (Some uid) (credentials_userId peg)); cbn [negb andb];
      [now rewrite app_nil_r|].
    destruct (isUserIgnored peg uid); cbn [negb];
      [now rewrite app_nil_r | reflexivity].
  - now rewrite app_nil_r.
Qed.

Lemma fold_push_receipt peg (room : Room) (raw : list RawReceipt)
    (acc : list Receipt) :
  fold_left (push_receipt peg room) raw acc
  = acc ++ flat_map (fun r => match raw_userId r with
                              | Some uid =>
                                  if displayable peg r
                                  then [displayed room uid r] else []
                              | None => []
                              end) raw.
Proof.
  revert acc. induction raw as [|r raw IH]; intro acc; cbn [fold_left flat_map].
  - now rewrite app_nil_r.
  - rewrite IH, push_receipt_displayable. now rewrite app_assoc.
Qed.

(** X2.  The receipts of an event are those of its raw receipts that have a
    user id, are read receipts, are not the viewer's own and whose user is
    not ignored, in the order of the room, each with the member of its user
    and the time stamp of its data, or 0 without data.  So no receipt shown
    is the viewer's own or one of an ignored user, and there are no more of
    them than raw receipts. *)
Theorem receipts_for_filtered peg (room : Room) (event : MatrixEvent) :
  receipts_for peg room event
  = flat_map (fun r => match raw_userId r with
                       | Some uid =>
                           if displayable peg r
                           then [displayed room uid r] else []
                       | None => []
                       end) (getReceiptsForEvent room event)
  /\ (forall x, In x (receipts_for peg room event) ->
        receipt_userId x <> ""
        /\ Some (receipt_userId x) <> credentials_userId peg
        /\ isUserIgnored peg (receipt_userId x) = false
        /\ roomMember x = getMember room (receipt_userId x)
        /\ exists r, In r (getReceiptsForEvent room event)
                     /\ raw_userId r = Some (receipt_userId x)
                     /\ raw_type r = "m.read")
  /\ (List.length (receipts_for peg room event)
      <= List.length (getReceiptsForEvent room event))%nat.
Proof.
  assert (Heq : receipts_for peg room event
                = flat_map (fun r => match raw_userId r with
                                     | Some uid =>
                                         if displayable peg r
                                         then [displayed room uid r] else []
                                     | None => []
                                     end) (getReceiptsForEvent room event)).
  { unfold receipts_for. now rewrite fold_push_receipt. }
  split; [exact Heq|]. rewrite Heq. split.
  - intros x Hx. apply in_flat_map in Hx. destruct Hx as [r [Hr Hx]].
    destruct (raw_userId r) as [uid|] eqn:Eu; [|destruct Hx].
    destruct (displayable peg r) eqn:Ed; [|destruct Hx].
    destruct Hx as [<-|[]]. cbn [displayed receipt_userId roomMember].
    unfold displayable in Ed. rewrite Eu in Ed.
    apply andb_true_iff in Ed. destruct Ed as [Ed Hign].
    apply andb_true_iff in Ed. destruct Ed as [Ed Hown].
    apply andb_true_iff in Ed. destruct Ed as [Ht Hty].
    apply negb_true_iff in Hign, Hown.
    repeat split.
    + now apply truthy_true.
    + intro H. apply opt_str_eqb_eq in H. congruence.
    + assumption.
    + exists r. repeat split; try assumption. now apply String.eqb_eq.
  - clear Heq.
    induction (getReceiptsForEvent room event) as [|r raw IH]; cbn [flat_map];
      [apply Nat.le_refl|].
    rewrite length_app.
    destruct (raw_userId r); [destruct (displayable peg r)|];
      cbn [List.length Nat.add]; lia.
Qed.

(** In the folding scenario the hidden event has Bob's receipt, and a
    receipt of the local user on it would be left out. *)
Lemma receipts_for_filtered_witness :
  receipts_for Sample.client
    (Sample.room_of (fun _ => [Sample.read_receipt "@me:hs" 7;
                               Sample.read_receipt "@bob:hs" 100]))
    (Sample.membership "$H" Sample.alice 20)
  = [{| receipt_userId := "@bob:hs"; roomMember := None; ts := 100 |}]
  /\ receipt_userId
       {| receipt_userId := "@bob:hs"; roomMember := None; ts := 100 |} <> "".
Proof.
  split; [reflexivity|].
  apply (proj1 (proj2 (receipts_for_filtered Sample.client
           (Sample.room_of (fun _ => [Sample.read_receipt "@me:hs" 7;
                                      Sample.read_receipt "@bob:hs" 100]))
           (Sample.membership "$H" Sample.alice 20)))).
  simpl. now left.
Defined.

(** ** Buckets *)

Section Buckets.
Variable peg : MatrixClient.
Variable haveTile : MatrixEvent -> bool.
Variable shouldHide : MatrixEvent -> bool.

Local Abbreviation show := (_shouldShowEvent peg haveTile shouldHide).
Local Abbreviation fwd := (forward_pass peg haveTile shouldHide).
Local Abbreviation aggregate :=
  (_getReadReceiptsByShownEvent peg haveTile shouldHide).

Lemma inherited_truthy (k : string) : inherited k = true -> truthy k = true.
Proof. intro H. apply truthy_true. intros ->. discriminate H. Qed.

Lemma obj_has_set {V : Type} (o : obj V) (k k0 : string) (v : V) :
  obj_has (obj_set o k v) k0 = String.eqb k0 k || obj_has o k0.
Proof.
  unfold obj_has. destruct (string_dec k0 k) as [->|Hne].
  - now rewrite obj_get_set_same, String.eqb_refl.
  - rewrite obj_get_set_other by assumption.
    apply String.eqb_neq in Hne. now rewrite Hne.
Qed.

(** The forward pass keeps the buckets it has and opens one for each shown
    event with an id. *)
Lemma forward_pass_opens_buckets (this : PostPanel) (evs : list MatrixEvent)
    (st st' : AggState) :
  fwd this evs st = Returns st' ->
  (forall k, In k (obj_keys (receiptsByEvent st)) ->
     In k (obj_keys (receiptsByEvent st')))
  /\ forall e, In e evs -> show this e = true -> getId e <> "" ->
       In (getId e) (obj_keys (receiptsByEvent st')).
Proof.
  revert st. induction evs as [|e evs IH]; intro st; cbn [forward_pass].
  - intros [= <-]. split; [auto|]. intros e [].
  - intro H. apply bind_returns_inv in H. destruct H as [st1 [E1 H]].
    destruct (IH st1 H) as [Hk He]. clear IH H.
    apply forward_step_inv in E1. destruct E1 as [Hl Hcase].
    destruct Hcase as [[Ht [HE HU]]|[id [r [Hid [Ht [Hr [Hpl [Hpr [HE HU]]]]]]]]].
    + rewrite HE in Hk. split; [exact Hk|].
      intros e' [<-|Hin] Hs Hne; [|now apply He].
      exfalso. rewrite Hl, Hs in Ht. cbn [truthy_opt] in Ht.
      apply truthy_true in Hne. congruence.
    + rewrite HE in Hk. split.
      * intros k Hin. apply Hk. apply obj_in_key_set. now right.
      * intros e' [<-|Hin] Hs Hne; [|now apply He].
        apply Hk. apply obj_in_key_set. left.
        rewrite Hl, Hs in Hid. now injection Hid.
Qed.

(** The pass over the previous cache keeps the buckets. *)
Lemma fallback_fold_keys (L : list (string * UserReceipt))
    (E E' : obj (list Receipt)) (U U' : obj UserReceipt) :
  foldM fallback_step L (E, U) = Returns (E', U') ->
  forall k, In k (obj_keys E) -> In k (obj_keys E').
Proof.
  revert E U. induction L as [|[u0 c0] L IH]; intros E U; cbn [foldM].
  - intros [= <- <-]. auto.
  - rewrite fallback_step_unfold. destruct (js_has U u0); cbn [bind].
    + apply IH.
    + destruct (inherited _ && negb _); cbn [bind]; [discriminate|].
      intros H k Hin. apply (IH _ _ H). apply obj_in_key_set. now right.
Qed.

Lemma buckets_of_returns (this this' : PostPanel) (m : obj (list Receipt)) :
  aggregate this = Returns (m, this') ->
  forall e, In e (events (props this)) -> show this e = true ->
    getId e <> "" -> exists l, obj_get m (getId e) = Some l.
Proof.
  intro H. apply aggregate_returns_inv in H.
  destruct H as [st [E' [U' [Hst [Hf [-> _]]]]]].
  intros e Hin Hs Hid.
  destruct (forward_pass_opens_buckets this _ _ _ Hst) as [_ Hopen].
  assert (Hkey : In (getId e) (obj_keys (sort_buckets E'))).
  { rewrite sort_buckets_keys. apply (fallback_fold_keys _ _ _ _ _ Hf).
    now apply Hopen. }
  apply obj_has_In in Hkey. unfold obj_has in Hkey.
  destruct (obj_get (sort_buckets E') (getId e)) as [l|]; [eauto | discriminate].
Qed.
End Buckets.

(** ** What a render does to the component *)

Section RenderState.
Variable peg : MatrixClient.
Variable haveTile : MatrixEvent -> bool.
Variable shouldHide : MatrixEvent -> bool.

Local Abbreviation show := (_shouldShowEvent peg haveTile shouldHide).
Local Abbreviation aggregate :=
  (_getReadReceiptsByShownEvent peg haveTile shouldHide).

(** The aggregation does not read the receipt map of the component. *)
Lemma aggregate_set_readReceiptsByEvent (this : PostPanel)
    (x : obj (list Receipt)) :
  aggregate (set_readReceiptsByEvent this x)
  = match aggregate this with
    | Returns (m, t) => Returns (m, set_readReceiptsByEvent t x)
    | Throws e => Throws e
    | OutOfFuel => OutOfFuel
    | Unsupported => Unsupported
    end.
Proof.
  unfold _getReadReceiptsByShownEvent.
  rewrite (forward_pass_same peg haveTile shouldHide this
             (set_readReceiptsByEvent this x)) by reflexivity.
  cbn [props set_readReceiptsByEvent _readReceiptsByUserId].
  destruct (forward_pass _ _ _ _ _ _) as [st| | |]; cbn [bind]; try reflexivity.
  destruct (fallback_pass _ _) as [[E U]| | |]; reflexivity.
Qed.

(** What [_getEventTiles] does to the component. *)
Lemma getEventTiles_state (this this' : PostPanel) (fuel : nat)
    (ret : list Node) :
  _getEventTiles peg haveTile shouldHide fuel this = Returns (ret, this') ->
  if showReadReceipts (props this)
  then exists t,
         aggregate this = Returns (_readReceiptsByEvent this', t)
         /\ _readReceiptsByUserId this' = _readReceiptsByUserId t
  else _readReceiptsByEvent this' = obj_empty
       /\ _readReceiptsByUserId this' = _readReceiptsByUserId this.
Proof.
  unfold _getEventTiles.
  destruct (reverse_scan _ _ _ _ _ _) as [lse idx].
  cbn [props set_readReceiptsByEvent].
  destruct (showReadReceipts (props this)).
  - rewrite aggregate_set_readReceiptsByEvent.
    destruct (aggregate this) as [[m t]| | |]; cbn [bind fst snd];
      try discriminate.
    destruct (tiles_loop _ _ _ _ _ _ _ _ _ _) as [st| | |]; cbn [bind];
      try discriminate.
    intros [= _ <-]. exists t. split; reflexivity.
  - cbn [bind].
    destruct (tiles_loop _ _ _ _ _ _ _ _ _ _) as [st| | |]; cbn [bind];
      try discriminate.
    intros [= _ <-]. split; reflexivity.
Qed.
End RenderState.

(** ** When the component throws *)

Section Throwing.
Variable peg : MatrixClient.
Variable haveTile : MatrixEvent -> bool.
Variable shouldHide : MatrixEvent -> bool.

Local Abbreviation show := (_shouldShowEvent peg haveTile shouldHide).
Local Abbreviation fwd := (forward_pass peg haveTile shouldHide).
Local Abbreviation aggregate :=
  (_getReadReceiptsByShownEvent peg haveTile shouldHide).

Lemma mapM_no_throw {A B : Type} (f : A -> outcome B) (xs : list A) (x : exn) :
  (forall a, f a <> Throws x) -> mapM f xs <> Throws x.
Proof.
  intro Hf. induction xs as [|a xs IH]; cbn [mapM]; [discriminate|].
  destruct (f a) as [y|x'| |] eqn:Ea; cbn [bind]; try discriminate.
  - destruct (mapM f xs) as [ys|x'| |]; cbn [bind]; try discriminate.
    intro H. apply IH. exact H.
  - intro H. apply (Hf a). rewrite Ea. injection H as ->. reflexivity.
Qed.

Lemma getTilesForEvent_no_throw (this : PostPanel) (fuel : nat) (x : exn) :
  forall prev e last n nt lvl,
    _getTilesForEvent peg haveTile shouldHide fuel this prev e last n nt lvl
    <> Throws x.
Proof.
  induction fuel as [|fuel IH]; intros prev e last n nt lvl;
    cbn [_getTilesForEvent]; [discriminate|].
  destruct (mapM _ _) as [children|x'| |] eqn:Em; cbn [bind]; try discriminate.
  intro H. injection H as ->.
  revert Em. apply mapM_no_throw. intro a. apply IH.
Qed.

Lemma tiles_loop_no_throw (this : PostPanel) (fuel : nat)
    (lse : option MatrixEvent) (idx : Z) (evs : list MatrixEvent) (x : exn) :
  forall i st,
    tiles_loop peg haveTile shouldHide fuel this lse idx evs i st <> Throws x.
Proof.
  induction evs as [|e evs IH]; intros i [ret prev]; cbn [tiles_loop];
    [discriminate|].
  destruct (tiles_step _ _ _ _ _ _ _ _ _ _) as [st1|x'| |] eqn:Es; cbn [bind];
    try discriminate; [apply IH|].
  exfalso. revert Es. unfold tiles_step.
  destruct (_getNextEventInfo _ _ _ _ _ _) as [n nt].
  destruct (show this e).
  - destruct (_getTilesForEvent _ _ _ _ _ _ _ _ _ _ _) as [tiles|x''| |] eqn:Et;
      cbn [bind]; try discriminate.
    + destruct (_readMarkerForEvent _ _ _); discriminate.
    + intros _. exact (getTilesForEvent_no_throw _ _ _ _ _ _ _ _ _ Et).
  - cbn [bind]. destruct (_readMarkerForEvent _ _ _); discriminate.
Qed.

Lemma mapM_supported {A B : Type} (f : A -> outcome B) (xs : list A) :
  (forall a, f a <> Unsupported) -> mapM f xs <> Unsupported.
Proof.
  intro Hf. induction xs as [|a xs IH]; cbn [mapM]; [discriminate|].
  destruct (f a) as [y|x'| |] eqn:Ea; cbn [bind]; try discriminate.
  - destruct (mapM f xs) as [ys|x'| |]; cbn [bind]; try discriminate.
    intro H. now apply IH.
  - intro H. now apply (Hf a).
Qed.

Lemma getTilesForEvent_supported (this : PostPanel) (fuel : nat) :
  forall prev e last n nt lvl,
    _getTilesForEvent peg haveTile shouldHide fuel this prev e last n nt lvl
    <> Unsupported.
Proof.
  induction fuel as [|fuel IH]; intros prev e last n nt lvl;
    cbn [_getTilesForEvent]; [discriminate|].
  destruct (mapM _ _) as [children|x'| |] eqn:Em; cbn [bind]; try discriminate.
  intros _. revert Em. apply mapM_supported. intro a. apply IH.
Qed.

Lemma tiles_loop_supported (this : PostPanel) (fuel : nat)
    (lse : option MatrixEvent) (idx : Z) (evs : list MatrixEvent) :
  forall i st,
    tiles_loop peg haveTile shouldHide fuel this lse idx evs i st <> Unsupported.
Proof.
  induction evs as [|e evs IH]; intros i [ret prev]; cbn [tiles_loop];
    [discriminate|].
  destruct (tiles_step _ _ _ _ _ _ _ _ _ _) as [st1|x'| |] eqn:Es; cbn [bind];
    try discriminate; [apply IH|].
  exfalso. revert Es. unfold tiles_step.
  destruct (_getNextEventInfo _ _ _ _ _ _) as [n nt].
  destruct (show this e).
  - destruct (_getTilesForEvent _ _ _ _ _ _ _ _ _ _ _) as [tiles|x''| |] eqn:Et;
      cbn [bind]; try discriminate.
    + destruct (_readMarkerForEvent _ _ _); discriminate.
    + intros _. exact (getTilesForEvent_supported _ _ _ _ _ _ _ _ Et).
  - cbn [bind]. destruct (_readMarkerForEvent _ _ _); discriminate.
Qed.

(** Without a room a forward pass that returns has touched nothing. *)
Lemma forward_pass_no_room_state (this : PostPanel) (evs : list MatrixEvent)
    (st st' : AggState) :
  room (props this) = None ->
  fwd this evs st = Returns st' ->
  receiptsByEvent st' = receiptsByEvent st
  /\ receiptsByUserId st' = receiptsByUserId st.
Proof.
  intro Hr. revert st. induction evs as [|e evs IH]; intro st;
    cbn [forward_pass].
  - intros [= <-]. auto.
  - intro H. apply bind_returns_inv in H. destruct H as [st1 [E1 H]].
    destruct (IH st1 H) as [HE HU].
    apply forward_step_inv in E1.
    destruct E1 as [_ [[_ [HE1 HU1]]|[id [r [_ [_ [Hr' _]]]]]]].
    + split; congruence.
    + congruence.
Qed.

(** With a room, and no receipt from a user [__proto__], the forward pass
    throws exactly when a shown event has an id that names a property of
    [Object.prototype]. *)
Lemma forward_pass_throws_room (this : PostPanel) (r : Room)
    (evs : list MatrixEvent) (st : AggState) :
  room (props this) = Some r ->
  (forall e x, In e evs -> In x (receipts_for peg r e) ->
     receipt_userId x <> "__proto__") ->
  (forall k, obj_has (receiptsByEvent st) k = true -> inherited k = false) ->
  (forall k, lastShown st = Some k -> inherited k = false) ->
  (fwd this evs st = Throws TypeError
   <-> exists e, In e evs /\ show this e = true /\ inherited (getId e) = true).
Proof.
  intro Hr. revert st.
  induction evs as [|e evs IH]; intros st Hproto HE Hl; cbn [forward_pass].
  - split; [discriminate|]. intros [e [[] _]].
  - assert (Hproto' : forall e' x, In e' evs -> In x (receipts_for peg r e') ->
              receipt_userId x <> "__proto__").
    { intros e' x Hin. apply Hproto. now right. }
    assert (Hnp : existsb (fun x => String.eqb (receipt_userId x) "__proto__")
                    (receipts_for peg r e) = false).
    { apply from_proto_none. intros x Hx. apply (Hproto e x); [now left|exact Hx]. }
    rewrite (forward_step_room peg haveTile shouldHide this r st e Hr).
    destruct (show this e) eqn:Es.
    + destruct (truthy (getId e)) eqn:Et; cbn [negb].
      * destruct (inherited (getId e)) eqn:Ei.
        -- assert (Ho : obj_has (receiptsByEvent st) (getId e) = false).
           { destruct (obj_has _ _) eqn:Eo; [|reflexivity].
             apply HE in Eo. congruence. }
           rewrite Ho. cbn [andb negb bind]. split; [|reflexivity].
           intros _. exists e. split; [now left|]. now split.
        -- cbn [andb]. rewrite Hnp. cbn [bind].
           rewrite IH; [| exact Hproto' | |].
           ++ split.
              ** intros [e' [Hin H]]. exists e'. split; [now right|exact H].
              ** intros [e' [[<-|Hin] [Hs Hi]]]; [congruence|].
                 exists e'. auto.
           ++ cbn [receiptsByEvent]. intros k Hk. rewrite obj_has_set in Hk.
              apply orb_true_iff in Hk. destruct Hk as [Hk|Hk].
              ** apply String.eqb_eq in Hk. now subst k.
              ** now apply HE.
           ++ cbn [lastShown]. intros k [= <-]. exact Ei.
      * cbn [bind]. assert (Ei : inherited (getId e) = false).
        { destruct (inherited (getId e)) eqn:Ei; [|reflexivity].
          apply inherited_truthy in Ei. congruence. }
        rewrite IH; [| exact Hproto' | exact HE |].
        -- split.
           ++ intros [e' [Hin H]]. exists e'. split; [now right|exact H].
           ++ intros [e' [[<-|Hin] [Hs Hi]]]; [congruence|].
              exists e'. auto.
        -- cbn [lastShown]. intros k [= <-]. exact Ei.
    + assert (Hex : (exists e', In e' (e :: evs) /\ show this e' = true
                                /\ inherited (getId e') = true)
                    <-> exists e', In e' evs /\ show this e' = true
                                   /\ inherited (getId e') = true).
      { split.
        - intros [e' [[<-|Hin] [Hs Hi]]]; [congruence|]. exists e'. auto.
        - intros [e' [Hin H]]. exists e'. split; [now right|exact H]. }
      rewrite Hex. clear Hex.
      destruct (lastShown st) as [id|] eqn:El.
      * destruct (truthy id) eqn:Et; cbn [negb].
        -- rewrite (Hl id eq_refl). cbn [andb]. rewrite Hnp. cbn [bind].
           apply IH; [exact Hproto' | |].
           ++ cbn [receiptsByEvent]. intros k Hk. rewrite obj_has_set in Hk.
              apply orb_true_iff in Hk. destruct Hk as [Hk|Hk].
              ** apply String.eqb_eq in Hk. subst k. now apply Hl.
              ** now apply HE.
           ++ cbn [lastShown]. intros k [= <-]. now apply Hl.
        -- cbn [bind]. apply IH; [exact Hproto' | exact HE |].
           cbn [lastShown]. intros k [= <-]. now apply Hl.
      * cbn [bind]. apply IH; [exact Hproto' | exact HE |].
        cbn [lastShown]. discriminate.
Qed.

(** The pass over the previous cache throws exactly when it meets a user
    it has no entry for whose cached event id names a property of
    [Object.prototype]. *)
Lemma fallback_fold_throws (L : list (string * UserReceipt))
    (E : obj (list Receipt)) (U : obj UserReceipt) :
  NoDup (map fst L) ->
  (forall k, obj_has E k = true -> inherited k = false) ->
  (foldM fallback_step L (E, U) = Throws TypeError
   <-> exists u c, In (u, c) L /\ js_has U u = false
                   /\ inherited (lastShownEventId c) = true).
Proof.
  revert E U. induction L as [|[u0 c0] L IH]; intros E U Hnd HE; cbn [foldM].
  - split; [discriminate|]. intros [u [c [[] _]]].
  - cbn [map fst] in Hnd. inversion Hnd as [|? ? Hnot Hnd']; subst.
    rewrite fallback_step_unfold. destruct (js_has U u0) eqn:Eh; cbn [bind].
    + rewrite (IH E U Hnd' HE). split.
      * intros [u [c [Hin H]]]. exists u, c. split; [now right | exact H].
      * intros [u [c [[Heq|Hin] [Hh Hi]]]].
        -- injection Heq as <- <-. congruence.
        -- exists u, c. auto.
    + destruct (inherited (lastShownEventId c0)) eqn:Ei.
      * assert (Ho : obj_has E (lastShownEventId c0) = false).
        { destruct (obj_has E _) eqn:Eo; [|reflexivity].
          apply HE in Eo. congruence. }
        rewrite Ho. cbn [andb negb bind]. split; [|reflexivity].
        intros _. exists u0, c0. split; [now left|]. auto.
      * cbn [andb bind]. rewrite IH; [| exact Hnd' |].
        -- split.
           ++ intros [u [c [Hin [Hh Hi]]]]. exists u, c.
              split; [now right|]. split; [|exact Hi].
              rewrite js_has_unfold in Hh |- *. rewrite obj_has_set in Hh.
              apply orb_false_iff in Hh. destruct Hh as [Hh Hinh].
              apply orb_false_iff in Hh. destruct Hh as [_ Hh].
              now rewrite Hh, Hinh.
           ++ intros [u [c [[Heq|Hin] [Hh Hi]]]].
              ** injection Heq as <- <-. congruence.
              ** exists u, c. split; [exact Hin|]. split; [|exact Hi].
                 assert (Hne : u <> u0).
                 { intros ->. apply Hnot. apply (in_map fst) in Hin. exact Hin. }
                 rewrite js_has_unfold in Hh |- *. rewrite obj_has_set.
                 apply String.eqb_neq in Hne. rewrite Hne. exact Hh.
        -- intros k Hk. rewrite obj_has_set in Hk.
           apply orb_true_iff in Hk. destruct Hk as [Hk|Hk].
           ++ apply String.eqb_eq in Hk. now subst k.
           ++ now apply HE.
Qed.

Lemma aggregate_throws_room (this : PostPanel) (r : Room) :
  room (props this) = Some r ->
  (forall e x, In e (events (props this)) -> In x (receipts_for peg r e) ->
     receipt_userId x <> "__proto__") ->
  obj_wf (_readReceiptsByUserId this) ->
  (aggregate this = Throws TypeError
   <-> (exists e, In e (events (props this)) /\ show this e = true
                  /\ inherited (getId e) = true)
       \/ (exists st u c,
             fwd this (events (props this)) initial_agg = Returns st
             /\ In (u, c) (_readReceiptsByUserId this)
             /\ js_has (receiptsByUserId st) u = false
             /\ inherited (lastShownEventId c) = true)).
Proof.
  intros Hr Hproto Hwf.
  assert (Hfwd := forward_pass_throws_room this r (events (props this))
                    initial_agg Hr Hproto
                    (fun k (H : obj_has (receiptsByEvent initial_agg) k = true) =>
                       ltac:(discriminate H))
                    (fun k (H : lastShown initial_agg = Some k) =>
                       ltac:(discriminate H))).
  unfold _getReadReceiptsByShownEvent.
  destruct (forward_pass peg haveTile shouldHide this (events (props this))
              initial_agg) as [st|[]| |] eqn:Ef; cbn [bind].
  - assert (Hplain : forall k, obj_has (receiptsByEvent st) k = true ->
                       inherited k = false).
    { apply (forward_pass_plain peg haveTile shouldHide this _ _ _ Ef).
      intros k H. discriminate H. }
    assert (Hfb := fallback_fold_throws
                     (obj_entries (_readReceiptsByUserId this))
                     (receiptsByEvent st) (receiptsByUserId st)
                     (obj_entries_wf _ _ Hwf) Hplain).
    unfold fallback_pass.
    destruct (foldM fallback_step _ _) as [[E' U']|[]| |] eqn:Efb; cbn [bind].
    + split; [discriminate|]. intros [Hex|[st' [u [c [Hst [Hin H]]]]]].
      * apply Hfwd in Hex. discriminate.
      * injection Hst as <-.
        assert (Hc : Returns (E', U') = @Throws (obj (list Receipt) * obj UserReceipt)
                            TypeError).
        { apply Hfb. exists u, c.
          split; [now apply obj_entries_In | exact H]. }
        discriminate.
    + split; [|reflexivity]. intros _. right.
      destruct (proj1 Hfb eq_refl) as [u [c [Hin H]]].
      exists st, u, c. split; [reflexivity|].
      split; [now apply obj_entries_In | exact H].
    + split; [discriminate|]. intros [Hex|[st' [u [c [Hst [Hin H]]]]]].
      * apply Hfwd in Hex. discriminate.
      * injection Hst as <-.
        assert (Hc : OutOfFuel = @Throws (obj (list Receipt) * obj UserReceipt)
                            TypeError).
        { apply Hfb. exists u, c.
          split; [now apply obj_entries_In | exact H]. }
        discriminate.
    + split; [discriminate|]. intros [Hex|[st' [u [c [Hst [Hin H]]]]]].
      * apply Hfwd in Hex. discriminate.
      * injection Hst as <-.
        assert (Hc : Unsupported = @Throws (obj (list Receipt) * obj UserReceipt)
                            TypeError).
        { apply Hfb. exists u, c.
          split; [now apply obj_entries_In | exact H]. }
        discriminate.
  - split; [|reflexivity]. intros _. left. now apply Hfwd.
  - split; [discriminate|]. intros [Hex|[st' [u [c [Hst _]]]]].
    + apply Hfwd in Hex. discriminate.
    + discriminate.
  - split; [discriminate|]. intros [Hex|[st' [u [c [Hst _]]]]].
    + apply Hfwd in Hex. discriminate.
    + discriminate.
Qed.

Lemma aggregate_throws_no_room (this : PostPanel) :
  room (props this) = None ->
  obj_wf (_readReceiptsByUserId this) ->
  (aggregate this = Throws TypeError
   <-> (exists e, In e (events (props this)) /\ show this e = true
                  /\ getId e <> "")
       \/ (exists u c,
             In (u, c) (_readReceiptsByUserId this)
             /\ inherited u = false
             /\ inherited (lastShownEventId c) = true)).
Proof.
  intros Hr Hwf. unfold _getReadReceiptsByShownEvent.
  destruct (existsb (fun e => show this e && truthy (getId e))
                    (events (props this))) eqn:Eex.
  - apply existsb_exists in Eex. destruct Eex as [e [Hin He]].
    apply andb_true_iff in He. destruct He as [Hs Ht].
    assert (Hex : exists e, In e (events (props this)) /\ show this e = true
                            /\ getId e <> "").
    { exists e. repeat split; try assumption. now apply truthy_true. }
    rewrite (forward_pass_no_room peg haveTile shouldHide this _ _ Hr Hex).
    cbn [bind]. split; [|reflexivity]. intros _. now left.
  - assert (Hnone : forall e, In e (events (props this)) ->
                      show this e = true -> getId e = "").
    { intros e Hin Hs.
      destruct (string_dec (getId e) "") as [|Hne]; [assumption|].
      exfalso. apply truthy_true in Hne.
      assert (Hc : existsb (fun e => show this e && truthy (getId e))
                     (events (props this)) = true).
      { apply existsb_exists. exists e. split; [assumption|].
        now rewrite Hs, Hne. }
      congruence. }
    destruct (forward_pass_no_room_returns peg haveTile shouldHide this
                (events (props this)) initial_agg Hr eq_refl Hnone)
      as [st Hst].
    rewrite Hst. cbn [bind].
    destruct (forward_pass_no_room_state this _ _ _ Hr Hst) as [HE HU].
    rewrite HE, HU. cbn [receiptsByEvent receiptsByUserId initial_agg].
    assert (Hfb := fallback_fold_throws
                     (obj_entries (_readReceiptsByUserId this))
                     obj_empty obj_empty (obj_entries_wf _ _ Hwf)
                     (fun k (H : obj_has (@obj_empty (list Receipt)) k = true) =>
                        ltac:(discriminate H))).
    unfold fallback_pass.
    assert (Hiff : (exists u c,
                      In (u, c) (obj_entries (_readReceiptsByUserId this))
                      /\ js_has (@obj_empty UserReceipt) u = false
                      /\ inherited (lastShownEventId c) = true)
                   <-> (exists e, In e (events (props this))
                                  /\ show this e = true /\ getId e <> "")
                       \/ (exists u c,
                             In (u, c) (_readReceiptsByUserId this)
                             /\ inherited u = false
                             /\ inherited (lastShownEventId c) = true)).
    { split.
      - intros [u [c [Hin [Hh Hi]]]]. right. exists u, c.
        split; [now apply obj_entries_In|]. split; [|exact Hi].
        now apply js_has_false in Hh.
      - intros [[e [Hin [Hs Hne]]]|[u [c [Hin [Hu Hi]]]]].
        + exfalso. apply Hne. now apply Hnone.
        + exists u, c. split; [now apply obj_entries_In|]. split; [|exact Hi].
          apply js_has_false. split; [reflexivity | exact Hu]. }
    rewrite <- Hiff, <- Hfb.
    destruct (foldM fallback_step _ _) as [[E' U']|[]| |]; cbn [bind];
      split; (discriminate || reflexivity).
Qed.

Lemma forward_step_no_fuel (this : PostPanel) (st : AggState) (e : MatrixEvent) :
  forward_step peg haveTile shouldHide this st e <> OutOfFuel.
Proof.
  unfold forward_step.
  destruct (if show this e then Some (getId e) else lastShown st) as [id|];
    [|discriminate].
  destruct (negb (truthy id)); [discriminate|].
  destruct (_getReadReceiptsForEvent peg this e) as [rs|]; [|discriminate].
  rewrite concat_at_unfold. destruct (inherited id && negb _); cbn [bind];
    [discriminate|].
  rewrite record_receipts_unfold. destruct (existsb _ rs); discriminate.
Qed.

Lemma aggregate_no_fuel (this : PostPanel) : aggregate this <> OutOfFuel.
Proof.
  unfold _getReadReceiptsByShownEvent.
  assert (Hf : forall evs st, fwd this evs st <> OutOfFuel).
  { induction evs as [|e evs IH]; intro st; cbn [forward_pass]; [discriminate|].
    destruct (forward_step peg haveTile shouldHide this st e) as [st1| | |] eqn:E;
      cbn [bind]; try discriminate; [apply IH|].
    exfalso. exact (forward_step_no_fuel _ _ _ E). }
  assert (Hb : forall L s, foldM fallback_step L s <> OutOfFuel).
  { induction L as [|[u c] L IH]; intros [E U]; cbn [foldM]; [discriminate|].
    rewrite fallback_step_unfold. destruct (js_has U u); cbn [bind]; [apply IH|].
    destruct (inherited _ && negb _); cbn [bind]; [discriminate | apply IH]. }
  destruct (forward_pass _ _ _ _ _ _) as [st| | |] eqn:E; cbn [bind];
    try discriminate.
  - unfold fallback_pass.
    destruct (foldM fallback_step _ _) as [[E' U']| | |] eqn:Eb; cbn [bind];
      try discriminate.
    exfalso. exact (Hb _ _ Eb).
  - exfalso. exact (Hf _ _ E).
Qed.

Lemma getEventTiles_throws (this : PostPanel) (fuel : nat) :
  _getEventTiles peg haveTile shouldHide fuel this = Throws TypeError
  <-> showReadReceipts (props this) = true
      /\ aggregate this = Throws TypeError.
Proof.
  unfold _getEventTiles.
  destruct (reverse_scan _ _ _ _ _ _) as [lse idx].
  cbn [props set_readReceiptsByEvent].
  destruct (showReadReceipts (props this)).
  - rewrite aggregate_set_readReceiptsByEvent.
    destruct (aggregate this) as [[m t]|[]| |] eqn:E; cbn [bind].
    + split; [|intros [_ H]; discriminate].
      intro H. exfalso.
      destruct (tiles_loop _ _ _ _ _ _ _ _ _ _) as [st|x| |] eqn:El;
        cbn [bind] in H; try discriminate.
      exact (tiles_loop_no_throw _ _ _ _ _ _ _ _ El).
    + split; [|reflexivity]. intros _. now split.
    + split; [discriminate|]. intros [_ H]. discriminate.
    + split; [discriminate|]. intros [_ H]. discriminate.
  - cbn [bind]. split; [|intros [H _]; discriminate].
    intro H. exfalso.
    destruct (tiles_loop _ _ _ _ _ _ _ _ _ _) as [st|x| |] eqn:El;
      cbn [bind] in H; try discriminate.
    exact (tiles_loop_no_throw _ _ _ _ _ _ _ _ El).
Qed.
End Throwing.



(** ** The order inside a bucket *)

Lemma receipt_le_trans (x y z : Receipt) :
  receipt_le x y = true -> receipt_le y z = true -> receipt_le x z = true.
Proof. unfold receipt_le. rewrite !Z.leb_le. lia. Qed.

Lemma receipt_le_total (x y : Receipt) :
  receipt_le x y = false -> receipt_le y x = true.
Proof. unfold receipt_le. rewrite Z.leb_le, Z.leb_gt. lia. Qed.

Lemma same_ts_sorted (t : Z) (l : list Receipt) :
  (forall x, In x l -> ts x = t) -> sorted receipt_le l.
Proof.
  unfold sorted. induction l as [|x l IH]; intro H; constructor.
  - apply IH. intros y Hy. apply H. now right.
  - apply Forall_forall. intros y Hy. unfold receipt_le.
    rewrite (H x (or_introl eq_refl)), (H y (or_intror Hy)). apply Z.leb_refl.
Qed.

(** The sort keeps the receipts of one time stamp in their order. *)
Lemma isort_receipts_stable (t : Z) (l : list Receipt) :
  filter (fun x => ts x =? t) (isort receipt_le l)
  = filter (fun x => ts x =? t) l.
Proof.
  rewrite (filter_isort _ receipt_le receipt_le_trans receipt_le_total).
  apply (isort_of_sorted _ receipt_le).
  apply (same_ts_sorted t). intros x Hx. apply filter_In in Hx.
  destruct Hx as [_ Hx]. now apply Z.eqb_eq.
Qed.

Lemma isort_receipts_sorted (l : list Receipt) :
  StronglySorted (fun r1 r2 => ts r2 <= ts r1) (isort receipt_le l).
Proof.
  assert (H := isort_sorted _ receipt_le receipt_le_trans receipt_le_total l).
  unfold sorted in H. induction H as [|x l' Hs IH Hx]; constructor.
  - exact IH.
  - apply Forall_forall. intros y Hy. rewrite Forall_forall in Hx.
    specialize (Hx y Hy). unfold receipt_le in Hx. now apply Z.leb_le.
Qed.

(** X4.  In the map an aggregation returns every bucket is in descending
    order of time stamp.  When the previous per-user cache is empty, the
    bucket of an event id is the sorted list of the receipts folded onto that
    id: it has the same receipts, and those of equal time stamp are in the
    order in which the log gave them.  With a room and plain keys the
    aggregation returns. *)
Theorem buckets_sorted peg haveTile shouldHide (this : PostPanel) :
  (forall m this',
     _getReadReceiptsByShownEvent peg haveTile shouldHide this
     = Returns (m, this') ->
     (forall k, StronglySorted (fun r1 r2 => ts r2 <= ts r1) (bucket m k))
     /\ (forall r,
           room (props this) = Some r ->
           ids_present (events (props this)) ->
           _readReceiptsByUserId this = obj_empty ->
           forall k,
             Permutation
               (folded_receipts peg haveTile shouldHide this r
                  (events (props this)) k)
               (bucket m k)
             /\ forall t,
                  filter (fun x => ts x =? t) (bucket m k)
                  = filter (fun x => ts x =? t)
                      (folded_receipts peg haveTile shouldHide this r
                         (events (props this)) k)))
  /\ (forall r,
        room (props this) = Some r ->
        plain_keys peg haveTile shouldHide this r ->
        exists m this',
          _getReadReceiptsByShownEvent peg haveTile shouldHide this
          = Returns (m, this')).
Proof.
  split; [|intros r Hr Hplain; now apply (aggregate_total _ _ _ this r)].
  intros m this' H. split.
  - apply aggregate_returns_inv in H.
    destruct H as [st [E' [U' [Hst [Hf [-> _]]]]]].
    intro k. rewrite bucket_sort_buckets. apply isort_receipts_sorted.
  - intros r Hr Hids Hempty k.
    destruct (buckets_of_run peg haveTile shouldHide this this' r m Hr H)
      as [_ Hb].
    rewrite (Hb Hempty k).
    assert (Hbk : (if truthy k
                   then folded_receipts peg haveTile shouldHide this r
                          (events (props this)) k
                   else [])
                  = folded_receipts peg haveTile shouldHide this r
                      (events (props this)) k).
    { destruct (truthy k) eqn:Et; [reflexivity|].
      assert (k = "").
      { destruct (string_dec k "") as [|Hne]; [assumption|].
        apply truthy_true in Hne. congruence. }
      subst k. symmetry. now apply folded_receipts_empty_id. }
    rewrite Hbk. split.
    + apply isort_perm.
    + intro t. apply isort_receipts_stable.
Qed.

(** Bob's and Dave's receipts have the same time stamp and stay in the
    order of the log, after Bob's later one and Carol's. *)
Lemma buckets_sorted_witness :
  exists m this',
    _getReadReceiptsByShownEvent Sample.client Sample.always Sample.never
      MoreSamples.busy_panel = Returns (m, this')
    /\ bucket m "$S"
       = [MoreSamples.rcpt "@carol:hs" 9; MoreSamples.rcpt "@bob:hs" 7;
          MoreSamples.rcpt "@bob:hs" 5; MoreSamples.rcpt "@dave:hs" 5]
    /\ StronglySorted (fun r1 r2 => ts r2 <= ts r1) (bucket m "$S").
Proof.
  eexists. eexists. split; [reflexivity|]. split; [reflexivity|].
  apply (proj1 (proj1 (buckets_sorted Sample.client Sample.always Sample.never
                         MoreSamples.busy_panel) _ _ eq_refl) "$S").
Defined.

(** X5.  The map an aggregation returns has an own bucket, maybe empty,
    for every event of the log that is shown and has an id: the receipts of
    a shown event are never [undefined], nor a property inherited from
    [Object.prototype].  With a room and plain keys the aggregation
    returns. *)
Theorem shown_events_have_buckets peg haveTile shouldHide (this : PostPanel) :
  (forall m this',
     _getReadReceiptsByShownEvent peg haveTile shouldHide this
     = Returns (m, this') ->
     forall e, In e (events (props this)) ->
       _shouldShowEvent peg haveTile shouldHide this e = true ->
       getId e <> "" ->
       exists l, js_get m (getId e) = Own l)
  /\ (forall r,
        room (props this) = Some r ->
        plain_keys peg haveTile shouldHide this r ->
        exists m this',
          _getReadReceiptsByShownEvent peg haveTile shouldHide this
          = Returns (m, this')).
Proof.
  split; [|intros r Hr Hplain; now apply (aggregate_total _ _ _ this r)].
  intros m this' H e Hin Hs Hid.
  destruct (buckets_of_returns peg haveTile shouldHide this this' m H e Hin Hs
              Hid) as [l Hl].
  exists l. unfold js_get. now rewrite Hl.
Qed.

(** A shown message without any receipt still has its bucket. *)
Lemma shown_events_have_buckets_witness :
  exists m this',
    _getReadReceiptsByShownEvent Sample.client Sample.always Sample.never
      Sample.thread_panel = Returns (m, this')
    /\ exists l, js_get m "$T" = Own l.
Proof.
  eexists. eexists. split; [reflexivity|].
  apply (proj1 (shown_events_have_buckets Sample.client Sample.always
                  Sample.never Sample.thread_panel) _ _ eq_refl
               (Sample.message "$T" Sample.alice 30 None)).
  - simpl. tauto.
  - reflexivity.
  - discriminate.
Defined.

Section UserCache.
Variable peg : MatrixClient.
Variable haveTile : MatrixEvent -> bool.
Variable shouldHide : MatrixEvent -> bool.

Local Abbreviation fwd := (forward_pass peg haveTile shouldHide).
Local Abbreviation nearest := (nearest peg haveTile shouldHide).
Local Abbreviation recorded := (recorded peg haveTile shouldHide).

Lemma last_recorded_snoc (u : string) (l : list (string * UserReceipt))
    (p : string * UserReceipt) :
  last_recorded u (l ++ [p])
  = if String.eqb (fst p) u then Some (snd p) else last_recorded u l.
Proof.
  unfold last_recorded. rewrite filter_app. cbn [filter].
  destruct (String.eqb (fst p) u).
  - rewrite map_app. cbn [map]. apply last_opt_snoc.
  - now rewrite app_nil_r.
Qed.

(** Assigning a list of entries leaves for each user the last one. *)
Lemma fold_set_last (l : list (string * UserReceipt)) (U0 : obj UserReceipt)
    (u : string) :
  obj_get (fold_left (fun U p => obj_set U (fst p) (snd p)) l U0) u
  = match last_recorded u l with
    | Some c => Some c
    | None => obj_get U0 u
    end.
Proof.
  induction l as [|p l IH] using rev_ind; [reflexivity|].
  rewrite fold_left_app, last_recorded_snoc. cbn [fold_left].
  destruct (String.eqb (fst p) u) eqn:E.
  - apply String.eqb_eq in E. subst u. apply obj_get_set_same.
  - apply String.eqb_neq in E. rewrite obj_get_set_other by congruence.
    exact IH.
Qed.

Lemma record_all_as_entries (id : string) (rs : list Receipt)
    (U : obj UserReceipt) :
  record_all id rs U
  = fold_left (fun U p => obj_set U (fst p) (snd p))
      (map (fun x => (receipt_userId x,
                      {| lastShownEventId := id; receipt := x |})) rs) U.
Proof.
  unfold record_all. revert U.
  induction rs as [|x rs IH]; intro U; cbn [fold_left map]; [reflexivity|].
  now rewrite IH.
Qed.

Lemma recorded_snoc (this : PostPanel) (r : Room) (pre : list MatrixEvent)
    (e : MatrixEvent) :
  recorded this r (pre ++ [e])
  = recorded this r pre
    ++ match nearest this (pre ++ [e]) with
       | Some k =>
           if truthy k
           then map (fun x => (receipt_userId x,
                               {| lastShownEventId := k; receipt := x |}))
                    (receipts_for peg r e)
           else []
       | None => []
       end.
Proof.
  unfold recorded. rewrite length_app. cbn [List.length].
  rewrite Nat.add_1_r, seq_S, flat_map_app. cbn [flat_map Nat.add]. f_equal.
  - rewrite !flat_map_concat_map. f_equal. apply map_ext_in.
    intros i Hi. apply in_seq in Hi.
    rewrite nth_error_app1 by lia.
    rewrite nearest_shown_app by lia. reflexivity.
  - rewrite nth_error_app2 by lia. rewrite Nat.sub_diag. cbn [nth_error].
    rewrite nearest_shown_last by (rewrite length_app; cbn [List.length]; lia).
    now rewrite app_nil_r.
Qed.

(** The per-user cache of a forward pass that returns is the assignment,
    in the order of the log, of what the pass records. *)
Lemma forward_pass_records (this : PostPanel) (r : Room)
    (evs : list MatrixEvent) (st : AggState) :
  room (props this) = Some r ->
  fwd this evs initial_agg = Returns st ->
  receiptsByUserId st
  = fold_left (fun U p => obj_set U (fst p) (snd p))
              (recorded this r evs) obj_empty.
Proof.
  intro Hr. revert st. induction evs as [|e pre IH] using rev_ind; intros st H.
  - injection H as <-. reflexivity.
  - apply forward_pass_snoc_inv in H. destruct H as [st1 [H1 Hs]].
    assert (Hlast := proj1 (forward_pass_folds peg haveTile shouldHide this r
                              pre st1 Hr H1)).
    specialize (IH st1 H1).
    rewrite recorded_snoc, fold_left_app, <- IH.
    apply forward_step_inv in Hs.
    destruct Hs as [Hl [[Ht [_ HU]]|[id [r' [Hid [Ht [Hr' [_ [_ [_ HU]]]]]]]]]].
    + rewrite Hlast, <- nearest_snoc in Hl. rewrite <- Hl.
      destruct (lastShown st) as [k|]; cbn [truthy_opt] in Ht;
        [rewrite Ht|]; cbn [fold_left]; exact HU.
    + rewrite Hlast, <- nearest_snoc in Hl. rewrite <- Hl, Hid, Ht, HU.
      assert (r' = r) by congruence. subst r'. apply record_all_as_entries.
Qed.
End UserCache.



Section Consistency.
Variable peg : MatrixClient.
Variable haveTile : MatrixEvent -> bool.
Variable shouldHide : MatrixEvent -> bool.

Lemma bucket_set_app_In {A : Type} (o : obj (list A)) (k k0 : string)
    (l : list A) (x : A) :
  In x (bucket o k0) -> In x (bucket (obj_set o k (bucket o k ++ l)) k0).
Proof.
  intro H. destruct (string_dec k0 k) as [->|Hne].
  - rewrite bucket_set_same, in_app_iff. now left.
  - now rewrite bucket_set_other.
Qed.

Lemma record_receipts_get (id : string) (rs : list Receipt) (U : obj UserReceipt)
    (u : string) (c : UserReceipt) :
  obj_get (record_all id rs U) u = Some c ->
  obj_get U u = Some c
  \/ (lastShownEventId c = id /\ In (receipt c) rs
      /\ receipt_userId (receipt c) = u).
Proof.
  unfold record_all. revert U.
  induction rs as [|x rs IH]; intro U; cbn [fold_left]; [auto|].
  intro H. destruct (IH _ H) as [H1|[H1 [H2 H3]]].
  - destruct (string_dec u (receipt_userId x)) as [->|Hne].
    + rewrite obj_get_set_same in H1. injection H1 as <-.
      right. cbn. auto.
    + rewrite obj_get_set_other in H1 by assumption. now left.
  - right. repeat split; try assumption. now right.
Qed.

Lemma forward_pass_consistent (this : PostPanel) (evs : list MatrixEvent)
    (st st' : AggState) :
  forward_pass peg haveTile shouldHide this evs st = Returns st' ->
  consistent (receiptsByEvent st) (receiptsByUserId st) ->
  consistent (receiptsByEvent st') (receiptsByUserId st').
Proof.
  revert st. induction evs as [|e evs IH]; intro st; cbn [forward_pass].
  - now intros [= <-].
  - intro H. apply bind_returns_inv in H. destruct H as [st1 [E1 H]].
    intro Hc. apply (IH st1 H). clear IH H.
    apply forward_step_inv in E1.
    destruct E1 as [_ [[_ [HE HU]]|[id [r [_ [_ [_ [_ [_ [HE HU]]]]]]]]]].
    + now rewrite HE, HU.
    + rewrite HE, HU. intros u c Hget. apply record_receipts_get in Hget.
      destruct Hget as [Hget|[<- [Hin _]]].
      * apply bucket_set_app_In. exact (Hc u c Hget).
      * rewrite bucket_set_same, in_app_iff. now right.
Qed.

Lemma fallback_fold_consistent (L : list (string * UserReceipt))
    (E E' : obj (list Receipt)) (U U' : obj UserReceipt) :
  foldM fallback_step L (E, U) = Returns (E', U') ->
  consistent E U -> consistent E' U'.
Proof.
  revert E U. induction L as [|[u0 c0] L IH]; intros E U; cbn [foldM].
  - now intros [= <- <-].
  - rewrite fallback_step_unfold. destruct (js_has U u0); cbn [bind];
      [apply IH|].
    destruct (inherited _ && negb _); cbn [bind]; [discriminate|].
    intros H Hc. apply (IH _ _ H). clear IH H.
    intros u c Hget. destruct (string_dec u u0) as [->|Hne].
    + rewrite obj_get_set_same in Hget. injection Hget as <-.
      rewrite bucket_set_same, in_app_iff. right. now left.
    + rewrite obj_get_set_other in Hget by assumption.
      apply bucket_set_In. exact (Hc u c Hget).
Qed.
End Consistency.

(** X7.  After an aggregation the per-user cache and the returned map
    agree: the receipt of every entry of the cache is in the returned bucket
    of the entry's [lastShownEventId].  With a room and plain keys the
    aggregation returns. *)
Theorem cache_agrees_with_buckets peg haveTile shouldHide (this : PostPanel) :
  (forall m this',
     _getReadReceiptsByShownEvent peg haveTile shouldHide this
     = Returns (m, this') ->
     consistent m (_readReceiptsByUserId this'))
  /\ (forall r,
        room (props this) = Some r ->
        plain_keys peg haveTile shouldHide this r ->
        exists m this',
          _getReadReceiptsByShownEvent peg haveTile shouldHide this
          = Returns (m, this')).
Proof.
  split; [|intros r Hr Hplain; now apply (aggregate_total _ _ _ this r)].
  intros m this' H.
  apply aggregate_returns_inv in H.
  destruct H as [st [E' [U' [Hst [Hf [-> ->]]]]]]. cbn [_readReceiptsByUserId].
  assert (Hc : consistent E' U').
  { apply (fallback_fold_consistent _ _ _ _ _ Hf).
    apply (forward_pass_consistent peg haveTile shouldHide this _ _ _ Hst).
    intros u c Hget. discriminate. }
  intros u c Hget. apply sort_buckets_In. exact (Hc u c Hget).
Qed.

(** In the busy room Bob's entry points at [$S], whose bucket has his later
    receipt. *)
Lemma cache_agrees_with_buckets_witness :
  exists m this',
    _getReadReceiptsByShownEvent Sample.client Sample.always Sample.never
      MoreSamples.busy_panel = Returns (m, this')
    /\ In (MoreSamples.rcpt "@bob:hs" 7) (bucket m "$S").
Proof.
  eexists. eexists. split; [reflexivity|].
  apply (proj1 (cache_agrees_with_buckets Sample.client Sample.always
                  Sample.never MoreSamples.busy_panel) _ _ eq_refl
               "@bob:hs" {| lastShownEventId := "$S";
                            receipt := MoreSamples.rcpt "@bob:hs" 7 |}).
  reflexivity.
Defined.

(** ** The tiles of the render list *)


Lemma filter_show_same peg haveTile shouldHide (this this' : PostPanel)
    (evs : list MatrixEvent) :
  same_view this' this ->
  filter (_shouldShowEvent peg haveTile shouldHide this') evs
  = filter (_shouldShowEvent peg haveTile shouldHide this) evs.
Proof.
  intros [Hp [_ Hh]]. apply filter_ext. intro e.
  now apply shouldShowEvent_same.
Qed.

Lemma top_level_tiles_of_returns peg haveTile shouldHide (this this' : PostPanel)
    (fuel : nat) (ret : list Node) :
  _getEventTiles peg haveTile shouldHide fuel this = Returns (ret, this') ->
  map mxEvent (top_tiles ret)
  = filter (_shouldShowEvent peg haveTile shouldHide this) (events (props this))
  /\ map continuation (top_tiles ret)
     = continuations haveTile None
         (filter (_shouldShowEvent peg haveTile shouldHide this)
                 (events (props this)))
  /\ Forall (fun p =>
               level p = 0%nat
               /\ last p
                  = Some (opt_eqb event_eqb (Some (mxEvent p))
                            (last_opt
                               (filter (_shouldShowEvent peg haveTile
                                          shouldHide this)
                                       (events (props this)))))
               /\ readReceipts p
                  = js_get (_readReceiptsByEvent this') (getId (mxEvent p)))
            (top_tiles ret).
Proof.
  intro H. apply getEventTiles_inv in H. destruct H as [Hv [prev Hl]].
  apply tiles_loop_top_tiles in Hl. destruct Hl as [T [Htop [Hev [Hco Hall]]]].
  cbn [top_tiles flat_map app] in Htop. subst T.
  rewrite (filter_show_same peg haveTile shouldHide this this' _ Hv) in Hev, Hco.
  rewrite reverse_scan_fst, firstn_all in Hall.
  auto.
Qed.

(** X8.  The top-level tiles of the render list are the tiles of the shown
    events of the log, one each and in log order, at level 0.  Each is a
    continuation, or not, of the shown event before it, however many hidden
    events lie between them, and the first one never is.  A tile has [last]
    set exactly when its event is the same object as the last shown event
    of the log; in a log of well-formed objects, exactly when its event is
    the last shown event of the log. *)
Theorem top_level_tiles peg haveTile shouldHide (this : PostPanel) :
  (forall fuel ret this',
     _getEventTiles peg haveTile shouldHide fuel this = Returns (ret, this') ->
     map mxEvent (top_tiles ret)
     = filter (_shouldShowEvent peg haveTile shouldHide this)
              (events (props this))
     /\ map continuation (top_tiles ret)
        = continuations haveTile None
            (filter (_shouldShowEvent peg haveTile shouldHide this)
                    (events (props this)))
     /\ Forall (fun p =>
                  level p = 0%nat
                  /\ (last p = Some true <->
                      exists l,
                        last_opt (filter (_shouldShowEvent peg haveTile
                                            shouldHide this)
                                         (events (props this))) = Some l
                        /\ identity l = identity (mxEvent p))
                  /\ (objects_wf (events (props this)) ->
                      (last p = Some true <->
                       last_opt (filter (_shouldShowEvent peg haveTile
                                           shouldHide this)
                                        (events (props this)))
                       = Some (mxEvent p)))
                  /\ (last p = Some true \/ last p = Some false))
               (top_tiles ret))
  /\ (NoDup (map getId (events (props this))) ->
      receipts_ready peg haveTile shouldHide this ->
      forall fuel, (List.length (events (props this)) < fuel)%nat ->
        exists ret this',
          _getEventTiles peg haveTile shouldHide fuel this = Returns (ret, this')
          /\ map mxEvent (top_tiles ret)
             = filter (_shouldShowEvent peg haveTile shouldHide this)
                      (events (props this))).
Proof.
  split.
  - intros fuel ret this' H.
    destruct (top_level_tiles_of_returns _ _ _ _ _ _ _ H) as [H1 [H2 H3]].
    split; [exact H1|]. split; [exact H2|].
    apply Forall_forall. intros p Hp. rewrite Forall_forall in H3.
    destruct (H3 p Hp) as [Hl [Hlast _]]. split; [exact Hl|].
    assert (Hshown : In (mxEvent p) (events (props this))).
    { apply (in_map mxEvent) in Hp. rewrite H1 in Hp.
      apply filter_In in Hp. tauto. }
    assert (Hid : last p = Some true <->
                  exists l,
                    last_opt (filter (_shouldShowEvent peg haveTile
                                        shouldHide this)
                                     (events (props this))) = Some l
                    /\ identity l = identity (mxEvent p)).
    { rewrite Hlast.
      destruct (last_opt _) as [l|]; cbn [opt_eqb].
      - split.
        + intros [= E]. apply event_eqb_identity in E. exists l. auto.
        + intros [l' [[= <-] E]]. f_equal. apply event_eqb_identity. auto.
      - split; [discriminate|]. intros [l' [E _]]. discriminate. }
    split; [exact Hid|]. split.
    + intro Hwf. rewrite Hid. split.
      * intros [l [El E]]. rewrite El. f_equal.
        apply (Hwf l (mxEvent p)); [|exact Hshown|exact E].
        apply last_opt_In in El. apply filter_In in El. tauto.
      * intro El. exists (mxEvent p). auto.
    + rewrite Hlast. destruct (opt_eqb _ _ _); auto.
  - intros Hnd Hroom fuel Hfuel.
    destruct (getEventTiles_returns peg haveTile shouldHide this fuel Hnd Hroom
                Hfuel) as [ret [this' H]].
    exists ret, this'. split; [exact H|].
    now destruct (top_level_tiles_of_returns _ _ _ _ _ _ _ H).
Qed.

(** In the thread scenario the tiles are those of [$S] and [$T]; [$T] comes
    from the same sender within five minutes, past the reply [$R], and is
    the last one. *)
Lemma top_level_tiles_witness :
  exists ret this',
    _getEventTiles Sample.client Sample.always Sample.never 4 Sample.thread_panel
    = Returns (ret, this')
    /\ map (fun p => getId (mxEvent p)) (top_tiles ret) = ["$S"; "$T"]
    /\ map continuation (top_tiles ret) = [false; true]
    /\ map last (top_tiles ret) = [Some false; Some true]
    /\ map mxEvent (top_tiles ret)
       = filter (_shouldShowEvent Sample.client Sample.always Sample.never
                   Sample.thread_panel)
                (events (props Sample.thread_panel)).
Proof.
  eexists. eexists. split; [reflexivity|]. split; [reflexivity|].
  split; [reflexivity|]. split; [reflexivity|].
  apply (proj1 (proj1 (top_level_tiles Sample.client Sample.always Sample.never
                         Sample.thread_panel) 4%nat _ _ eq_refl)).
Defined.

(** X9.  A render leaves the props and the ghost markers of the component
    as they are, and gives every top-level tile what the receipt map it
    leaves has at the id of the tile's event (line 594).  With
    [showReadReceipts] off it empties the receipt map and keeps the per-user
    cache, so a tile gets [undefined], or, when the id of its event names
    one, a property of [Object.prototype]; with it on, the receipt map and
    the per-user cache are those of one aggregation, and every top-level
    tile of an event with an id gets a list of receipts, maybe empty. *)
Theorem render_receipts peg haveTile shouldHide (this this' : PostPanel)
    (fuel : nat) (ret : list Node) :
  _getEventTiles peg haveTile shouldHide fuel this = Returns (ret, this') ->
  props this' = props this
  /\ ghostReadMarkers this' = ghostReadMarkers this
  /\ Forall (fun p => readReceipts p
                      = js_get (_readReceiptsByEvent this') (getId (mxEvent p)))
            (top_tiles ret)
  /\ (showReadReceipts (props this) = false ->
      _readReceiptsByEvent this' = obj_empty
      /\ _readReceiptsByUserId this' = _readReceiptsByUserId this
      /\ Forall (fun p => readReceipts p
                          = if inherited (getId (mxEvent p))
                            then Inherited (getId (mxEvent p))
                            else Undefined)
                (top_tiles ret))
  /\ (showReadReceipts (props this) = true ->
      exists t,
        _getReadReceiptsByShownEvent peg haveTile shouldHide this
        = Returns (_readReceiptsByEvent this', t)
        /\ _readReceiptsByUserId this' = _readReceiptsByUserId t
        /\ Forall (fun p => getId (mxEvent p) <> "" ->
                            exists l, readReceipts p = Own l)
                  (top_tiles ret)).
Proof.
  intro H.
  assert (Hinv := getEventTiles_inv _ _ _ _ _ _ _ H).
  destruct Hinv as [[Hp [Hg _]] _].
  assert (Hst := getEventTiles_state _ _ _ _ _ _ _ H).
  destruct (top_level_tiles_of_returns _ _ _ _ _ _ _ H) as [Hev [_ Hall]].
  split; [exact Hp|]. split; [exact Hg|]. split.
  { eapply Forall_impl; [|exact Hall]. cbn beta. intros p [_ [_ E]]. exact E. }
  destruct (showReadReceipts (props this)); split; try discriminate.
  - intros _. destruct Hst as [t [Hagg Hc]]. exists t.
    split; [exact Hagg|]. split; [exact Hc|].
    apply Forall_forall. intros p Hin Hid.
    rewrite Forall_forall in Hall. destruct (Hall p Hin) as [_ [_ ->]].
    assert (Hshown : In (mxEvent p)
                       (filter (_shouldShowEvent peg haveTile shouldHide this)
                               (events (props this)))).
    { rewrite <- Hev. now apply in_map. }
    apply filter_In in Hshown. destruct Hshown as [Hlog Hs].
    destruct (buckets_of_returns peg haveTile shouldHide this t _ Hagg _ Hlog
                Hs Hid) as [l Hl].
    exists l. unfold js_get. now rewrite Hl.
  - intros _. destruct Hst as [He Hc]. split; [exact He|]. split; [exact Hc|].
    eapply Forall_impl; [|exact Hall]. cbn beta.
    intros p [_ [_ ->]]. rewrite He. reflexivity.
Qed.

(** The thread scenario shows receipts: the tile of [$T], which nobody has
    read, has the empty list. *)
Lemma render_receipts_witness :
  exists ret this',
    _getEventTiles Sample.client Sample.always Sample.never 4 Sample.thread_panel
    = Returns (ret, this')
    /\ map readReceipts (top_tiles ret) = [Own []; Own []]
    /\ props this' = props Sample.thread_panel.
Proof.
  eexists. eexists. split; [reflexivity|]. split; [reflexivity|].
  apply (proj1 (render_receipts Sample.client Sample.always Sample.never
                  Sample.thread_panel _ 4%nat _ eq_refl)).
Defined.

(** X10.  The top-level tile of the shown event at an index of the log
    carries the last-successful flag of that index: the one computed from
    the next event and the next shown event after the index. *)
Theorem tile_flags peg haveTile shouldHide (this this' : PostPanel)
    (fuel : nat) (ret : list Node) :
  _getEventTiles peg haveTile shouldHide fuel this = Returns (ret, this') ->
  forall j e,
    nth_error (events (props this)) j = Some e ->
    _shouldShowEvent peg haveTile shouldHide this e = true ->
    exists p,
      In p (top_tiles ret) /\ mxEvent p = e
      /\ lastSuccessfulAt peg haveTile shouldHide this j
         = Some (lastSuccessful p).
Proof.
  intro H. exact (tile_flag_of_returns peg haveTile shouldHide this this' fuel
                    ret H).
Qed.

(** Two messages of the local user, the second not sent yet: the tile of
    the first is the last successful one. *)
Lemma tile_flags_witness :
  exists ret this',
    _getEventTiles Sample.client Sample.always Sample.never 3
      (Sample.panel [Sample.message "$1" Sample.me 1 None;
                     Sample.message "$2" Sample.me 2 (Some "sending")]
         (Some Sample.folding_room) None false [] [])
    = Returns (ret, this')
    /\ exists p, In p (top_tiles ret)
                 /\ getId (mxEvent p) = "$1" /\ lastSuccessful p = true.
Proof.
  eexists. eexists. split; [reflexivity|].
  destruct (tile_flags Sample.client Sample.always Sample.never
              (Sample.panel [Sample.message "$1" Sample.me 1 None;
                             Sample.message "$2" Sample.me 2 (Some "sending")]
                 (Some Sample.folding_room) None false [] [])
              _ 3%nat _ eq_refl 0%nat (Sample.message "$1" Sample.me 1 None)
              eq_refl eq_refl) as [p [Hin [He Hf]]].
  exists p. split; [exact Hin|]. split; [now rewrite He|].
  assert (Ht : Some (lastSuccessful p) = Some true)
    by (rewrite <- Hf; reflexivity).
  now injection Ht.
Defined.

(** ** Sub-events *)

Lemma subevent_tiles_of_mapM peg haveTile shouldHide (this : PostPanel)
    (fuel lvl : nat) (subs : list MatrixEvent) (children : list (list Node)) :
  mapM (fun s => _getTilesForEvent peg haveTile shouldHide fuel this
                   None s None None None lvl) subs = Returns children ->
  map mxEvent (child_tiles children) = subs
  /\ Forall (fun c => List.length c = 1%nat) children
  /\ Forall (fun q =>
               level q = lvl /\ continuation q = false /\ last q = None
               /\ lastSuccessful q
                  = isSentState (getAssociatedStatus (mxEvent q))
                    && opt_str_eqb (Some (getSender (mxEvent q)))
                                   (getUserId peg))
            (child_tiles children).
Proof.
  revert children. induction subs as [|s subs IH]; intros children H.
  - cbn [mapM] in H. injection H as <-. repeat split; constructor.
  - apply mapM_cons_inv in H. destruct H as [c [cs [Hc [Hcs ->]]]].
    destruct (IH cs Hcs) as [H1 [H2 H3]].
    apply getTilesForEvent_shape in Hc.
    destruct Hc as [p [ch [-> [Hp1 [Hp2 [Hp3 [Hp4 [Hp5 _]]]]]]]].
    unfold child_tiles in *. cbn [flat_map top_tiles app map].
    repeat split.
    + now rewrite Hp1, H1.
    + constructor; [reflexivity | exact H2].
    + constructor; [|exact H3].
      rewrite Hp1, Hp2, Hp3, Hp4, Hp5. repeat split.
      apply isLastSuccessful_alone.
Qed.

(** X11.  The tile of an event has, nested in it, one tile for each event
    of the log that replies directly to it, in log order and one level
    deeper.  A nested tile is never a continuation, has no [last] flag, and
    is flagged last successful exactly when its event is sent and from the
    local user, whatever comes after it in the log.  With distinct ids in
    the log the tiles of a shown event are returned when the fuel exceeds
    the length of the log. *)
Theorem subevent_tiles peg haveTile shouldHide (this : PostPanel)
    (prev : option MatrixEvent) (e : MatrixEvent) (l : option bool)
    (n nt : option MatrixEvent) (lvl : nat) :
  (forall fuel tiles,
     _getTilesForEvent peg haveTile shouldHide fuel this prev e l n nt lvl
     = Returns tiles ->
     exists p children,
       tiles = [EventTile p children] /\ mxEvent p = e /\ level p = lvl
       /\ map mxEvent (child_tiles children) = directSubevents this e
       /\ Forall (fun c => List.length c = 1%nat) children
       /\ Forall (fun q =>
                    level q = (lvl + 1)%nat /\ continuation q = false
                    /\ last q = None
                    /\ lastSuccessful q
                       = isSentState (getAssociatedStatus (mxEvent q))
                         && opt_str_eqb (Some (getSender (mxEvent q)))
                                        (getUserId peg))
                 (child_tiles children))
  /\ (NoDup (map getId (events (props this))) ->
      In e (events (props this)) ->
      _shouldShowEvent peg haveTile shouldHide this e = true ->
      forall fuel, (List.length (events (props this)) < fuel)%nat ->
        exists tiles,
          _getTilesForEvent peg haveTile shouldHide fuel this prev e l n nt lvl
          = Returns tiles).
Proof.
  split.
  - intros fuel tiles H. apply getTilesForEvent_shape in H.
    destruct H as [p [children [-> [Hp1 [Hp2 [_ [_ [_ [_ [_ Hm]]]]]]]]]].
    destruct Hm as [fuel' [_ Hm]].
    exists p, children. split; [reflexivity|]. split; [exact Hp1|].
    split; [exact Hp2|].
    exact (subevent_tiles_of_mapM _ _ _ _ _ _ _ _ Hm).
  - intros Hnd Hin Hs fuel Hfuel.
    apply (getTilesForEvent_returns peg haveTile shouldHide this Hnd fuel []).
    + apply chain_root; [exact Hin|].
      now apply (shown_not_reply peg haveTile shouldHide this).
    + cbn [List.length]. lia.
Qed.

(** In the thread scenario the tile of [$S] nests the tile of its reply
    [$R], sent by the local user. *)
Lemma subevent_tiles_witness :
  exists tiles p children,
    _getTilesForEvent Sample.client Sample.always Sample.never 4
      Sample.thread_panel None (Sample.message "$S" Sample.alice 10 None)
      (Some false) None None 0 = Returns tiles
    /\ tiles = [EventTile p children]
    /\ map (fun q => (getId (mxEvent q), level q, lastSuccessful q))
           (child_tiles children) = [("$R", 1%nat, true)].
Proof.
  destruct (proj2 (subevent_tiles Sample.client Sample.always Sample.never
                     Sample.thread_panel None
                     (Sample.message "$S" Sample.alice 10 None)
                     (Some false) None None 0%nat))
    with (fuel := 4%nat) as [tiles H].
  - repeat constructor; simpl; intuition discriminate.
  - simpl. tauto.
  - reflexivity.
  - simpl. lia.
  - exists tiles. vm_compute in H. injection H as <-.
    eexists. eexists. split; [reflexivity|]. split; reflexivity.
Defined.

(** ** Rendering the read marker and its ghosts *)

Lemma ghost_includes (ghosts : list (option string)) (id : string) :
  existsb (opt_str_eqb (Some id)) ghosts = true <-> In (Some id) ghosts.
Proof.
  rewrite existsb_exists. split.
  - intros [x [Hin Hx]]. apply opt_str_eqb_eq in Hx. now subst.
  - intro H. exists (Some id). split; [exact H | now apply opt_str_eqb_eq].
Qed.

Lemma readMarkerForEvent_cases (this : PostPanel) (id : string) (b : bool) :
  (readMarkerEventId (props this) = Some id
   /\ _readMarkerForEvent this id b
      = Some (ReadMarker id (negb b && readMarkerVisible (props this))))
  \/ (readMarkerEventId (props this) <> Some id
      /\ In (Some id) (ghostReadMarkers this)
      /\ _readMarkerForEvent this id b = Some (GhostReadMarker id))
  \/ (readMarkerEventId (props this) <> Some id
      /\ ~ In (Some id) (ghostReadMarkers this)
      /\ _readMarkerForEvent this id b = None).
Proof.
  unfold _readMarkerForEvent.
  destruct (opt_str_eqb (readMarkerEventId (props this)) (Some id)) eqn:Em.
  - apply opt_str_eqb_eq in Em. left. auto.
  - assert (Hne : readMarkerEventId (props this) <> Some id).
    { intro H. apply opt_str_eqb_eq in H. congruence. }
    right. destruct (existsb _ _) eqn:Eg.
    + left. apply ghost_includes in Eg. auto.
    + right. repeat split; try assumption.
      intro H. apply ghost_includes in H. congruence.
Qed.

(** X12.  The node of an event is the read marker when the event carries
    it, even if its id is also among the ghosts; a ghost when its id is
    among the ghosts; and nothing otherwise.  So when a visible marker moves
    away from an event, that event renders a ghost; once the ghost's
    transition has ended it renders nothing, the nodes of the events with
    other ids are what they were, and the order in which two ghosts end
    does not matter. *)
Theorem ghost_rendering (this : PostPanel) :
  (forall id b,
     (readMarkerEventId (props this) = Some id ->
      _readMarkerForEvent this id b
      = Some (ReadMarker id (negb b && readMarkerVisible (props this))))
     /\ (readMarkerEventId (props this) <> Some id ->
         In (Some id) (ghostReadMarkers this) ->
         _readMarkerForEvent this id b = Some (GhostReadMarker id))
     /\ (_readMarkerForEvent this id b = None <->
         readMarkerEventId (props this) <> Some id
         /\ ~ In (Some id) (ghostReadMarkers this)))
  /\ (forall prevProps a b,
        readMarkerVisible prevProps = true ->
        readMarkerEventId prevProps = Some a ->
        readMarkerEventId (props this) <> Some a ->
        _readMarkerForEvent (componentDidUpdate this prevProps) a b
        = Some (GhostReadMarker a))
  /\ (forall a b,
        readMarkerEventId (props this) <> Some a ->
        _readMarkerForEvent (_onGhostTransitionEnd this a) a b = None)
  /\ (forall a id b,
        id <> a ->
        _readMarkerForEvent (_onGhostTransitionEnd this a) id b
        = _readMarkerForEvent this id b)
  /\ (forall a a',
        _onGhostTransitionEnd (_onGhostTransitionEnd this a) a'
        = _onGhostTransitionEnd (_onGhostTransitionEnd this a') a).
Proof.
  split; [|split; [|split; [|split]]].
  - intros id b.
    destruct (readMarkerForEvent_cases this id b)
      as [[H1 H2]|[[H1 [H2 H3]]|[H1 [H2 H3]]]]; rewrite ?H2, ?H3.
    + split; [reflexivity|]. split; [contradiction|].
      split; [discriminate | tauto].
    + split; [contradiction|]. split; [reflexivity|].
      split; [discriminate | tauto].
    + split; [contradiction|]. split; [contradiction|]. tauto.
  - intros prevProps a b Hv Ha Hne.
    unfold componentDidUpdate. rewrite Hv, Ha.
    assert (E : opt_str_eqb (readMarkerEventId (props this)) (Some a) = false).
    { destruct (opt_str_eqb _ _) eqn:E; [|reflexivity].
      apply opt_str_eqb_eq in E. contradiction. }
    rewrite E. cbn [negb andb].
    unfold _readMarkerForEvent. cbn [props ghostReadMarkers]. rewrite E.
    replace (existsb (opt_str_eqb (Some a)) (ghostReadMarkers this ++ [Some a]))
      with true; [reflexivity|].
    symmetry. apply ghost_includes. apply in_or_app. right. now left.
  - intros a b Hne.
    destruct (readMarkerForEvent_cases (_onGhostTransitionEnd this a) a b)
      as [[H1 _]|[[_ [H2 _]]|[_ [_ H3]]]].
    + contradiction.
    + exfalso. cbn [ghostReadMarkers _onGhostTransitionEnd] in H2.
      apply filter_In in H2. destruct H2 as [_ H2].
      apply negb_true_iff in H2.
      assert (opt_str_eqb (Some a) (Some a) = true) by now apply opt_str_eqb_eq.
      congruence.
    + exact H3.
  - intros a id b Hne. unfold _readMarkerForEvent.
    cbn [props ghostReadMarkers _onGhostTransitionEnd].
    destruct (opt_str_eqb _ _); [reflexivity|].
    replace (existsb (opt_str_eqb (Some id))
               (filter (fun eid => negb (opt_str_eqb eid (Some a)))
                       (ghostReadMarkers this)))
      with (existsb (opt_str_eqb (Some id)) (ghostReadMarkers this));
      [reflexivity|].
    apply eq_true_iff_eq. rewrite !ghost_includes, filter_In. split.
    + intro H. split; [exact H|]. apply negb_true_iff.
      destruct (opt_str_eqb (Some id) (Some a)) eqn:E; [|reflexivity].
      apply opt_str_eqb_eq in E. congruence.
    + tauto.
  - intros a a'. unfold _onGhostTransitionEnd.
    cbn [props ghostReadMarkers _readReceiptsByEvent _readReceiptsByUserId
         _showHiddenEventsInTimeline].
    f_equal. apply filter_comm.
Qed.

(** The marker moves from [$A] to [$B]: [$A] renders a ghost, and nothing
    once the ghost has ended. *)
Lemma ghost_rendering_witness :
  _readMarkerForEvent
    (componentDidUpdate (Sample.panel [] None (Some "$B") true [] [])
       (props (Sample.panel [] None (Some "$A") true [] [])))
    "$A" false
  = Some (GhostReadMarker "$A")
  /\ _readMarkerForEvent
       (_onGhostTransitionEnd
          (Sample.panel [] None (Some "$B") true [Some "$A"; Some "$C"] [])
          "$A")
       "$A" false = None.
Proof.
  split.
  - apply (proj1 (proj2 (ghost_rendering
                           (Sample.panel [] None (Some "$B") true [] [])))
                 (props (Sample.panel [] None (Some "$A") true [] []))
                 "$A" false); [reflexivity | reflexivity | discriminate].
  - apply (proj1 (proj2 (proj2 (ghost_rendering
                           (Sample.panel [] None (Some "$B") true
                              [Some "$A"; Some "$C"] []))))
                 "$A" false).
    discriminate.
Defined.

(** ** Rendering again *)

Lemma reverse_scan_same peg haveTile shouldHide (this this' : PostPanel) (n : nat)
    (lse : option MatrixEvent) :
  props this' = props this ->
  _showHiddenEventsInTimeline this' = _showHiddenEventsInTimeline this ->
  reverse_scan peg haveTile shouldHide this' n lse
  = reverse_scan peg haveTile shouldHide this n lse.
Proof.
  intros Hp Hh. revert lse. induction n as [|i IH]; intro lse; [reflexivity|].
  cbn [reverse_scan]. rewrite Hp.
  destruct (nth_error (events (props this)) i) as [e|]; [|apply IH].
  rewrite (shouldShowEvent_same peg haveTile shouldHide this this' e Hp Hh).
  destruct (negb _); [apply IH|].
  destruct (truthy_opt (status e)); [apply IH | reflexivity].
Qed.

(** X13.  Rendering is idempotent: when a render returns a list of nodes and
    leaves the component in some state, a second render from that state, with
    the same props, returns the same list and leaves the same state.  In
    particular the receipts carried over from the per-user cache are not
    added a second time. *)
Theorem render_twice peg haveTile shouldHide (this this' : PostPanel)
    (fuel : nat) (ret : list Node) :
  obj_wf (_readReceiptsByUserId this) ->
  _getEventTiles peg haveTile shouldHide fuel this = Returns (ret, this') ->
  _getEventTiles peg haveTile shouldHide fuel this' = Returns (ret, this').
Proof.
  intros Hwf H.
  destruct (getEventTiles_inv peg haveTile shouldHide _ _ _ _ H)
    as [[Hp [_ Hh]] _].
  revert H. unfold _getEventTiles.
  rewrite (reverse_scan_same peg haveTile shouldHide this this') by assumption.
  rewrite Hp.
  destruct (reverse_scan _ _ _ _ _ _) as [lse idx].
  cbn [props set_readReceiptsByEvent].
  rewrite Hp.
  destruct (showReadReceipts (props this)).
  - rewrite (aggregate_set_readReceiptsByEvent peg haveTile shouldHide this).
    destruct (_getReadReceiptsByShownEvent peg haveTile shouldHide this)
      as [[m t]| | |] eqn:Ea; cbn [bind fst snd]; try discriminate.
    assert (Et := aggregate_twice _ _ _ _ _ _ Hwf Ea).
    destruct (tiles_loop _ _ _ _ _ _ _ _ _ _) as [st| | |] eqn:El;
      cbn [bind]; try discriminate.
    intros [= <- <-].
    change (set_readReceiptsByEvent
              (set_readReceiptsByEvent (set_readReceiptsByEvent t obj_empty) m)
              obj_empty)
      with (set_readReceiptsByEvent t obj_empty).
    rewrite (aggregate_set_readReceiptsByEvent peg haveTile shouldHide t), Et.
    cbn [bind fst snd set_readReceiptsByEvent props ghostReadMarkers
         _readReceiptsByUserId _showHiddenEventsInTimeline] in *.
    rewrite El. reflexivity.
  - cbn [bind].
    destruct (tiles_loop _ _ _ _ _ _ _ _ _ _) as [st| | |] eqn:El;
      cbn [bind]; try discriminate.
    intros [= <- <-].
    change (set_readReceiptsByEvent (set_readReceiptsByEvent this obj_empty)
              obj_empty)
      with (set_readReceiptsByEvent this obj_empty).
    rewrite El. reflexivity.
Qed.

(** A render that carries Carol's cached receipt over: the second render
    returns the same nodes and leaves the same caches, with Carol's receipt
    once in its bucket. *)
Lemma render_twice_witness :
  exists ret this',
    _getEventTiles Sample.client Sample.always Sample.never 3
      (Sample.panel Sample.folding_log (Some Sample.folding_room) None false []
         Sample.stale_cache)
    = Returns (ret, this')
    /\ _getEventTiles Sample.client Sample.always Sample.never 3 this'
       = Returns (ret, this')
    /\ bucket (_readReceiptsByEvent this') "$gone" = [Sample.carol_receipt].
Proof.
  eexists. eexists. split; [reflexivity|]. split; [|reflexivity].
  apply (render_twice Sample.client Sample.always Sample.never
           (Sample.panel Sample.folding_log (Some Sample.folding_room) None
              false [] Sample.stale_cache) _ 3%nat _).
  - unfold obj_wf. cbn. constructor; [intros []|constructor].
  - reflexivity.
Defined.

(** ** The marker nodes of the render list *)

Section Markers.
Variable peg : MatrixClient.
Variable haveTile : MatrixEvent -> bool.
Variable shouldHide : MatrixEvent -> bool.

Local Abbreviation marks :=
  (fun (this : PostPanel) (e : MatrixEvent) =>
     opt_str_eqb (readMarkerEventId (props this)) (Some (getId e))).

Lemma marker_nodes_app (a b : list Node) :
  marker_nodes (a ++ b) = marker_nodes a ++ marker_nodes b.
Proof. apply filter_app. Qed.

Lemma read_markers_app (a b : list Node) :
  read_markers (a ++ b) = read_markers a ++ read_markers b.
Proof. apply filter_app. Qed.

Lemma read_markers_marker_nodes (ret : list Node) :
  read_markers (marker_nodes ret) = read_markers ret.
Proof.
  unfold read_markers, marker_nodes.
  induction ret as [|[p c|id hr|id] ret IH]; cbn [filter];
    [reflexivity | exact IH | now rewrite IH | exact IH].
Qed.

(** The forward loop adds, for each event of the log, the node of the
    read-marker check and no other node that is not a tile. *)
Lemma tiles_loop_marker_nodes (this : PostPanel) (fuel : nat)
    (lse : option MatrixEvent) (idx : Z) (evs : list MatrixEvent) :
  forall i ret0 prev0 ret prev,
    tiles_loop peg haveTile shouldHide fuel this lse idx evs i (ret0, prev0)
    = Returns (ret, prev) ->
    exists M,
      marker_nodes ret = marker_nodes ret0 ++ M
      /\ (forall n, In n M ->
            exists j e, nth_error evs j = Some e
              /\ _readMarkerForEvent this (getId e) (Z.of_nat (i + j) >=? idx)
                 = Some n)
      /\ List.length (read_markers M) = List.length (filter (marks this) evs).
Proof.
  induction evs as [|e evs IH]; intros i ret0 prev0 ret prev; cbn [tiles_loop].
  - intros [= <- <-]. exists []. rewrite app_nil_r.
    split; [reflexivity|]. split; [intros n []|reflexivity].
  - destruct (tiles_step _ _ _ _ _ _ _ _ _ _) as [[ret1 prev1]| | |] eqn:Es;
      cbn [bind]; try discriminate.
    intro Hl. apply tiles_step_cases in Es.
    destruct (IH _ _ _ _ _ Hl) as [M [Hm [Hin Hcount]]]. clear IH Hl.
    assert (Hret1 : marker_nodes ret1
                    = marker_nodes ret0
                      ++ match _readMarkerForEvent this (getId e)
                                 (Z.of_nat i >=? idx) with
                         | Some mk => [mk]
                         | None => []
                         end).
    { destruct Es as [[_ [_ [tiles [Ht ->]]]]|[_ [_ ->]]].
      - apply getTilesForEvent_shape in Ht.
        destruct Ht as [p [children [-> _]]].
        rewrite !marker_nodes_app. cbn [marker_nodes filter app].
        f_equal. unfold _readMarkerForEvent.
        destruct (opt_str_eqb _ _); [reflexivity|].
        destruct (existsb _ _); reflexivity.
      - rewrite marker_nodes_app. f_equal. unfold _readMarkerForEvent.
        destruct (opt_str_eqb _ _); [reflexivity|].
        destruct (existsb _ _); reflexivity. }
    clear Es.
    exists (match _readMarkerForEvent this (getId e) (Z.of_nat i >=? idx) with
            | Some mk => [mk]
            | None => []
            end ++ M).
    rewrite Hm, Hret1, <- app_assoc. split; [reflexivity|]. split.
    + intros n Hn. apply in_app_or in Hn. destruct Hn as [Hn|Hn].
      * exists 0%nat, e. rewrite Nat.add_0_r. split; [reflexivity|].
        destruct (_readMarkerForEvent _ _ _) as [mk|]; [|destruct Hn].
        destruct Hn as [<-|[]]. reflexivity.
      * destruct (Hin n Hn) as [j [e' [Hj Hr]]].
        exists (S j), e'. split; [exact Hj|].
        now rewrite <- Nat.add_succ_comm.
    + rewrite read_markers_app, length_app, Hcount. cbn [filter].
      unfold _readMarkerForEvent.
      destruct (opt_str_eqb (readMarkerEventId (props this)) (Some (getId e)));
        [reflexivity|].
      destruct (existsb _ _); reflexivity.
Qed.

Lemma marks_at_most_once (this : PostPanel) (evs : list MatrixEvent) :
  NoDup (map getId evs) ->
  (List.length (filter (marks this) evs) <= 1)%nat.
Proof.
  induction evs as [|e evs IH]; cbn [map filter]; intro Hnd; [cbn; lia|].
  inversion Hnd as [|x l Hnotin Hnd']. subst.
  destruct (opt_str_eqb _ _) eqn:Ee; [|now apply IH].
  apply opt_str_eqb_eq in Ee.
  replace (filter (marks this) evs) with (@nil MatrixEvent); [cbn; lia|].
  symmetry. apply filter_none. intros x Hx.
  destruct (opt_str_eqb _ (Some (getId x))) eqn:Ex; [|reflexivity].
  apply opt_str_eqb_eq in Ex. exfalso. apply Hnotin.
  rewrite Ee in Ex. injection Ex as ->. now apply in_map.
Qed.
End Markers.

(** X14.  The nodes of the render list that are not tiles come from the
    events of the log: a read-marker node stands for an event of the log
    whose id is the read-marker event id, with its rule shown exactly when
    the marker is visible and the event is before the last shown event that
    is not a local echo; a ghost stands for an event of the log whose id is
    among the ghosts and is not the read-marker event id.  There are as many
    read-marker nodes as events of the log with the read-marker event id: at
    most one when the ids of the log are distinct, and none when the marker
    is on no event of the log. *)
Theorem marker_nodes_of_log peg haveTile shouldHide (this this' : PostPanel)
    (fuel : nat) (ret : list Node) :
  _getEventTiles peg haveTile shouldHide fuel this = Returns (ret, this') ->
  (forall id hr, In (ReadMarker id hr) ret ->
     readMarkerEventId (props this) = Some id
     /\ exists i e,
          nth_error (events (props this)) i = Some e /\ getId e = id
          /\ hr = negb (Z.of_nat i
                        >=? snd (reverse_scan peg haveTile shouldHide this
                                   (List.length (events (props this))) None))
                  && readMarkerVisible (props this))
  /\ (forall id, In (GhostReadMarker id) ret ->
        readMarkerEventId (props this) <> Some id
        /\ In (Some id) (ghostReadMarkers this)
        /\ exists e, In e (events (props this)) /\ getId e = id)
  /\ List.length (read_markers ret)
     = List.length
         (filter (fun e => opt_str_eqb (readMarkerEventId (props this))
                                       (Some (getId e)))
                 (events (props this)))
  /\ (NoDup (map getId (events (props this))) ->
      (List.length (read_markers ret) <= 1)%nat)
  /\ ((forall e, In e (events (props this)) ->
         readMarkerEventId (props this) <> Some (getId e)) ->
      read_markers ret = []).
Proof.
  intro H. apply getEventTiles_inv in H. destruct H as [Hv [prev Hl]].
  apply tiles_loop_marker_nodes in Hl. destruct Hl as [M [Hm [Hin Hcount]]].
  cbn [marker_nodes filter app] in Hm.
  destruct Hv as [Hp [Hg _]]. rewrite Hp in Hcount.
  assert (Hrm : read_markers ret = read_markers M).
  { now rewrite <- read_markers_marker_nodes, Hm. }
  assert (Hnode : forall n, In n ret ->
            match n with EventTile _ _ => False | _ => True end -> In n M).
  { intros n Hn Hk. rewrite <- Hm. apply filter_In. split; [exact Hn|].
    destruct n; [destruct Hk | reflexivity | reflexivity]. }
  split; [|split; [|split; [|split]]].
  - intros id hr Hr. apply Hnode in Hr; [|exact I].
    destruct (Hin _ Hr) as [j [e [Hj He]]]. cbn [Nat.add] in He.
    destruct (readMarkerForEvent_cases this' (getId e)
                (Z.of_nat j >=? snd (reverse_scan peg haveTile shouldHide this
                                       (List.length (events (props this))) None)))
      as [[H1 H2]|[[_ [_ H2]]|[_ [_ H2]]]]; rewrite H2 in He;
      try discriminate.
    injection He as <- <-. rewrite <- Hp. split; [exact H1|].
    exists j, e. rewrite Hp in *. auto.
  - intros id Hr. apply Hnode in Hr; [|exact I].
    destruct (Hin _ Hr) as [j [e [Hj He]]]. cbn [Nat.add] in He.
    destruct (readMarkerForEvent_cases this' (getId e)
                (Z.of_nat j >=? snd (reverse_scan peg haveTile shouldHide this
                                       (List.length (events (props this))) None)))
      as [[_ H2]|[[H1 [H1' H2]]|[_ [_ H2]]]]; rewrite H2 in He;
      try discriminate.
    injection He as <-. rewrite <- Hp, <- Hg. split; [exact H1|].
    split; [exact H1'|]. exists e. split; [|reflexivity].
    rewrite Hp. eapply nth_error_In. exact Hj.
  - now rewrite Hrm.
  - intro Hnd. rewrite Hrm, Hcount. now apply marks_at_most_once.
  - intro Hno. apply length_zero_iff_nil. rewrite Hrm, Hcount.
    replace (filter _ (events (props this))) with (@nil MatrixEvent);
      [reflexivity|].
    symmetry. apply filter_none. intros x Hx.
    destruct (opt_str_eqb _ _) eqn:Ex; [|reflexivity].
    apply opt_str_eqb_eq in Ex. now destruct (Hno x Hx).
Qed.

(** The thread of the samples, with the marker on [$S] and a ghost on [$T]:
    the render list has the one marker, after the tile of [$S], and the
    ghost. *)
Lemma marker_nodes_of_log_witness :
  exists ret this',
    _getEventTiles Sample.client Sample.always Sample.never 4
      (Sample.panel Sample.thread_log (Some Sample.folding_room) (Some "$S")
         true [Some "$T"] [])
    = Returns (ret, this')
    /\ marker_nodes ret = [ReadMarker "$S" true; GhostReadMarker "$T"]
    /\ (List.length (read_markers ret) <= 1)%nat.
Proof.
  eexists. eexists. split; [reflexivity|]. split; [reflexivity|].
  apply (proj1 (proj2 (proj2 (proj2
           (marker_nodes_of_log Sample.client Sample.always Sample.never
              (Sample.panel Sample.thread_log (Some Sample.folding_room)
                 (Some "$S") true [Some "$T"] [])
              _ 4%nat _ eq_refl))))).
  repeat constructor; cbn; intuition discriminate.
Defined.

(** ** A reply to its own id *)

Section ReplyCycle.
Variable peg : MatrixClient.
Variable haveTile : MatrixEvent -> bool.
Variable shouldHide : MatrixEvent -> bool.

Local Abbreviation show := (_shouldShowEvent peg haveTile shouldHide).
Local Abbreviation tilesFor := (_getTilesForEvent peg haveTile shouldHide).

Lemma mapM_out_of_fuel {A B : Type} (f : A -> outcome B) (xs : list A) (x : A) :
  (forall a e, f a <> Throws e) -> (forall a, f a <> Unsupported) ->
  In x xs -> f x = OutOfFuel ->
  mapM f xs = OutOfFuel.
Proof.
  intros Hf Hu Hin Hx. induction xs as [|a xs IH]; [destruct Hin|].
  cbn [mapM]. destruct Hin as [->|Hin].
  - rewrite Hx. reflexivity.
  - destruct (f a) as [y|e| |] eqn:Ea; cbn [bind].
    + rewrite (IH Hin). reflexivity.
    + now destruct (Hf a e).
    + reflexivity.
    + now destruct (Hu a).
Qed.

Lemma getTilesForEvent_out_of_fuel (this : PostPanel) (e r : MatrixEvent)
    (fuel : nat) :
  In r (directSubevents this e) ->
  (forall lvl, tilesFor fuel this None r None None None lvl = OutOfFuel) ->
  forall prev l n nt lvl, tilesFor (S fuel) this prev e l n nt lvl = OutOfFuel.
Proof.
  intros Hin Hr prev l n nt lvl. cbn [_getTilesForEvent].
  rewrite (mapM_out_of_fuel _ _ r); [reflexivity| | |exact Hin|apply Hr].
  - intros a x. apply getTilesForEvent_no_throw.
  - intro a. apply getTilesForEvent_supported.
Qed.

Lemma self_reply_out_of_fuel (this : PostPanel) (r : MatrixEvent) :
  In r (directSubevents this r) ->
  forall fuel prev l n nt lvl, tilesFor fuel this prev r l n nt lvl = OutOfFuel.
Proof.
  intros Hin fuel. induction fuel as [|fuel IH]; intros prev l n nt lvl;
    [reflexivity|].
  apply (getTilesForEvent_out_of_fuel this r r fuel Hin).
  intro lvl'. apply IH.
Qed.

Lemma tiles_loop_out_of_fuel (this : PostPanel) (fuel : nat)
    (lse : option MatrixEvent) (idx : Z) (e : MatrixEvent)
    (evs : list MatrixEvent) :
  In e evs -> show this e = true ->
  (forall prev l n nt lvl, tilesFor fuel this prev e l n nt lvl = OutOfFuel) ->
  forall i st,
    tiles_loop peg haveTile shouldHide fuel this lse idx evs i st = OutOfFuel.
Proof.
  intros Hin Hs He. induction evs as [|a evs IH]; intros i [ret prev];
    [destruct Hin|].
  assert (Hno := tiles_loop_no_throw peg haveTile shouldHide this fuel lse idx
                   (a :: evs)).
  assert (Hsup := tiles_loop_supported peg haveTile shouldHide this fuel lse idx
                    (a :: evs)).
  cbn [tiles_loop] in *.
  destruct (tiles_step _ _ _ _ _ _ _ _ _ _) as [st1|x| |] eqn:Es; cbn [bind].
  - destruct Hin as [->|Hin]; [|now apply IH].
    exfalso. revert Es. unfold tiles_step.
    destruct (_getNextEventInfo _ _ _ _ _ _) as [n nt].
    rewrite Hs, He. discriminate.
  - exfalso. apply (Hno x i (ret, prev)). rewrite Es. reflexivity.
  - reflexivity.
  - exfalso. apply (Hsup i (ret, prev)). rewrite Es. reflexivity.
Qed.
End ReplyCycle.

(** X15.  A reply of the log whose [m.in_reply_to] names its own id is one
    of its own direct sub-events, and the recursion of [_getTilesForEvent]
    over it has no end: no amount of fuel makes a result, for the event
    itself and for every event it replies to.  A render whose log has a shown
    event with such a reply among its direct sub-events never returns. *)
Theorem reply_cycle_never_returns peg haveTile shouldHide (this : PostPanel)
    (r : MatrixEvent) :
  In r (directSubevents this r) ->
  (forall fuel prev l n nt lvl,
     _getTilesForEvent peg haveTile shouldHide fuel this prev r l n nt lvl
     = OutOfFuel)
  /\ (forall e, In r (directSubevents this e) ->
      forall fuel prev l n nt lvl,
        _getTilesForEvent peg haveTile shouldHide fuel this prev e l n nt lvl
        = OutOfFuel)
  /\ (forall e, In e (events (props this)) ->
      _shouldShowEvent peg haveTile shouldHide this e = true ->
      In r (directSubevents this e) ->
      forall fuel ret this',
        _getEventTiles peg haveTile shouldHide fuel this <> Returns (ret, this')).
Proof.
  intro Hr.
  assert (Hsub : forall this0 e, props this0 = props this ->
            In r (directSubevents this0 e) ->
            forall fuel prev l n nt lvl,
              _getTilesForEvent peg haveTile shouldHide fuel this0 prev e l n nt
                                lvl = OutOfFuel).
  { intros this0 e Hp He [|fuel] prev l n nt lvl; [reflexivity|].
    apply (getTilesForEvent_out_of_fuel peg haveTile shouldHide this0 e r fuel He).
    intro lvl'. apply self_reply_out_of_fuel.
    now rewrite (directSubevents_same this0 this r Hp). }
  split; [|split].
  - apply self_reply_out_of_fuel. exact Hr.
  - intros e He. now apply Hsub.
  - intros e Hin Hs He fuel ret this' H.
    apply getEventTiles_inv in H. destruct H as [[Hp [_ Hh]] [prev Hl]].
    rewrite (tiles_loop_out_of_fuel peg haveTile shouldHide this' fuel _ _ e)
      in Hl; [discriminate|exact Hin| |].
    + now rewrite (shouldShowEvent_same peg haveTile shouldHide this this' e).
    + apply Hsub; [exact Hp|].
      now rewrite (directSubevents_same this' this e Hp).
Qed.

(** A log with the message [$S] and a reply to [$S] that has the id [$S]
    itself: the render makes no result with fuel 5. *)
Lemma reply_cycle_never_returns_witness :
  In (Sample.reply "$S" "$S" Sample.me 20)
     (directSubevents
        (Sample.panel [Sample.message "$S" Sample.alice 10 None;
                       Sample.reply "$S" "$S" Sample.me 20]
           (Some Sample.folding_room) None false [] [])
        (Sample.reply "$S" "$S" Sample.me 20))
  /\ _getEventTiles Sample.client Sample.always Sample.never 5
       (Sample.panel [Sample.message "$S" Sample.alice 10 None;
                      Sample.reply "$S" "$S" Sample.me 20]
          (Some Sample.folding_room) None false [] [])
     = OutOfFuel.
Proof.
  assert (Hself :
    In (Sample.reply "$S" "$S" Sample.me 20)
       (directSubevents
          (Sample.panel [Sample.message "$S" Sample.alice 10 None;
                         Sample.reply "$S" "$S" Sample.me 20]
             (Some Sample.folding_room) None false [] [])
          (Sample.reply "$S" "$S" Sample.me 20))).
  { cbn. left. reflexivity. }
  split; [exact Hself|].
  assert (Hnever := proj2 (proj2
            (reply_cycle_never_returns Sample.client Sample.always Sample.never
               _ _ Hself))
            (Sample.message "$S" Sample.alice 10 None)).
  destruct (_getEventTiles Sample.client Sample.always Sample.never 5 _)
    as [[ret t]|x| |] eqn:E.
  - exfalso. apply (Hnever (or_introl eq_refl) eq_refl (or_introl eq_refl)
                      5%nat ret t). exact E.
  - vm_compute in E. discriminate.
  - reflexivity.
  - vm_compute in E. discriminate.
Defined.
